(** * powerquery-parser: the lexer snapshot and the parser context arena

    A shallow embedding of [src/lexer/lexerSnapshot.ts] (flattening of the
    per-line tokens, reassembly of multiline tokens, position windows) and of
    the [ParserContext] namespace (the id-indexed arena of parse nodes), with
    the properties of the specification stated over them.

    Conventions.  A JavaScript [number] holding an offset, a line number or a
    node id is an integer and is modelled by [Z]; array indices produced by
    loop counters are [nat].  The increment of the node-id counter is the
    addition of doubles [numberAdd], which is exact up to [2 ^ 53] only.  A
    JavaScript string is its sequence of UTF-16 code units.  Objects that the
    code mutates or shares (arrays, nodes, maps, states) live in an explicit
    store and are named by locations.  A call that returns or throws is a
    [Completion]. *)

From Stdlib Require Import ZArith Lia Ascii String.
From stdpp Require Import base option list gmap.

Local Open Scope Z_scope.

(** ** JavaScript strings and arrays *)

Module JS.

(** One UTF-16 code unit. *)
Definition codeunit : Type := N.

Definition jsstring : Type := list codeunit.

(** A string literal of the development, one code unit per character. *)
Definition str (s : string) : jsstring :=
  map N_of_ascii (list_ascii_of_string s).

(** [s.length] *)
Definition strlen (s : jsstring) : Z := Z.of_nat (length s).

(** The clamping of an argument of [substring] to [0 .. s.length]. *)
Definition clamp (s : jsstring) (z : Z) : nat :=
  Nat.min (Z.to_nat z) (length s).

(** [s.substring(a, b)]: both arguments are clamped to the string, and
    swapped when the first exceeds the second. *)
Definition substring (s : jsstring) (a b : Z) : jsstring :=
  let from := Nat.min (clamp s a) (clamp s b) in
  let to := Nat.max (clamp s a) (clamp s b) in
  take (to - from) (drop from s).

(** [arr.indexOf(x)] on an array of numbers: the first index holding [x]
    ([None] stands for [-1]). *)
Fixpoint indexOf (arr : list Z) (x : Z) : option nat :=
  match arr with
  | [] => None
  | y :: arr' => if Z.eqb y x then Some O else S <$> indexOf arr' x
  end.

(** [[...arr.slice(0, i), ...arr.slice(i + 1)]] *)
Definition removeAt (arr : list Z) (i : nat) : list Z :=
  take i arr ++ drop (S i) arr.

(** The double nearest to the integer [z].  Every integer up to [2 ^ 53] in
    absolute value is a double; above, the doubles between [2 ^ k] and
    [2 ^ (k + 1)] are the multiples of [2 ^ (k - 52)], and an integer half-way
    between two of them goes to the one with the even significand. *)
Definition toDouble (z : Z) : Z :=
  if Z.abs z <=? 2 ^ 53 then z
  else
    let ulp := 2 ^ (Z.log2 (Z.abs z) - 52) in
    let q := z / ulp in
    let r := z mod ulp in
    if 2 * r <? ulp then q * ulp
    else if ulp <? 2 * r then (q + 1) * ulp
    else if Z.even q then q * ulp
    else (q + 1) * ulp.

(** [x + y] on numbers that hold integers: the sum, rounded to a double. *)
Definition numberAdd (x y : Z) : Z := toDouble (x + y).
Arguments toDouble : simpl never.
Arguments numberAdd : simpl never.

(** A call returns a value or throws. *)
Inductive Completion (E A : Type) : Type :=
| Returns (a : A)
| Throws (e : E).
Arguments Returns {E A} a.
Arguments Throws {E A} e.

End JS.

Import JS.

(** ** The [Language] namespace: kinds, positions, tokens, comments *)

Module Language.

(** The values of the enumerations [LineTokenKind] and [TokenKind].  Both are
    erased to the same run-time values, and the snapshot turns one into the
    other by an unchecked cast, so one type carries both: the kinds the
    snapshot names, and the remaining ones, which the two enumerations
    share. *)
Inductive Kind : Type :=
| LineComment
| MultilineComment
| MultilineCommentStart
| MultilineCommentContent
| MultilineCommentEnd
| QuotedIdentifierStart
| QuotedIdentifierContent
| QuotedIdentifierEnd
| TextLiteralStart
| TextLiteralContent
| TextLiteralEnd
| Identifier
| TextLiteral
| OtherKind (tag : nat).

Definition LineTokenKind : Type := Kind.
Definition TokenKind : Type := Kind.

Definition Kind_eqb (a b : Kind) : bool :=
  match a, b with
  | LineComment, LineComment
  | MultilineComment, MultilineComment
  | MultilineCommentStart, MultilineCommentStart
  | MultilineCommentContent, MultilineCommentContent
  | MultilineCommentEnd, MultilineCommentEnd
  | QuotedIdentifierStart, QuotedIdentifierStart
  | QuotedIdentifierContent, QuotedIdentifierContent
  | QuotedIdentifierEnd, QuotedIdentifierEnd
  | TextLiteralStart, TextLiteralStart
  | TextLiteralContent, TextLiteralContent
  | TextLiteralEnd, TextLiteralEnd
  | Identifier, Identifier
  | TextLiteral, TextLiteral => true
  | OtherKind m, OtherKind n => Nat.eqb m n
  | _, _ => false
  end.

Inductive CommentKind : Type := Line | Multiline.

Record TokenPosition : Type := {
  codeUnit : Z;
  lineCodeUnit : Z;
  lineNumber : Z;
}.

Module Token.
Record t : Type := {
  kind : TokenKind;
  data : jsstring;
  positionStart : TokenPosition;
  positionEnd : TokenPosition;
}.
End Token.

(** [TComment]: a line comment or a multiline comment. *)
Module Comment.
Record t : Type := {
  kind : CommentKind;
  data : jsstring;
  containsNewline : bool;
  positionStart : TokenPosition;
  positionEnd : TokenPosition;
}.
End Comment.

End Language.

Import Language.

(** ** The [ParserContext] namespace: the arena of parse nodes *)

Module ParserContext.

(** A location names one object of the store. *)
Abbreviation loc := nat.

(** [Ast.NodeKind]: an enumeration, kept as its tag. *)
Definition NodeKind : Type := nat.

(** [Ast.TNode]: the arena reads its [terminalNode] flag only; [fragment]
    stands for the other fields of the AST node. *)
Record TNode : Type := {
  terminalNode : bool;
  fragment : nat;
}.

Record Node : Type := {
  nodeId : Z;
  nodeKind : NodeKind;
  maybeTokenStart : option Token.t;
  maybeParentId : option Z;
  childNodeIds : loc;        (* a reference to a [number[]] *)
  maybeAstNode : option loc; (* a reference to an [Ast.TNode] *)
}.

(** [NodeMap = Map<number, Node>]: node ids to references to nodes. *)
Abbreviation NodeMap := (gmap Z loc).

Record State : Type := {
  root : loc;            (* a reference to a [Root] *)
  nodesById : loc;       (* a reference to a [NodeMap] *)
  terminalNodeIds : loc; (* a reference to a [number[]] *)
  nodeIdCounter : Z;
}.

(** [Root]: its one field [maybeNode], a reference to a node or nothing. *)
Definition Root : Type := option loc.

(** The store: for every type of object, the objects allocated so far; a
    location is an index into the list of its type. *)
Record Store : Type := {
  arrays : list (list Z);
  asts : list TNode;
  nodes : list Node;
  maps : list NodeMap;
  roots : list Root;
  states : list State;
}.

Definition emptyStore : Store :=
  {| arrays := []; asts := []; nodes := []; maps := []; roots := []; states := [] |}.

(** The [CommonError.InvariantError]s the arena throws. *)
Inductive InvariantError : Type :=
| NodeIdNotInState (nodeId : Z)          (* expectNode *)
| NodeNotInState (nodeId : Z)            (* deleteContext, first check *)
| NotListedAsChild (nodeId parentId : Z) (* deleteContext, second check *).

Inductive Outcome (A : Type) : Type :=
| Return (a : A)
| Throw (e : InvariantError).
Arguments Return {A} a.
Arguments Throw {A} e.

(** A computation on the store.  It returns or throws, and in both cases
    leaves a store behind; [None] means that it was handed a location that
    names no object, which references of a running program never do. *)
Definition M (A : Type) : Type := Store → option (Store * Outcome A).

Definition ret {A} (a : A) : M A := λ σ, Some (σ, Return a).

Definition throw {A} (e : InvariantError) : M A := λ σ, Some (σ, Throw e).

Definition bind {A B} (m : M A) (k : A → M B) : M B :=
  λ σ, match m σ with
       | Some (σ', Return a) => k a σ'
       | Some (σ', Throw e) => Some (σ', Throw e)
       | None => None
       end.

Declare Scope arena_scope.
Delimit Scope arena_scope with arena.
Notation "'let*' x ':=' m 'in' k" := (bind m (λ x, k))
  (at level 10, x name, m at level 100, k at level 200) : arena_scope.
Local Open Scope arena_scope.

(** One type of object of the store: how to reach its list. *)
Record Cell (A : Type) : Type := {
  get : Store → list A;
  put : list A → Store → Store;
}.
Arguments get {A} c σ.
Arguments put {A} c l σ.

Definition arrayC : Cell (list Z) :=
  {| get := arrays;
     put := λ l σ, {| arrays := l; asts := asts σ; nodes := nodes σ;
                      maps := maps σ; roots := roots σ; states := states σ |} |}.
Definition astC : Cell TNode :=
  {| get := asts;
     put := λ l σ, {| arrays := arrays σ; asts := l; nodes := nodes σ;
                      maps := maps σ; roots := roots σ; states := states σ |} |}.
Definition nodeC : Cell Node :=
  {| get := nodes;
     put := λ l σ, {| arrays := arrays σ; asts := asts σ; nodes := l;
                      maps := maps σ; roots := roots σ; states := states σ |} |}.
Definition mapC : Cell NodeMap :=
  {| get := maps;
     put := λ l σ, {| arrays := arrays σ; asts := asts σ; nodes := nodes σ;
                      maps := l; roots := roots σ; states := states σ |} |}.
Definition rootC : Cell Root :=
  {| get := roots;
     put := λ l σ, {| arrays := arrays σ; asts := asts σ; nodes := nodes σ;
                      maps := maps σ; roots := l; states := states σ |} |}.
Definition stateC : Cell State :=
  {| get := states;
     put := λ l σ, {| arrays := arrays σ; asts := asts σ; nodes := nodes σ;
                      maps := maps σ; roots := roots σ; states := l |} |}.

(** Reading through a reference. *)
Definition read {A} (c : Cell A) (l : loc) : M A :=
  λ σ, match get c σ !! l with
       | Some a => Some (σ, Return a)
       | None => None
       end.

(** Assigning through a reference: every holder of [l] sees the new object. *)
Definition write {A} (c : Cell A) (l : loc) (a : A) : M unit :=
  λ σ, match get c σ !! l with
       | Some _ => Some (put c (<[l:=a]> (get c σ)) σ, Return tt)
       | None => None
       end.

(** Creating an object: the reference returned is fresh. *)
Definition alloc {A} (c : Cell A) (a : A) : M loc :=
  λ σ, Some (put c (get c σ ++ [a]) σ, Return (length (get c σ))).

Definition setNodeIdCounter (n : Z) (st : State) : State :=
  {| root := root st; nodesById := nodesById st;
     terminalNodeIds := terminalNodeIds st; nodeIdCounter := n |}.

Definition setTerminalNodeIds (a : loc) (st : State) : State :=
  {| root := root st; nodesById := nodesById st;
     terminalNodeIds := a; nodeIdCounter := nodeIdCounter st |}.

Definition setChildNodeIds (a : loc) (nd : Node) : Node :=
  {| nodeId := nodeId nd; nodeKind := nodeKind nd;
     maybeTokenStart := maybeTokenStart nd; maybeParentId := maybeParentId nd;
     childNodeIds := a; maybeAstNode := maybeAstNode nd |}.

Definition setMaybeAstNode (a : option loc) (nd : Node) : Node :=
  {| nodeId := nodeId nd; nodeKind := nodeKind nd;
     maybeTokenStart := maybeTokenStart nd; maybeParentId := maybeParentId nd;
     childNodeIds := childNodeIds nd; maybeAstNode := a |}.

(** [empty()] *)
Definition empty : M loc :=
  let* r := alloc rootC None in
  let* m := alloc mapC ∅ in
  let* t := alloc arrayC [] in
  alloc stateC {| root := r; nodesById := m; terminalNodeIds := t; nodeIdCounter := 0 |}.

(** [maybeGetNode(nodesById, nodeId)] *)
Definition maybeGetNode (nodesById : loc) (nodeId : Z) : M (option loc) :=
  let* m := read mapC nodesById in
  ret (m !! nodeId).

(** [expectNode(nodesById, nodeId)] *)
Definition expectNode (nodesById : loc) (nodeId : Z) : M loc :=
  let* maybeNode := maybeGetNode nodesById nodeId in
  match maybeNode with
  | None => throw (NodeIdNotInState nodeId)
  | Some node => ret node
  end.

(** [addChild(state, maybeParent, nodeKind, tokenStart)] *)
Definition addChild (state : loc) (maybeParent : option loc)
    (nodeKind : NodeKind) (tokenStart : option Token.t) : M loc :=
  let* st := read stateC state in
  let* _ :=
    write stateC state (setNodeIdCounter (numberAdd (nodeIdCounter st) 1) st) in
  let* st := read stateC state in
  let newNodeId := nodeIdCounter st in
  let* maybeParentId :=
    match maybeParent with
    | Some parent =>
        let* p := read nodeC parent in
        let* children := read arrayC (childNodeIds p) in
        let* _ := write arrayC (childNodeIds p) (children ++ [newNodeId]) in
        ret (Some (nodeId p))
    | None => ret None
    end in
  let* st := read stateC state in
  let* fresh := alloc arrayC [] in
  let* child := alloc nodeC
    {| nodeId := nodeIdCounter st; nodeKind := nodeKind;
       maybeTokenStart := tokenStart; maybeParentId := maybeParentId;
       childNodeIds := fresh; maybeAstNode := None |} in
  let* m := read mapC (nodesById st) in
  let* _ := write mapC (nodesById st) (<[nodeIdCounter st := child]> m) in
  ret child.

(** [endContext(state, oldNode, astNode)] *)
Definition endContext (state : loc) (oldNode : loc) (astNode : loc)
    : M (option loc) :=
  let* ast := read astC astNode in
  let* _ :=
    if terminalNode ast then
     let* st := read stateC state in
     let* old := read nodeC oldNode in
     let* terminals := read arrayC (terminalNodeIds st) in
     write arrayC (terminalNodeIds st) (terminals ++ [nodeId old])
    else ret tt in
  let* old := read nodeC oldNode in
  let* _ := write nodeC oldNode (setMaybeAstNode (Some astNode) old) in
  match maybeParentId old with
  | Some parentId =>
      let* st := read stateC state in
      let* parent := expectNode (nodesById st) parentId in
      ret (Some parent)
  | None => ret None
  end.

(** [deleteContext(state, node)] *)
Definition deleteContext (state : loc) (node : loc) : M (option loc) :=
  let* st := read stateC state in
  let nodesById := nodesById st in
  let terminalNodeIds := terminalNodeIds st in
  let* nd := read nodeC node in
  let maybeParentId := maybeParentId nd in
  let nodeId := nodeId nd in
  let* m := read mapC nodesById in
  match m !! nodeId with
  | None => throw (NodeNotInState nodeId)
  | Some _ =>
      let* _ := write mapC nodesById (delete nodeId m) in
      let* terminals := read arrayC terminalNodeIds in
      let* _ :=
        match indexOf terminals nodeId with
        | Some terminalIndex =>
          let* fresh := alloc arrayC (removeAt terminals terminalIndex) in
          let* st := read stateC state in
          write stateC state (setTerminalNodeIds fresh st)
        | None => ret tt
        end in
      match maybeParentId with
      | None => ret None
      | Some parentId =>
          let* st := read stateC state in
          let* parent := expectNode (ParserContext.nodesById st) parentId in
          let* p := read nodeC parent in
          let* children := read arrayC (childNodeIds p) in
          match indexOf children nodeId with
          | None => throw (NotListedAsChild nodeId parentId)
          | Some childNodeIndex =>
              let* fresh := alloc arrayC (removeAt children childNodeIndex) in
              let* p := read nodeC parent in
              let* _ := write nodeC parent (setChildNodeIds fresh p) in
              ret (Some parent)
          end
      end
  end.

(** [deepCopyNode(node)]: a new node object with the fields of [node]
    spread into it, and a new AST object with the fields of the old one. *)
Definition deepCopyNode (node : loc) : M loc :=
  let* nd := read nodeC node in
  let* ast :=
    match maybeAstNode nd with
    | Some a =>
        let* t := read astC a in
        let* a' := alloc astC t in
        ret (Some a')
    | None => ret None
    end in
  alloc nodeC (setMaybeAstNode ast nd).

(** The callback of [forEach] in [deepCopy], over the entries of the map.
    The entries come in the order of [map_to_list], where JavaScript takes
    them in the order of insertion: the map built is the same, the copies are
    allocated in another order. *)
Fixpoint copyEntries (nodesById : loc) (entries : list (Z * loc)) : M unit :=
  match entries with
  | [] => ret tt
  | (key, value) :: entries' =>
      let* copy := deepCopyNode value in
      let* m := read mapC nodesById in
      let* _ := write mapC nodesById (<[key := copy]> m) in
      copyEntries nodesById entries'
  end.

(** [deepCopy(state)] *)
Definition deepCopy (state : loc) : M loc :=
  let* st := read stateC state in
  let* nodesById := alloc mapC ∅ in
  let* old := read mapC (ParserContext.nodesById st) in
  let* _ := copyEntries nodesById (map_to_list old) in
  let* maybeNode := maybeGetNode nodesById 0 in
  let* r := alloc rootC maybeNode in
  let* terminals := read arrayC (terminalNodeIds st) in
  let* t := alloc arrayC terminals in
  alloc stateC
    {| root := r; nodesById := nodesById; terminalNodeIds := t;
       nodeIdCounter := nodeIdCounter st |}.

(** *** Sequences of calls *)

Inductive Call : Type :=
| CallAddChild (state : loc) (maybeParent : option loc)
    (nodeKind : NodeKind) (tokenStart : option Token.t)
| CallEndContext (state oldNode astNode : loc)
| CallDeleteContext (state node : loc)
| CallDeepCopy (state : loc).

Inductive Value : Type :=
| VNode (node : loc)
| VMaybeNode (maybeNode : option loc)
| VState (state : loc).

Definition exec (c : Call) : M Value :=
  match c with
  | CallAddChild state maybeParent nodeKind tokenStart =>
      let* n := addChild state maybeParent nodeKind tokenStart in ret (VNode n)
  | CallEndContext state oldNode astNode =>
      let* n := endContext state oldNode astNode in ret (VMaybeNode n)
  | CallDeleteContext state node =>
      let* n := deleteContext state node in ret (VMaybeNode n)
  | CallDeepCopy state =>
      let* s := deepCopy state in ret (VState s)
  end.

(** The id handed out by a call, with the state it was allocated in. *)
Definition allocation (c : Call) (out : Outcome Value) (σ : Store)
    : list (loc * Z) :=
  match c, out with
  | CallAddChild state _ _ _, Return (VNode child) =>
      match nodes σ !! child with
      | Some nd => [(state, nodeId nd)]
      | None => []
      end
  | _, _ => []
  end.

(** Running the calls one after the other; a call that throws leaves its
    store to the next one.  The result lists the allocations in order. *)
Fixpoint run (cs : list Call) (σ : Store) : option (Store * list (loc * Z)) :=
  match cs with
  | [] => Some (σ, [])
  | c :: cs' =>
      match exec c σ with
      | None => None
      | Some (σ1, out) =>
          match run cs' σ1 with
          | None => None
          | Some (σ2, log) => Some (σ2, allocation c out σ1 ++ log)
          end
      end
  end.

(** The ids allocated in [state], in order. *)
Definition allocatedIn (state : loc) (log : list (loc * Z)) : list Z :=
  snd <$> filter (λ e, e.1 = state) log.

(** *** Reading a state out of the store *)

Definition counterOf (σ : Store) (state : loc) : option Z :=
  nodeIdCounter <$> states σ !! state.

(** The node map of [state]. *)
Definition nodeMapOf (σ : Store) (state : loc) : option NodeMap :=
  st ← states σ !! state; maps σ !! nodesById st.

(** The terminal-id list of [state]. *)
Definition terminalsOf (σ : Store) (state : loc) : option (list Z) :=
  st ← states σ !! state; arrays σ !! terminalNodeIds st.

(** The node object held by the root of [state]. *)
Definition rootOf (σ : Store) (state : loc) : option (option loc) :=
  st ← states σ !! state; roots σ !! root st.

(** The child-id list of the node object [node]. *)
Definition childrenOf (σ : Store) (node : loc) : option (list Z) :=
  nd ← nodes σ !! node; arrays σ !! childNodeIds nd.

(** The node object that [state] files under [nodeId]. *)
Definition nodeOf (σ : Store) (state : loc) (nodeId : Z) : option loc :=
  m ← nodeMapOf σ state; m !! nodeId.

(** *** Samples *)

(** An arena with one node: [empty()], then [addChild] without a parent. *)
Definition oneNodeArena : M (loc * loc) :=
  let* state := empty in
  let* node := addChild state None 0%nat None in
  ret (state, node).

(** The same arena once the parser has made the node the root:
    [state.root.maybeNode = node]. *)
Definition rootedArena : M (loc * loc) :=
  let* arena := oneNodeArena in
  let* st := read stateC arena.1 in
  let* _ := write rootC (root st) (Some arena.2) in
  ret arena.

(** The store that [empty()] builds: the state is at location 0. *)
Definition freshArena : Store :=
  {| arrays := [[]]; asts := []; nodes := []; maps := [∅]; roots := [None];
     states := [ {| root := 0%nat; nodesById := 0%nat; terminalNodeIds := 0%nat;
                    nodeIdCounter := 0 |} ] |}.

(** Calls on the fresh arena: a root (id 1, node 0), a child of it (id 2,
    node 1), which is deleted; a copy (state 1, whose root copy is node 2);
    a new child in the arena (id 3) and one in the copy. *)
Definition sampleCalls : list Call :=
  [ CallAddChild 0%nat None 0%nat None;
    CallAddChild 0%nat (Some 0%nat) 0%nat None;
    CallDeleteContext 0%nat 1%nat;
    CallDeepCopy 0%nat;
    CallAddChild 0%nat (Some 0%nat) 0%nat None;
    CallAddChild 1%nat (Some 2%nat) 0%nat None ].

(** A corrupted arena: node 1 (id 2) names node 0 (id 1) as its parent, but
    node 0 lists no child; id 2 is in the terminal-id list. *)
Definition corruptedArena : Store :=
  {| arrays := [[2]; []; []];
     asts := [ {| terminalNode := true; fragment := 0 |} ];
     nodes :=
       [ {| nodeId := 1; nodeKind := 0%nat; maybeTokenStart := None;
            maybeParentId := None; childNodeIds := 1%nat; maybeAstNode := None |};
         {| nodeId := 2; nodeKind := 0%nat; maybeTokenStart := None;
            maybeParentId := Some 1; childNodeIds := 2%nat;
            maybeAstNode := Some 0%nat |} ];
     maps := [ {[ 1 := 0%nat; 2 := 1%nat ]} ];
     roots := [Some 0%nat];
     states := [ {| root := 0%nat; nodesById := 0%nat; terminalNodeIds := 0%nat;
                    nodeIdCounter := 2 |} ] |}.

End ParserContext.

(** ** The [Lexer] namespace: what the per-line tokenizer hands over *)

Module Lexer.

(** A token of one line; its positions are offsets within the line. *)
Module LineToken.
Record t : Type := {
  kind : LineTokenKind;
  data : jsstring;
  positionStart : Z;
  positionEnd : Z;
}.
End LineToken.

Module TLine.
Record t : Type := {
  text : jsstring;
  lineTerminator : jsstring;
  tokens : list LineToken.t;
}.
End TLine.

(** [Lexer.State]; the localization templates only feed error messages and
    are left out. *)
Record State : Type := {
  lines : list TLine.t;
}.

End Lexer.

(** ** Interfaces of lexerSnapshot.ts *)

Module LineTerminator.
Record t : Type := {
  codeUnit : Z;
  text : jsstring;
}.
End LineTerminator.

Module FlatLineToken.
Record t : Type := {
  kind : LineTokenKind;
  data : jsstring;
  positionStart : TokenPosition;
  positionEnd : TokenPosition;
  flatIndex : nat;
}.
End FlatLineToken.

Module FlattenedLines.
Record t : Type := {
  text : jsstring;
  lineTerminators : list LineTerminator.t;
  flatLineTokens : list FlatLineToken.t;
}.
End FlattenedLines.

Module FlatLineCollection.
Record t : Type := {
  tokenStart : FlatLineToken.t;
  collectedTokens : list FlatLineToken.t;
  maybeTokenEnd : option FlatLineToken.t;
}.
End FlatLineCollection.

Module ConcatenatedCommentRead.
Record t : Type := {
  comment : Comment.t;
  flatIndexEnd : nat;
}.
End ConcatenatedCommentRead.

Module ConcatenatedTokenRead.
Record t : Type := {
  token : Token.t;
  flatIndexEnd : nat;
}.
End ConcatenatedTokenRead.

Module LexerSnapshot.
Record t : Type := {
  text : jsstring;
  tokens : list Token.t;
  comments : list Comment.t;
  lineTerminators : list LineTerminator.t;
}.
End LexerSnapshot.

(** ** flattenLineTokens *)

(** The variables of the loops of [flattenLineTokens]. *)
Record FlattenVars : Type := {
  v_text : jsstring;
  v_lineTerminators : list LineTerminator.t;
  v_flatLineTokens : list FlatLineToken.t;
  v_lineTextOffset : Z;
  v_flatIndex : nat;
}.

(** One turn of the inner loop: push the line token with global positions. *)
Definition pushLineToken (lineTextOffset : Z) (lineNumber : nat)
    (acc : list FlatLineToken.t * nat) (lineToken : Lexer.LineToken.t)
    : list FlatLineToken.t * nat :=
  let '(flatLineTokens, flatIndex) := acc in
  let linePositionStart := Lexer.LineToken.positionStart lineToken in
  let linePositionEnd := Lexer.LineToken.positionEnd lineToken in
  (flatLineTokens ++ [
     {| FlatLineToken.kind := Lexer.LineToken.kind lineToken;
        FlatLineToken.data := Lexer.LineToken.data lineToken;
        FlatLineToken.positionStart :=
          {| codeUnit := lineTextOffset + linePositionStart;
             lineCodeUnit := linePositionStart;
             lineNumber := Z.of_nat lineNumber |};
        FlatLineToken.positionEnd :=
          {| codeUnit := lineTextOffset + linePositionEnd;
             lineCodeUnit := linePositionEnd;
             lineNumber := Z.of_nat lineNumber |};
        FlatLineToken.flatIndex := flatIndex |} ],
   S flatIndex).

(** One turn of the outer loop, for the line [line] of number [lineNumber]. *)
Definition flattenLine (numLines : nat) (lineNumber : nat) (line : Lexer.TLine.t)
    (v : FlattenVars) : FlattenVars :=
  let text := v_text v ++ Lexer.TLine.text line in
  let text :=
    if Z.eqb (Z.of_nat lineNumber) (Z.of_nat numLines - 1)
    then text
    else text ++ Lexer.TLine.lineTerminator line in
  let '(flatLineTokens, flatIndex) :=
    fold_left (pushLineToken (v_lineTextOffset v) lineNumber)
      (Lexer.TLine.tokens line) (v_flatLineTokens v, v_flatIndex v) in
  let lineTerminatorCodeUnit := v_lineTextOffset v + strlen (Lexer.TLine.text line) in
  {| v_text := text;
     v_lineTerminators :=
       v_lineTerminators v ++ [
         {| LineTerminator.codeUnit := lineTerminatorCodeUnit;
            LineTerminator.text := Lexer.TLine.lineTerminator line |} ];
     v_flatLineTokens := flatLineTokens;
     v_lineTextOffset :=
       lineTerminatorCodeUnit + strlen (Lexer.TLine.lineTerminator line);
     v_flatIndex := flatIndex |}.

(** The outer loop from line [lineNumber] on; [rest] holds the lines not yet
    visited. *)
Fixpoint flattenLoop (numLines : nat) (lineNumber : nat) (rest : list Lexer.TLine.t)
    (v : FlattenVars) : FlattenVars :=
  match rest with
  | [] => v
  | line :: rest' =>
      flattenLoop numLines (S lineNumber) rest' (flattenLine numLines lineNumber line v)
  end.

Definition flattenLineTokens (state : Lexer.State) : FlattenedLines.t :=
  let lines := Lexer.lines state in
  let numLines := length lines in
  let v :=
    flattenLoop numLines 0 lines
      {| v_text := []; v_lineTerminators := []; v_flatLineTokens := [];
         v_lineTextOffset := 0; v_flatIndex := 0 |} in
  {| FlattenedLines.text := v_text v;
     FlattenedLines.lineTerminators := v_lineTerminators v;
     FlattenedLines.flatLineTokens := v_flatLineTokens v |}.

(** ** The snapshot: position windows, multiline reassembly, [tryFrom] *)

Inductive UnterminatedMultilineTokenKind : Type :=
| UnterminatedMultilineComment
| UnterminatedQuotedIdentifier
| UnterminatedText.

(** [Result<T, E>] of [ResultUtils]. *)
Inductive Result (T E : Type) : Type :=
| Ok (value : T)
| Err (error : E).
Arguments Ok {T E} value.
Arguments Err {T E} error.

(** The body of the loop of [graphemePositionStartFrom] over the remaining
    line terminators; [startCodeUnit] and [endCodeUnit] are the code units of
    the start and of the end of the token. *)
Fixpoint substringWindow (lineTerminators : list LineTerminator.t)
    (startCodeUnit endCodeUnit : Z)
    (substringPositionStart substringPositionEnd : Z) : Z * Z :=
  match lineTerminators with
  | [] => (substringPositionStart, substringPositionEnd)
  | lineTerminator :: rest =>
      let substringPositionStart :=
        if LineTerminator.codeUnit lineTerminator <? startCodeUnit
        then LineTerminator.codeUnit lineTerminator
             + strlen (LineTerminator.text lineTerminator)
        else substringPositionStart in
      if LineTerminator.codeUnit lineTerminator >=? endCodeUnit
      then (substringPositionStart,
            LineTerminator.codeUnit lineTerminator
            + strlen (LineTerminator.text lineTerminator))
      else substringWindow rest startCodeUnit endCodeUnit
             substringPositionStart substringPositionEnd
  end.

(** The positions of a [Language.Token | FlatLineToken]. *)
Definition positionStartOf (t : Token.t + FlatLineToken.t) : TokenPosition :=
  match t with
  | inl token => Token.positionStart token
  | inr flatLineToken => FlatLineToken.positionStart flatLineToken
  end.

Definition positionEndOf (t : Token.t + FlatLineToken.t) : TokenPosition :=
  match t with
  | inl token => Token.positionEnd token
  | inr flatLineToken => FlatLineToken.positionEnd flatLineToken
  end.

(** [readLineComment(flatToken)] *)
Definition readLineComment (flatToken : FlatLineToken.t) : Comment.t :=
  let positionStart := FlatLineToken.positionStart flatToken in
  let positionEnd := FlatLineToken.positionEnd flatToken in
  {| Comment.kind := Line;
     Comment.data := FlatLineToken.data flatToken;
     Comment.containsNewline := true;
     Comment.positionStart := positionStart;
     Comment.positionEnd := positionEnd |}.

(** [readSingleLineMultilineComment(flatToken)] *)
Definition readSingleLineMultilineComment (flatToken : FlatLineToken.t) : Comment.t :=
  let positionStart := FlatLineToken.positionStart flatToken in
  let positionEnd := FlatLineToken.positionEnd flatToken in
  {| Comment.kind := Multiline;
     Comment.data := FlatLineToken.data flatToken;
     Comment.containsNewline :=
       negb (lineNumber positionStart =? lineNumber positionEnd);
     Comment.positionStart := positionStart;
     Comment.positionEnd := positionEnd |}.

(** The loop of [collectWhileContent] from index [flatIndex] on; [rest] holds
    the flat tokens from that index to the end of the array. *)
Fixpoint collectLoop (rest : list FlatLineToken.t) (contentKind : LineTokenKind)
    (flatIndex : nat) (collectedTokens : list FlatLineToken.t)
    : list FlatLineToken.t * nat :=
  match rest with
  | [] => (collectedTokens, flatIndex)
  | token :: rest' =>
      if negb (Kind_eqb (FlatLineToken.kind token) contentKind)
      then (collectedTokens, flatIndex)
      else collectLoop rest' contentKind (S flatIndex) (collectedTokens ++ [token])
  end.

(** [collectWhileContent(flatTokens, tokenStart, contentKind)] *)
Definition collectWhileContent (flatTokens : list FlatLineToken.t)
    (tokenStart : FlatLineToken.t) (contentKind : LineTokenKind)
    : FlatLineCollection.t :=
  let first := S (FlatLineToken.flatIndex tokenStart) in
  let '(collectedTokens, flatIndex) :=
    collectLoop (drop first flatTokens) contentKind first [] in
  {| FlatLineCollection.tokenStart := tokenStart;
     FlatLineCollection.collectedTokens := collectedTokens;
     FlatLineCollection.maybeTokenEnd := flatTokens !! flatIndex |}.

Section Position.

(** [StringUtils.graphemePositionFrom(text, lineCodeUnit, lineNumber,
    maybeCodeUnit)] belongs to another file.  What a call of it gives, a
    position or a throw, is what [graphemePositionStartFrom] gives: the
    function is studied for any such function and any type of what it
    gives. *)
Context {GraphemeResult : Type}.
Context (graphemePositionFrom : jsstring → Z → Z → Z → GraphemeResult).

(** [LexerSnapshot.graphemePositionStartFrom(text, lineTerminators, flatLineToken)] *)
Definition graphemePositionStartFrom (text : jsstring)
    (lineTerminators : list LineTerminator.t)
    (flatLineToken : Token.t + FlatLineToken.t) : GraphemeResult :=
  let positionStart := positionStartOf flatLineToken in
  let positionEnd := positionEndOf flatLineToken in
  let '(substringPositionStart, substringPositionEnd) :=
    substringWindow lineTerminators (codeUnit positionStart) (codeUnit positionEnd)
      0 (strlen text) in
  graphemePositionFrom
    (substring text substringPositionStart substringPositionEnd)
    (lineCodeUnit positionStart)
    (lineNumber positionStart)
    (codeUnit positionEnd).

(** [snapshot.graphemePositionStartFrom(token)] *)
Definition snapshotGraphemePositionStartFrom (snapshot : LexerSnapshot.t)
    (token : Token.t) : GraphemeResult :=
  graphemePositionStartFrom (LexerSnapshot.text snapshot)
    (LexerSnapshot.lineTerminators snapshot) (inl token).

End Position.

Section Snapshot.

(** [StringUtils.GraphemePosition] and [StringUtils.graphemePositionFrom]
    belong to another file: the function returns a position or throws an
    invariant error of its own.  The snapshot is studied for any such
    function. *)
Context {GraphemePosition GraphemeError : Type}.
Context (graphemePositionFrom
  : jsstring → Z → Z → Z → Completion GraphemeError GraphemePosition).

(** What the snapshot code throws: its two errors, and what
    [graphemePositionFrom] throws, which passes through it. *)
Inductive LexException : Type :=
| UnterminatedMultilineTokenError
    (graphemePosition : GraphemePosition) (kind : UnterminatedMultilineTokenKind)
| InvariantError (foundTokenEnd : FlatLineToken.t)
| GraphemeInvariantError (thrown : GraphemeError).

(** Modelled from the spec: [LexError.TLexError], of another file; [tryFrom]
    puts an inner lexer error into a [LexError], and normalizes anything else
    thrown into a [CommonError] ([CommonError.ensureCommonError]). *)
Inductive TLexError : Type :=
| LexError (innerError : LexException)
| CommonError (innerError : LexException).

(** Modelled from the spec: [LexError.isTInnerLexError], of another file.
    The unterminated-multiline-token error is the user-facing lexer error;
    the invariant errors are internal faults of the common errors. *)
Definition isTInnerLexError (e : LexException) : bool :=
  match e with
  | UnterminatedMultilineTokenError _ _ => true
  | InvariantError _ => false
  | GraphemeInvariantError _ => false
  end.

(** [readMultilineComment(localizationTemplates, flattenedLines, tokenStart)] *)
Definition readMultilineComment (flattenedLines : FlattenedLines.t)
    (tokenStart : FlatLineToken.t) : Completion LexException ConcatenatedCommentRead.t :=
  let collection :=
    collectWhileContent (FlattenedLines.flatLineTokens flattenedLines)
      tokenStart MultilineCommentContent in
  match FlatLineCollection.maybeTokenEnd collection with
  | None =>
      (* the position is computed before the error is made *)
      match graphemePositionStartFrom graphemePositionFrom
              (FlattenedLines.text flattenedLines)
              (FlattenedLines.lineTerminators flattenedLines) (inr tokenStart) with
      | Returns graphemePosition =>
          Throws (UnterminatedMultilineTokenError graphemePosition
                    UnterminatedMultilineComment)
      | Throws thrown => Throws (GraphemeInvariantError thrown)
      end
  | Some maybeTokenEnd =>
      if negb (Kind_eqb (FlatLineToken.kind maybeTokenEnd) MultilineCommentEnd)
      then Throws (InvariantError maybeTokenEnd)
      else
        let tokenEnd := maybeTokenEnd in
        let positionStart := FlatLineToken.positionStart tokenStart in
        let positionEnd := FlatLineToken.positionEnd tokenEnd in
        Returns
          {| ConcatenatedCommentRead.comment :=
               {| Comment.kind := Multiline;
                  Comment.data :=
                    substring (FlattenedLines.text flattenedLines)
                      (codeUnit positionStart) (codeUnit positionEnd);
                  Comment.containsNewline :=
                    negb (lineNumber positionStart =? lineNumber positionEnd);
                  Comment.positionStart := positionStart;
                  Comment.positionEnd := positionEnd |};
             ConcatenatedCommentRead.flatIndexEnd :=
               FlatLineToken.flatIndex tokenEnd |}
  end.

(** [readQuotedIdentifier(localizationTemplates, flattenedLines, tokenStart)] *)
Definition readQuotedIdentifier (flattenedLines : FlattenedLines.t)
    (tokenStart : FlatLineToken.t) : Completion LexException ConcatenatedTokenRead.t :=
  let collection :=
    collectWhileContent (FlattenedLines.flatLineTokens flattenedLines)
      tokenStart QuotedIdentifierContent in
  match FlatLineCollection.maybeTokenEnd collection with
  | None =>
      (* the position is computed before the error is made *)
      match graphemePositionStartFrom graphemePositionFrom
              (FlattenedLines.text flattenedLines)
              (FlattenedLines.lineTerminators flattenedLines) (inr tokenStart) with
      | Returns graphemePosition =>
          Throws (UnterminatedMultilineTokenError graphemePosition
                    UnterminatedQuotedIdentifier)
      | Throws thrown => Throws (GraphemeInvariantError thrown)
      end
  | Some maybeTokenEnd =>
      if negb (Kind_eqb (FlatLineToken.kind maybeTokenEnd) QuotedIdentifierEnd)
      then Throws (InvariantError maybeTokenEnd)
      else
        let tokenEnd := maybeTokenEnd in
        let positionStart := FlatLineToken.positionStart tokenStart in
        let positionEnd := FlatLineToken.positionEnd tokenEnd in
        Returns
          {| ConcatenatedTokenRead.token :=
               {| Token.kind := Identifier;
                  Token.data :=
                    substring (FlattenedLines.text flattenedLines)
                      (codeUnit positionStart) (codeUnit positionEnd);
                  Token.positionStart := positionStart;
                  Token.positionEnd := positionEnd |};
             ConcatenatedTokenRead.flatIndexEnd :=
               FlatLineToken.flatIndex tokenEnd |}
  end.

(** [readTextLiteral(localizationTemplates, flattenedLines, tokenStart)] *)
Definition readTextLiteral (flattenedLines : FlattenedLines.t)
    (tokenStart : FlatLineToken.t) : Completion LexException ConcatenatedTokenRead.t :=
  let collection :=
    collectWhileContent (FlattenedLines.flatLineTokens flattenedLines)
      tokenStart TextLiteralContent in
  match FlatLineCollection.maybeTokenEnd collection with
  | None =>
      (* the position is computed before the error is made *)
      match graphemePositionStartFrom graphemePositionFrom
              (FlattenedLines.text flattenedLines)
              (FlattenedLines.lineTerminators flattenedLines) (inr tokenStart) with
      | Returns graphemePosition =>
          Throws (UnterminatedMultilineTokenError graphemePosition UnterminatedText)
      | Throws thrown => Throws (GraphemeInvariantError thrown)
      end
  | Some maybeTokenEnd =>
      if negb (Kind_eqb (FlatLineToken.kind maybeTokenEnd) TextLiteralEnd)
      then Throws (InvariantError maybeTokenEnd)
      else
        let tokenEnd := maybeTokenEnd in
        let positionStart := FlatLineToken.positionStart tokenStart in
        let positionEnd := FlatLineToken.positionEnd tokenEnd in
        Returns
          {| ConcatenatedTokenRead.token :=
               {| Token.kind := TextLiteral;
                  Token.data :=
                    substring (FlattenedLines.text flattenedLines)
                      (codeUnit positionStart) (codeUnit positionEnd);
                  Token.positionStart := positionStart;
                  Token.positionEnd := positionEnd |};
             ConcatenatedTokenRead.flatIndexEnd :=
               FlatLineToken.flatIndex tokenEnd |}
  end.

(** The variables of the loop of [factory]. *)
Record FactoryVars : Type := {
  f_tokens : list Token.t;
  f_comments : list Comment.t;
  f_flatIndex : nat;
}.

(** The [switch] of [factory] on the flat token at [f_flatIndex]. *)
Definition factoryCase (flattenedLines : FlattenedLines.t)
    (flatToken : FlatLineToken.t) (v : FactoryVars) : Completion LexException FactoryVars :=
  match FlatLineToken.kind flatToken with
  | LineComment =>
      Returns {| f_tokens := f_tokens v;
                 f_comments := f_comments v ++ [readLineComment flatToken];
                 f_flatIndex := f_flatIndex v |}
  | MultilineComment =>
      Returns {| f_tokens := f_tokens v;
                 f_comments :=
                   f_comments v ++ [readSingleLineMultilineComment flatToken];
                 f_flatIndex := f_flatIndex v |}
  | MultilineCommentStart =>
      match readMultilineComment flattenedLines flatToken with
      | Throws e => Throws e
      | Returns concatenatedTokenRead =>
          Returns {| f_tokens := f_tokens v;
                     f_comments :=
                       f_comments v
                       ++ [ConcatenatedCommentRead.comment concatenatedTokenRead];
                     f_flatIndex :=
                       ConcatenatedCommentRead.flatIndexEnd concatenatedTokenRead |}
      end
  | QuotedIdentifierStart =>
      match readQuotedIdentifier flattenedLines flatToken with
      | Throws e => Throws e
      | Returns concatenatedTokenRead =>
          Returns {| f_tokens :=
                       f_tokens v
                       ++ [ConcatenatedTokenRead.token concatenatedTokenRead];
                     f_comments := f_comments v;
                     f_flatIndex :=
                       ConcatenatedTokenRead.flatIndexEnd concatenatedTokenRead |}
      end
  | TextLiteralStart =>
      match readTextLiteral flattenedLines flatToken with
      | Throws e => Throws e
      | Returns concatenatedTokenRead =>
          Returns {| f_tokens :=
                       f_tokens v
                       ++ [ConcatenatedTokenRead.token concatenatedTokenRead];
                     f_comments := f_comments v;
                     f_flatIndex :=
                       ConcatenatedTokenRead.flatIndexEnd concatenatedTokenRead |}
      end
  | _ =>
      let positionStart := FlatLineToken.positionStart flatToken in
      let positionEnd := FlatLineToken.positionEnd flatToken in
      Returns {| f_tokens :=
                   f_tokens v
                   ++ [ {| Token.kind := FlatLineToken.kind flatToken;
                           Token.data := FlatLineToken.data flatToken;
                           Token.positionStart := positionStart;
                           Token.positionEnd := positionEnd |} ];
                 f_comments := f_comments v;
                 f_flatIndex := f_flatIndex v |}
  end.

(** The [while] loop of [factory]; [fuel] bounds the number of tests of its
    condition, and [None] means that the bound was reached. *)
Fixpoint factoryLoop (fuel : nat) (flattenedLines : FlattenedLines.t)
    (v : FactoryVars) : option (Completion LexException FactoryVars) :=
  match fuel with
  | O => None
  | S fuel' =>
      match FlattenedLines.flatLineTokens flattenedLines !! f_flatIndex v with
      | None => Some (Returns v)
      | Some flatToken =>
          match factoryCase flattenedLines flatToken v with
          | Throws e => Some (Throws e)
          | Returns v' =>
              factoryLoop fuel' flattenedLines
                {| f_tokens := f_tokens v'; f_comments := f_comments v';
                   f_flatIndex := S (f_flatIndex v') |}
          end
      end
  end.

(** [LexerSnapshot.factory(state)]: the loop tests its condition at most once
    more than there are flat tokens ([factory_terminates]). *)
Definition factory (state : Lexer.State) : option (Completion LexException LexerSnapshot.t) :=
  let flattenedLines := flattenLineTokens state in
  let flatTokens := FlattenedLines.flatLineTokens flattenedLines in
  let numFlatTokens := length flatTokens in
  let text := FlattenedLines.text flattenedLines in
  match factoryLoop (S numFlatTokens) flattenedLines
          {| f_tokens := []; f_comments := []; f_flatIndex := 0 |} with
  | None => None
  | Some (Throws e) => Some (Throws e)
  | Some (Returns v) =>
      Some (Returns
        {| LexerSnapshot.text := text;
           LexerSnapshot.tokens := f_tokens v;
           LexerSnapshot.comments := f_comments v;
           LexerSnapshot.lineTerminators :=
             FlattenedLines.lineTerminators flattenedLines |})
  end.

(** [LexerSnapshot.tryFrom(state)] *)
Definition tryFrom (state : Lexer.State)
    : option (Result LexerSnapshot.t TLexError) :=
  match factory state with
  | None => None
  | Some (Returns snapshot) => Some (Ok snapshot)
  | Some (Throws e) =>
      Some (Err (if isTInnerLexError e then LexError e else CommonError e))
  end.

End Snapshot.

(** ** Definitions of the statements *)

#[global] Instance Kind_eq_dec : EqDecision Kind.
Proof. solve_decision. Defined.

(** The three multiline constructs, with their start, content and end kinds. *)
Inductive Construct : Type := MComment | MQuotedIdentifier | MTextLiteral.

Definition startKind (c : Construct) : LineTokenKind :=
  match c with
  | MComment => MultilineCommentStart
  | MQuotedIdentifier => QuotedIdentifierStart
  | MTextLiteral => TextLiteralStart
  end.

Definition contentKind (c : Construct) : LineTokenKind :=
  match c with
  | MComment => MultilineCommentContent
  | MQuotedIdentifier => QuotedIdentifierContent
  | MTextLiteral => TextLiteralContent
  end.

Definition endKind (c : Construct) : LineTokenKind :=
  match c with
  | MComment => MultilineCommentEnd
  | MQuotedIdentifier => QuotedIdentifierEnd
  | MTextLiteral => TextLiteralEnd
  end.

Definition unterminatedKind (c : Construct) : UnterminatedMultilineTokenKind :=
  match c with
  | MComment => UnterminatedMultilineComment
  | MQuotedIdentifier => UnterminatedQuotedIdentifier
  | MTextLiteral => UnterminatedText
  end.

(** Every line's text followed by that line's terminator, for every line. *)
Definition textWithAllTerminators (lines : list Lexer.TLine.t) : jsstring :=
  concat (map (λ line, Lexer.TLine.text line ++ Lexer.TLine.lineTerminator line) lines).

(** Every line's text followed by that line's terminator, but for the last
    line, whose terminator is left out. *)
Fixpoint textWithInnerTerminators (lines : list Lexer.TLine.t) : jsstring :=
  match lines with
  | [] => []
  | [line] => Lexer.TLine.text line
  | line :: rest =>
      Lexer.TLine.text line ++ Lexer.TLine.lineTerminator line
      ++ textWithInnerTerminators rest
  end.

(** The terminator of the last line (empty when there is no line). *)
Definition lastTerminator (lines : list Lexer.TLine.t) : jsstring :=
  from_option Lexer.TLine.lineTerminator [] (last lines).

(** The table of line terminators of [lines], the first of which starts at
    offset [lineTextOffset]. *)
Fixpoint terminatorsFrom (lineTextOffset : Z) (lines : list Lexer.TLine.t)
    : list LineTerminator.t :=
  match lines with
  | [] => []
  | line :: rest =>
      let lineTerminatorCodeUnit := lineTextOffset + strlen (Lexer.TLine.text line) in
      {| LineTerminator.codeUnit := lineTerminatorCodeUnit;
         LineTerminator.text := Lexer.TLine.lineTerminator line |}
      :: terminatorsFrom
           (lineTerminatorCodeUnit + strlen (Lexer.TLine.lineTerminator line)) rest
  end.

(** The offset just past a line terminator. *)
Definition terminatorEnd (lineTerminator : LineTerminator.t) : Z :=
  LineTerminator.codeUnit lineTerminator + strlen (LineTerminator.text lineTerminator).

(** The start of the window the way the specification words it: just past the
    last line terminator of the table strictly before [startCodeUnit], and 0
    when there is none. *)
Definition windowStart (lineTerminators : list LineTerminator.t)
    (startCodeUnit : Z) : Z :=
  from_option terminatorEnd 0
    (last (filter (λ lt, LineTerminator.codeUnit lt < startCodeUnit) lineTerminators)).

(** The exclusive end of the window the way the specification words it: the
    end of the first line terminator at or after [endCodeUnit], and the length
    of the text when there is none. *)
Definition windowEnd (text : jsstring) (lineTerminators : list LineTerminator.t)
    (endCodeUnit : Z) : Z :=
  from_option terminatorEnd (strlen text)
    (head (filter (λ lt, endCodeUnit ≤ LineTerminator.codeUnit lt) lineTerminators)).

(** The line terminators the scan visits: those up to and including the first
    one at or after [endCodeUnit]. *)
Fixpoint scanned (lineTerminators : list LineTerminator.t) (endCodeUnit : Z)
    : list LineTerminator.t :=
  match lineTerminators with
  | [] => []
  | lt :: rest =>
      if decide (endCodeUnit ≤ LineTerminator.codeUnit lt)
      then [lt]
      else lt :: scanned rest endCodeUnit
  end.

(** A table ordered by offset. *)
Definition ordered (lineTerminators : list LineTerminator.t) : Prop :=
  ∀ i j a b, (i ≤ j)%nat →
    lineTerminators !! i = Some a → lineTerminators !! j = Some b →
    LineTerminator.codeUnit a ≤ LineTerminator.codeUnit b.

(** The comment that merges the run from [tokenStart] to [tokenEnd]. *)
Definition mergedComment (text : jsstring) (tokenStart tokenEnd : FlatLineToken.t)
    : Comment.t :=
  {| Comment.kind := Multiline;
     Comment.data :=
       substring text (codeUnit (FlatLineToken.positionStart tokenStart))
         (codeUnit (FlatLineToken.positionEnd tokenEnd));
     Comment.containsNewline :=
       bool_decide (lineNumber (FlatLineToken.positionStart tokenStart)
                    ≠ lineNumber (FlatLineToken.positionEnd tokenEnd));
     Comment.positionStart := FlatLineToken.positionStart tokenStart;
     Comment.positionEnd := FlatLineToken.positionEnd tokenEnd |}.

(** The token of kind [kind] that merges the run from [tokenStart] to
    [tokenEnd]. *)
Definition mergedToken (kind : TokenKind) (text : jsstring)
    (tokenStart tokenEnd : FlatLineToken.t) : Token.t :=
  {| Token.kind := kind;
     Token.data :=
       substring text (codeUnit (FlatLineToken.positionStart tokenStart))
         (codeUnit (FlatLineToken.positionEnd tokenEnd));
     Token.positionStart := FlatLineToken.positionStart tokenStart;
     Token.positionEnd := FlatLineToken.positionEnd tokenEnd |}.

(** The variables of the loop of [factory] once the run of construct [c] from
    [tokenStart] to [tokenEnd], the flat token of index [j], is merged. *)
Definition afterMerge (c : Construct) (text : jsstring)
    (tokenStart tokenEnd : FlatLineToken.t) (j : nat) (v : FactoryVars)
    : FactoryVars :=
  match c with
  | MComment =>
      {| f_tokens := f_tokens v;
         f_comments := f_comments v ++ [mergedComment text tokenStart tokenEnd];
         f_flatIndex := S j |}
  | MQuotedIdentifier =>
      {| f_tokens := f_tokens v ++ [mergedToken Identifier text tokenStart tokenEnd];
         f_comments := f_comments v;
         f_flatIndex := S j |}
  | MTextLiteral =>
      {| f_tokens := f_tokens v ++ [mergedToken TextLiteral text tokenStart tokenEnd];
         f_comments := f_comments v;
         f_flatIndex := S j |}
  end.

(** Every flat token carries its own index in the array. *)
Definition indexed (flatTokens : list FlatLineToken.t) : Prop :=
  ∀ i t, flatTokens !! i = Some t → FlatLineToken.flatIndex t = i.

(** A flat token that starts and ends on the same line. *)
Definition singleLine (t : FlatLineToken.t) : Prop :=
  lineNumber (FlatLineToken.positionStart t) = lineNumber (FlatLineToken.positionEnd t).

(** The start token of construct [c] at index [i] is followed by tokens of the
    content kind only, up to the end of the stream. *)
Definition unterminatedAt (c : Construct) (flatTokens : list FlatLineToken.t)
    (i : nat) (tokenStart : FlatLineToken.t) : Prop :=
  flatTokens !! i = Some tokenStart
  ∧ FlatLineToken.kind tokenStart = startKind c
  ∧ Forall (λ t, FlatLineToken.kind t = contentKind c) (drop (S i) flatTokens).

(** The start token of construct [c] at index [i] is followed by tokens of the
    content kind up to index [j], which holds a token of the end kind. *)
Definition terminatedAt (c : Construct) (flatTokens : list FlatLineToken.t)
    (i j : nat) (tokenStart tokenEnd : FlatLineToken.t) : Prop :=
  flatTokens !! i = Some tokenStart
  ∧ FlatLineToken.kind tokenStart = startKind c
  ∧ (i < j)%nat
  ∧ (∀ k t, (i < k < j)%nat → flatTokens !! k = Some t →
            FlatLineToken.kind t = contentKind c)
  ∧ flatTokens !! j = Some tokenEnd
  ∧ FlatLineToken.kind tokenEnd = endKind c.

(** The turns of the loop of [factory]: [Reaches gpf fl v] when the loop,
    started on the flattened lines [fl], tests its condition with the
    variables [v]. *)
Inductive Reaches {G E : Type} (gpf : jsstring → Z → Z → Z → Completion E G)
    (fl : FlattenedLines.t) : FactoryVars → Prop :=
| reaches_start :
    Reaches gpf fl {| f_tokens := []; f_comments := []; f_flatIndex := 0 |}
| reaches_turn v flatToken v' :
    Reaches gpf fl v →
    FlattenedLines.flatLineTokens fl !! f_flatIndex v = Some flatToken →
    factoryCase gpf fl flatToken v = Returns v' →
    Reaches gpf fl {| f_tokens := f_tokens v'; f_comments := f_comments v';
                      f_flatIndex := S (f_flatIndex v') |}.

(** The call [c] is an [addChild] on [state]. *)
Definition addsChildTo (state : ParserContext.loc) (c : ParserContext.Call) : Prop :=
  match c with
  | ParserContext.CallAddChild state' _ _ _ => state' = state
  | _ => False
  end.

#[global] Instance addsChildTo_dec state c : Decision (addsChildTo state c).
Proof. destruct c; simpl; apply _. Defined.

(** The number of calls of [cs] that are an [addChild] on [state]. *)
Definition addChildCount (state : ParserContext.loc) (cs : list ParserContext.Call) : nat :=
  length (filter (addsChildTo state) cs).

(** [terminals] without the first occurrence of [nodeId]. *)
Definition removeFirst (nodeId : Z) (terminals : list Z) : list Z :=
  match indexOf terminals nodeId with
  | Some terminalIndex => removeAt terminals terminalIndex
  | None => terminals
  end.

(** References that name objects of the store: a state, a node and a node
    map whose references are within the store [σ]. *)
Definition wfState (σ : ParserContext.Store) (st : ParserContext.State) : Prop :=
  (ParserContext.root st < length (ParserContext.roots σ))%nat
  ∧ (ParserContext.nodesById st < length (ParserContext.maps σ))%nat
  ∧ (ParserContext.terminalNodeIds st < length (ParserContext.arrays σ))%nat.

Definition wfNode (σ : ParserContext.Store) (nd : ParserContext.Node) : Prop :=
  (ParserContext.childNodeIds nd < length (ParserContext.arrays σ))%nat
  ∧ ∀ a, ParserContext.maybeAstNode nd = Some a →
         (a < length (ParserContext.asts σ))%nat.

Definition wfMap (σ : ParserContext.Store) (m : gmap Z ParserContext.loc) : Prop :=
  ∀ k n, m !! k = Some n → (n < length (ParserContext.nodes σ))%nat.

(** A store without dangling references. *)
Definition wf (σ : ParserContext.Store) : Prop :=
  Forall (wfState σ) (ParserContext.states σ)
  ∧ Forall (wfNode σ) (ParserContext.nodes σ)
  ∧ Forall (wfMap σ) (ParserContext.maps σ).

(** The arguments of the call [c] name objects of the store [σ]. *)
Definition validCall (σ : ParserContext.Store) (c : ParserContext.Call) : Prop :=
  match c with
  | ParserContext.CallAddChild state maybeParent _ _ =>
      (state < length (ParserContext.states σ))%nat
      ∧ ∀ parent, maybeParent = Some parent →
                  (parent < length (ParserContext.nodes σ))%nat
  | ParserContext.CallEndContext state oldNode astNode =>
      (state < length (ParserContext.states σ))%nat
      ∧ (oldNode < length (ParserContext.nodes σ))%nat
      ∧ (astNode < length (ParserContext.asts σ))%nat
  | ParserContext.CallDeleteContext state node =>
      (state < length (ParserContext.states σ))%nat
      ∧ (node < length (ParserContext.nodes σ))%nat
  | ParserContext.CallDeepCopy state =>
      (state < length (ParserContext.states σ))%nat
  end.

(** The store [σ'] holds at least the objects of [σ]. *)
Definition grows (σ σ' : ParserContext.Store) : Prop :=
  (length (ParserContext.arrays σ) ≤ length (ParserContext.arrays σ'))%nat
  ∧ (length (ParserContext.asts σ) ≤ length (ParserContext.asts σ'))%nat
  ∧ (length (ParserContext.nodes σ) ≤ length (ParserContext.nodes σ'))%nat
  ∧ (length (ParserContext.maps σ) ≤ length (ParserContext.maps σ'))%nat
  ∧ (length (ParserContext.roots σ) ≤ length (ParserContext.roots σ'))%nat
  ∧ (length (ParserContext.states σ) ≤ length (ParserContext.states σ'))%nat.

(** The computation [m] runs on [σ], and what it leaves satisfies [Q]. *)
Definition runs {A} (m : ParserContext.M A)
    (Q : ParserContext.Store → ParserContext.Outcome A → Prop)
    (σ : ParserContext.Store) : Prop :=
  ∃ σ' out, m σ = Some (σ', out) ∧ Q σ' out.

(** ** Samples *)

(** An instance of [graphemePositionFrom] for the examples: the position is
    kept as the arguments of the call. *)
Definition graphemeArguments (text : jsstring) (lineCodeUnit lineNumber maybeCodeUnit : Z)
    : jsstring * Z * Z * Z :=
  (text, lineCodeUnit, lineNumber, maybeCodeUnit).

(** An instance of [graphemePositionFrom] that throws: it returns its
    arguments when the line code unit is the offset of a code unit of the
    text, and throws the text and the line code unit otherwise. *)
Definition graphemeWithin (text : jsstring) (lineCodeUnit lineNumber maybeCodeUnit : Z)
    : Completion (jsstring * Z) (jsstring * Z * Z * Z) :=
  if (0 <=? lineCodeUnit) && (lineCodeUnit <? strlen text)
  then Returns (text, lineCodeUnit, lineNumber, maybeCodeUnit)
  else Throws (text, lineCodeUnit).

(** An instance of [graphemePositionFrom] that always throws. *)
Definition graphemeThrows (text : jsstring) (lineCodeUnit lineNumber maybeCodeUnit : Z)
    : Completion (jsstring * Z) (jsstring * Z * Z * Z) :=
  Throws (text, lineCodeUnit).

Definition lineToken (kind : LineTokenKind) (data : string) (positionStart positionEnd : Z)
    : Lexer.LineToken.t :=
  {| Lexer.LineToken.kind := kind; Lexer.LineToken.data := str data;
     Lexer.LineToken.positionStart := positionStart;
     Lexer.LineToken.positionEnd := positionEnd |}.

Definition line (text lineTerminator : string) (tokens : list Lexer.LineToken.t)
    : Lexer.TLine.t :=
  {| Lexer.TLine.text := str text; Lexer.TLine.lineTerminator := str lineTerminator;
     Lexer.TLine.tokens := tokens |}.

(** The newline character, as a string. *)
Definition nl : string := String (ascii_of_nat 10) EmptyString.

(** One line ["a"] that ends in a newline. *)
Definition oneTerminatedLine : Lexer.State :=
  {| Lexer.lines := [line "a" nl []] |}.

(** The line ["a"] with an empty terminator, then an empty line. *)
Definition emptySecondLine : Lexer.State :=
  {| Lexer.lines := [line "a" "" []; line "" "" []] |}.

(** The double quote character, as a string. *)
Definition quote : string := String (ascii_of_nat 34) EmptyString.

(** Scenario A: a comment opened on the first line and closed on the second. *)
Definition scenarioA : Lexer.State :=
  {| Lexer.lines :=
       [ line "/*a" nl [lineToken MultilineCommentStart "/*" 0 2];
         line "b*/" "" [lineToken MultilineCommentEnd "b*/" 0 3] ] |}.

(** Scenario B: a text literal that is opened and never closed. *)
Definition scenarioB : Lexer.State :=
  {| Lexer.lines :=
       [ line (quote ++ "unterminated") ""
           [ lineToken TextLiteralStart quote 0 1;
             lineToken TextLiteralContent "unterminated" 1 13 ] ] |}.

(** A comment opened and not closed before a text literal is opened, which is
    not closed either. *)
Definition faultBeforeStart : Lexer.State :=
  {| Lexer.lines :=
       [ line ("/*" ++ quote ++ "x") ""
           [ lineToken MultilineCommentStart "/*" 0 2;
             lineToken TextLiteralStart quote 2 3;
             lineToken TextLiteralContent "x" 3 4 ] ] |}.

(** One line that holds a line comment. *)
Definition oneLineComment : Lexer.State :=
  {| Lexer.lines := [ line "// x" "" [lineToken LineComment "// x" 0 4] ] |}.

(** Three lines, ["abcde"], ["fg"] and ["hij"], and the table of their
    terminators. *)
Definition threeLinesText : jsstring :=
  str "abcde" ++ str nl ++ str "fg" ++ str nl ++ str "hij".

Definition threeLinesTable : list LineTerminator.t :=
  [ {| LineTerminator.codeUnit := 5; LineTerminator.text := str nl |};
    {| LineTerminator.codeUnit := 8; LineTerminator.text := str nl |} ].

(** The token ["fg"] of the second line. *)
Definition fgToken : Token.t :=
  {| Token.kind := Identifier; Token.data := str "fg";
     Token.positionStart := {| codeUnit := 6; lineCodeUnit := 0; lineNumber := 1 |};
     Token.positionEnd := {| codeUnit := 8; lineCodeUnit := 2; lineNumber := 1 |} |}.

(** A token whose start (offset 10, in the third line) lies past its end
    (offset 2, in the first line). *)
Definition backwardToken : Token.t :=
  {| Token.kind := Identifier; Token.data := [];
     Token.positionStart := {| codeUnit := 10; lineCodeUnit := 1; lineNumber := 2 |};
     Token.positionEnd := {| codeUnit := 2; lineCodeUnit := 2; lineNumber := 0 |} |}.


(** ** Definitions of further statements *)

(** The offset of the first code unit of line [n]: the lengths of the texts
    and of the terminators of the lines before it. *)
Fixpoint lineOffset (lines : list Lexer.TLine.t) (n : nat) : Z :=
  match n, lines with
  | S n', line :: rest =>
      strlen (Lexer.TLine.text line) + strlen (Lexer.TLine.lineTerminator line)
      + lineOffset rest n'
  | _, _ => 0
  end.


(** The flat token of the line token [lineToken], for a line of number
    [lineNumber] that starts at offset [lineTextOffset]. *)
Definition flatOf (lineTextOffset : Z) (lineNumber : nat) (flatIndex : nat)
    (lineToken : Lexer.LineToken.t) : FlatLineToken.t :=
  {| FlatLineToken.kind := Lexer.LineToken.kind lineToken;
     FlatLineToken.data := Lexer.LineToken.data lineToken;
     FlatLineToken.positionStart :=
       {| codeUnit := lineTextOffset + Lexer.LineToken.positionStart lineToken;
          lineCodeUnit := Lexer.LineToken.positionStart lineToken;
          lineNumber := Z.of_nat lineNumber |};
     FlatLineToken.positionEnd :=
       {| codeUnit := lineTextOffset + Lexer.LineToken.positionEnd lineToken;
          lineCodeUnit := Lexer.LineToken.positionEnd lineToken;
          lineNumber := Z.of_nat lineNumber |};
     FlatLineToken.flatIndex := flatIndex |}.

(** The flat tokens of [lines], the first of which has number [lineNumber],
    starts at offset [lineTextOffset] and gives the flat index [flatIndex] to
    its first token. *)
Fixpoint flatFrom (lineTextOffset : Z) (lineNumber flatIndex : nat)
    (lines : list Lexer.TLine.t) : list FlatLineToken.t :=
  match lines with
  | [] => []
  | line :: rest =>
      imap (λ k, flatOf lineTextOffset lineNumber (flatIndex + k))
        (Lexer.TLine.tokens line)
      ++ flatFrom
           (lineTextOffset + strlen (Lexer.TLine.text line)
            + strlen (Lexer.TLine.lineTerminator line))
           (S lineNumber) (flatIndex + length (Lexer.TLine.tokens line)) rest
  end.

(** The kinds that open a multiline token. *)
Definition startsMultiline (kind : LineTokenKind) : bool :=
  match kind with
  | MultilineCommentStart | QuotedIdentifierStart | TextLiteralStart => true
  | _ => false
  end.

(** The kinds that the loop of [factory] never copies into a token. *)
Definition neverToken (kind : TokenKind) : bool :=
  match kind with
  | LineComment | MultilineComment => true
  | _ => startsMultiline kind
  end.

(** The comment of a flat token that is a comment by itself. *)
Definition commentOf (flatToken : FlatLineToken.t) : option Comment.t :=
  match FlatLineToken.kind flatToken with
  | LineComment => Some (readLineComment flatToken)
  | MultilineComment => Some (readSingleLineMultilineComment flatToken)
  | _ => None
  end.

(** The token of a flat token that is a token by itself. *)
Definition tokenOf (flatToken : FlatLineToken.t) : option Token.t :=
  match FlatLineToken.kind flatToken with
  | LineComment | MultilineComment => None
  | kind =>
      Some {| Token.kind := kind;
              Token.data := FlatLineToken.data flatToken;
              Token.positionStart := FlatLineToken.positionStart flatToken;
              Token.positionEnd := FlatLineToken.positionEnd flatToken |}
  end.

(** The start token of construct [c] at index [i] is followed by tokens of the
    content kind up to index [j], which holds a token that is neither of the
    content kind nor of the end kind. *)
Definition mismatchedAt (c : Construct) (flatTokens : list FlatLineToken.t)
    (i j : nat) (tokenStart found : FlatLineToken.t) : Prop :=
  flatTokens !! i = Some tokenStart
  ∧ FlatLineToken.kind tokenStart = startKind c
  ∧ (i < j)%nat
  ∧ (∀ k t, (i < k < j)%nat → flatTokens !! k = Some t →
            FlatLineToken.kind t = contentKind c)
  ∧ flatTokens !! j = Some found
  ∧ FlatLineToken.kind found ≠ contentKind c
  ∧ FlatLineToken.kind found ≠ endKind c.

(** Two lines with tokens and comments that stand by themselves. *)
Definition mixedLines : Lexer.State :=
  {| Lexer.lines :=
       [ line "x // c" nl
           [ lineToken Identifier "x" 0 1; lineToken LineComment "// c" 2 6 ];
         line "/* d */ y" ""
           [ lineToken MultilineComment "/* d */" 0 7; lineToken Identifier "y" 8 9 ] ] |}.

(** What a throw of the switch tells about the flat tokens. *)
Definition thrownFor {G E : Type} (gpf : jsstring → Z → Z → Z → Completion E G)
    (fl : FlattenedLines.t) (e : LexException) : Prop :=
  match e with
  | UnterminatedMultilineTokenError position kind =>
      ∃ c i tokenStart,
        unterminatedAt c (FlattenedLines.flatLineTokens fl) i tokenStart
        ∧ kind = unterminatedKind c
        ∧ graphemePositionStartFrom gpf (FlattenedLines.text fl)
            (FlattenedLines.lineTerminators fl) (inr tokenStart)
          = Returns position
  | InvariantError found =>
      ∃ c i j tokenStart,
        mismatchedAt c (FlattenedLines.flatLineTokens fl) i j tokenStart found
  | GraphemeInvariantError thrown =>
      ∃ c i tokenStart,
        unterminatedAt c (FlattenedLines.flatLineTokens fl) i tokenStart
        ∧ graphemePositionStartFrom gpf (FlattenedLines.text fl)
            (FlattenedLines.lineTerminators fl) (inr tokenStart)
          = Throws thrown
  end.

(** A parent (node 0, id 1) and its child (node 1, id 2), which holds a
    terminal AST node and is listed as terminal. *)
Definition familyArena : ParserContext.Store :=
  {| ParserContext.arrays := [[2]; [2]; []];
     ParserContext.asts :=
       [ {| ParserContext.terminalNode := true; ParserContext.fragment := 7 |} ];
     ParserContext.nodes :=
       [ {| ParserContext.nodeId := 1; ParserContext.nodeKind := 0%nat;
            ParserContext.maybeTokenStart := None;
            ParserContext.maybeParentId := None;
            ParserContext.childNodeIds := 1%nat;
            ParserContext.maybeAstNode := None |};
         {| ParserContext.nodeId := 2; ParserContext.nodeKind := 0%nat;
            ParserContext.maybeTokenStart := None;
            ParserContext.maybeParentId := Some 1;
            ParserContext.childNodeIds := 2%nat;
            ParserContext.maybeAstNode := Some 0%nat |} ];
     ParserContext.maps := [ {[ 1 := 0%nat; 2 := 1%nat ]} ];
     ParserContext.roots := [None];
     ParserContext.states :=
       [ {| ParserContext.root := 0%nat; ParserContext.nodesById := 0%nat;
            ParserContext.terminalNodeIds := 0%nat;
            ParserContext.nodeIdCounter := 2 |} ] |}.

(** Calls on that arena: a second child of the parent, the end of the context
    of the first child, its deletion, and a copy of the arena. *)
Definition familyCalls : list ParserContext.Call :=
  [ ParserContext.CallAddChild 0%nat (Some 0%nat) 0%nat None;
    ParserContext.CallEndContext 0%nat 1%nat 0%nat;
    ParserContext.CallDeleteContext 0%nat 1%nat;
    ParserContext.CallDeepCopy 0%nat ].

(** The store that [empty()] builds, once the counter of its state holds
    [2 ^ 53]. *)
Definition saturatedArena : ParserContext.Store :=
  {| ParserContext.arrays := [[]]; ParserContext.asts := [];
     ParserContext.nodes := []; ParserContext.maps := [∅];
     ParserContext.roots := [None];
     ParserContext.states :=
       [ {| ParserContext.root := 0%nat; ParserContext.nodesById := 0%nat;
            ParserContext.terminalNodeIds := 0%nat;
            ParserContext.nodeIdCounter := 2 ^ 53 |} ] |}.

(** Two roots added to that arena. *)
Definition saturatedCalls : list ParserContext.Call :=
  [ ParserContext.CallAddChild 0%nat None 0%nat None;
    ParserContext.CallAddChild 0%nat None 0%nat None ].

(** A corrupted arena as [corruptedArena], where the id 2 is listed twice in
    the terminal ids, as two calls of [endContext] on node 1 leave it. *)
Definition duplicatedArena : ParserContext.Store :=
  {| ParserContext.arrays := [[2; 2]; []; []];
     ParserContext.asts := ParserContext.asts ParserContext.corruptedArena;
     ParserContext.nodes := ParserContext.nodes ParserContext.corruptedArena;
     ParserContext.maps := ParserContext.maps ParserContext.corruptedArena;
     ParserContext.roots := ParserContext.roots ParserContext.corruptedArena;
     ParserContext.states := ParserContext.states ParserContext.corruptedArena |}.

(** In the store [σ'], the node object [n'] is a copy of the node object [n]
    made after the store [σ]: a new node object with the same id, kind, token
    and parent id, the same array of child ids, and a new AST object with the
    fields of the old one when [n] has an AST node. *)
Definition copiedNode (σ σ' : ParserContext.Store) (n n' : ParserContext.loc) : Prop :=
  ∃ nd nd',
    ParserContext.nodes σ' !! n = Some nd
    ∧ ParserContext.nodes σ' !! n' = Some nd'
    ∧ (length (ParserContext.nodes σ) ≤ n')%nat
    ∧ ParserContext.nodeId nd' = ParserContext.nodeId nd
    ∧ ParserContext.nodeKind nd' = ParserContext.nodeKind nd
    ∧ ParserContext.maybeTokenStart nd' = ParserContext.maybeTokenStart nd
    ∧ ParserContext.maybeParentId nd' = ParserContext.maybeParentId nd
    ∧ ParserContext.childNodeIds nd' = ParserContext.childNodeIds nd
    ∧ match ParserContext.maybeAstNode nd, ParserContext.maybeAstNode nd' with
      | None, None => True
      | Some a, Some a' =>
          (length (ParserContext.asts σ) ≤ a')%nat
          ∧ is_Some (ParserContext.asts σ' !! a')
          ∧ ParserContext.asts σ' !! a' = ParserContext.asts σ' !! a
      | _, _ => False
      end.

(** A store as the functions of the arena alone leave it: every root holds
    nothing, every counter is at least 0, and every node map files ids above 0
    only. *)
Definition rootless (σ : ParserContext.Store) : Prop :=
  Forall (λ r : ParserContext.Root, r = None) (ParserContext.roots σ)
  ∧ Forall (λ st, 0 ≤ ParserContext.nodeIdCounter st) (ParserContext.states σ)
  ∧ Forall (λ m : gmap Z ParserContext.loc, ∀ k n, m !! k = Some n → 0 < k)
      (ParserContext.maps σ).

(** * Properties of the snapshot *)

(** ** Flattening *)

Lemma flattenLoop_text numLines lineNumber rest v :
  numLines = (lineNumber + length rest)%nat →
  v_text (flattenLoop numLines lineNumber rest v)
  = v_text v ++ textWithInnerTerminators rest.
Proof.
  revert lineNumber v.
  induction rest as [|l rest IH]; intros lineNumber v Hn; simpl.
  - by rewrite app_nil_r.
  - rewrite IH by (simpl in Hn; lia).
    unfold flattenLine.
    destruct (fold_left _ _ _) as [fl fi]; simpl.
    destruct rest as [|l' rest]; simpl in *.
    + rewrite app_nil_r.
      replace (Z.of_nat lineNumber =? Z.of_nat numLines - 1) with true; [done|].
      symmetry; apply Z.eqb_eq; lia.
    + replace (Z.of_nat lineNumber =? Z.of_nat numLines - 1) with false.
      * by rewrite <- !app_assoc.
      * symmetry; apply Z.eqb_neq; lia.
Qed.

Lemma flattenLineTokens_text state :
  FlattenedLines.text (flattenLineTokens state)
  = textWithInnerTerminators (Lexer.lines state).
Proof.
  unfold flattenLineTokens; simpl.
  by rewrite flattenLoop_text.
Qed.

(** The text with every terminator is the text of the snapshot followed by
    the terminator of the last line. *)
Lemma textWithAllTerminators_split lines :
  textWithAllTerminators lines
  = textWithInnerTerminators lines ++ lastTerminator lines.
Proof.
  unfold textWithAllTerminators, lastTerminator.
  induction lines as [|l [|l' rest] IH]; [done| |].
  - simpl. by rewrite app_nil_r.
  - change (concat (map _ (l :: l' :: rest)))
      with ((Lexer.TLine.text l ++ Lexer.TLine.lineTerminator l)
            ++ concat (map (λ line, Lexer.TLine.text line ++ Lexer.TLine.lineTerminator line)
                         (l' :: rest))).
    rewrite IH.
    change (last (l :: l' :: rest)) with (last (l' :: rest)).
    change (textWithInnerTerminators (l :: l' :: rest))
      with (Lexer.TLine.text l ++ Lexer.TLine.lineTerminator l
            ++ textWithInnerTerminators (l' :: rest)).
    by rewrite <- !app_assoc.
Qed.

Lemma flattenLoop_lineTerminators numLines lineNumber rest v :
  v_lineTerminators (flattenLoop numLines lineNumber rest v)
  = v_lineTerminators v ++ terminatorsFrom (v_lineTextOffset v) rest.
Proof.
  revert lineNumber v.
  induction rest as [|l rest IH]; intros lineNumber v; simpl.
  - by rewrite app_nil_r.
  - rewrite IH. unfold flattenLine.
    destruct (fold_left _ _ _) as [fl fi]; simpl.
    by rewrite <- app_assoc.
Qed.

Lemma flattenLineTokens_lineTerminators state :
  FlattenedLines.lineTerminators (flattenLineTokens state)
  = terminatorsFrom 0 (Lexer.lines state).
Proof.
  unfold flattenLineTokens; simpl.
  by rewrite flattenLoop_lineTerminators.
Qed.

(** Two neighbours of the table: the second lies past the first by the length
    of the first one's terminator and of the second one's line. *)
Lemma terminatorsFrom_step lines : ∀ offset i a b,
  terminatorsFrom offset lines !! i = Some a →
  terminatorsFrom offset lines !! S i = Some b →
  ∃ l, lines !! S i = Some l
     ∧ LineTerminator.codeUnit b
       = LineTerminator.codeUnit a + strlen (LineTerminator.text a)
         + strlen (Lexer.TLine.text l).
Proof.
  induction lines as [|l0 lines IH]; intros offset i a b Ha Hb; [done|].
  destruct i as [|i]; simpl in *.
  - destruct lines as [|l1 lines]; [done|]. simpl in *.
    injection Ha as <-. injection Hb as <-. simpl. eauto.
  - eapply IH; eauto.
Qed.

(** C5 (amended): the text of the flattened lines, and of every snapshot
    produced, is every line's text followed by that line's terminator, except
    that the terminator of the last line is left out; the concatenation with
    every terminator is that text followed by the last line's terminator. *)
Theorem snapshot_text_inner_terminators {G E} (gpf : jsstring → Z → Z → Z → Completion E G)
    (state : Lexer.State) (snapshot : LexerSnapshot.t) :
  tryFrom gpf state = Some (Ok snapshot) →
  LexerSnapshot.text snapshot = FlattenedLines.text (flattenLineTokens state)
  ∧ LexerSnapshot.text snapshot = textWithInnerTerminators (Lexer.lines state)
  ∧ textWithAllTerminators (Lexer.lines state)
    = LexerSnapshot.text snapshot ++ lastTerminator (Lexer.lines state).
Proof.
  intros Htry.
  assert (LexerSnapshot.text snapshot = FlattenedLines.text (flattenLineTokens state))
    as Htext.
  { unfold tryFrom, factory in Htry.
    destruct (factoryLoop _ _ _ _) as [[v|e]|]; simplify_eq; done. }
  rewrite Htext, flattenLineTokens_text.
  auto using textWithAllTerminators_split.
Qed.

Lemma snapshot_text_inner_terminators_witness :
  ∃ snapshot,
    tryFrom graphemeWithin oneTerminatedLine = Some (Ok snapshot)
    ∧ LexerSnapshot.text snapshot = str "a".
Proof.
  eexists. split; [reflexivity|].
  apply (snapshot_text_inner_terminators graphemeWithin oneTerminatedLine).
  reflexivity.
Defined.

(** C5 as stated fails: the one line ["a"] ending in a newline gives the
    snapshot text ["a"], not ["a\n"]. *)
Lemma snapshot_text_all_terminators_fails :
  ∃ snapshot,
    tryFrom graphemeWithin oneTerminatedLine = Some (Ok snapshot)
    ∧ LexerSnapshot.text snapshot = str "a"
    ∧ textWithAllTerminators (Lexer.lines oneTerminatedLine) = str "a" ++ str nl
    ∧ LexerSnapshot.text snapshot
      ≠ textWithAllTerminators (Lexer.lines oneTerminatedLine).
Proof.
  eexists. split; [reflexivity|]. repeat split; done.
Qed.

Lemma strlen_zero (s : jsstring) : strlen s = 0 ↔ s = [].
Proof.
  unfold strlen. destruct s; simpl; [done|]. split; [lia|done].
Qed.

Lemma strlen_nonneg (s : jsstring) : 0 ≤ strlen s.
Proof. unfold strlen. lia. Qed.

(** C8 (amended): in the table of line terminators produced by flattening,
    each entry's offset is at least the previous entry's offset, and exceeds it
    exactly when the previous terminator or the entry's own line is not
    empty. *)
Theorem lineTerminators_nondecreasing (state : Lexer.State) (i : nat)
    (a b : LineTerminator.t) :
  FlattenedLines.lineTerminators (flattenLineTokens state) !! i = Some a →
  FlattenedLines.lineTerminators (flattenLineTokens state) !! S i = Some b →
  LineTerminator.codeUnit a ≤ LineTerminator.codeUnit b
  ∧ ∃ l, Lexer.lines state !! S i = Some l
       ∧ (LineTerminator.codeUnit a < LineTerminator.codeUnit b
          ↔ LineTerminator.text a ≠ [] ∨ Lexer.TLine.text l ≠ []).
Proof.
  rewrite flattenLineTokens_lineTerminators. intros Ha Hb.
  destruct (terminatorsFrom_step _ _ _ _ _ Ha Hb) as (l & Hl & Heq).
  pose proof (strlen_nonneg (LineTerminator.text a)).
  pose proof (strlen_nonneg (Lexer.TLine.text l)).
  pose proof (strlen_zero (LineTerminator.text a)).
  pose proof (strlen_zero (Lexer.TLine.text l)).
  split; [lia|]. exists l. split; [done|].
  split.
  - intros Hlt.
    destruct (decide (strlen (LineTerminator.text a) = 0)); [right|left]; intuition lia.
  - intros [Hne|Hne]; [assert (strlen (LineTerminator.text a) ≠ 0) by tauto
                      | assert (strlen (Lexer.TLine.text l) ≠ 0) by tauto]; lia.
Qed.

Lemma lineTerminators_nondecreasing_witness :
  ∃ a b,
    FlattenedLines.lineTerminators (flattenLineTokens emptySecondLine) !! 0%nat = Some a
    ∧ FlattenedLines.lineTerminators (flattenLineTokens emptySecondLine) !! 1%nat = Some b
    ∧ LineTerminator.codeUnit a ≤ LineTerminator.codeUnit b.
Proof.
  eexists _, _. split; [reflexivity|]. split; [reflexivity|].
  eapply (proj1 (lineTerminators_nondecreasing emptySecondLine 0 _ _ eq_refl eq_refl)).
Defined.

(** C8 as stated fails: after a line ["a"] with an empty terminator, an empty
    line has its terminator at the same offset 1. *)
Lemma lineTerminators_not_strict :
  ∃ a b,
    FlattenedLines.lineTerminators (flattenLineTokens emptySecondLine) !! 0%nat = Some a
    ∧ FlattenedLines.lineTerminators (flattenLineTokens emptySecondLine) !! 1%nat = Some b
    ∧ LineTerminator.codeUnit a = 1
    ∧ LineTerminator.codeUnit b = 1
    ∧ ¬ LineTerminator.codeUnit a < LineTerminator.codeUnit b.
Proof.
  eexists _, _. split; [reflexivity|]. split; [reflexivity|].
  vm_compute. repeat split; congruence.
Qed.

(** ** The window of a position *)

Lemma substringWindow_scan lineTerminators startCodeUnit endCodeUnit : ∀ start0 end0,
  substringWindow lineTerminators startCodeUnit endCodeUnit start0 end0
  = (from_option terminatorEnd start0
       (last (filter (λ lt, LineTerminator.codeUnit lt < startCodeUnit)
                (scanned lineTerminators endCodeUnit))),
     from_option terminatorEnd end0
       (head (filter (λ lt, endCodeUnit ≤ LineTerminator.codeUnit lt) lineTerminators))).
Proof.
  induction lineTerminators as [|lt rest IH]; intros start0 end0; [done|].
  simpl. rewrite Z.geb_leb.
  destruct (decide (endCodeUnit ≤ LineTerminator.codeUnit lt)) as [Hge|Hge].
  - rewrite (proj2 (Z.leb_le _ _) Hge).
    rewrite (filter_cons_True (λ lt, endCodeUnit ≤ LineTerminator.codeUnit lt)) by done.
    simpl. f_equal.
    destruct (decide (LineTerminator.codeUnit lt < startCodeUnit)) as [Hlt|Hlt].
    + rewrite (proj2 (Z.ltb_lt _ _) Hlt).
      by rewrite (filter_cons_True (λ lt, LineTerminator.codeUnit lt < startCodeUnit)).
    + rewrite (proj2 (Z.ltb_nlt _ _) Hlt).
      by rewrite (filter_cons_False (λ lt, LineTerminator.codeUnit lt < startCodeUnit)).
  - rewrite (proj2 (Z.leb_nle _ _) Hge).
    rewrite (filter_cons_False (λ lt, endCodeUnit ≤ LineTerminator.codeUnit lt)) by done.
    rewrite IH. f_equal.
    destruct (decide (LineTerminator.codeUnit lt < startCodeUnit)) as [Hlt|Hlt].
    + rewrite (proj2 (Z.ltb_lt _ _) Hlt).
      rewrite (filter_cons_True (λ lt, LineTerminator.codeUnit lt < startCodeUnit)) by done.
      rewrite last_cons. by destruct (last _).
    + rewrite (proj2 (Z.ltb_nlt _ _) Hlt).
      by rewrite (filter_cons_False (λ lt, LineTerminator.codeUnit lt < startCodeUnit)).
Qed.

Lemma filter_none {A} (P : A → Prop) `{!∀ x, Decision (P x)} (l : list A) :
  Forall (λ x, ¬ P x) l → filter P l = [].
Proof.
  induction 1 as [|x l Hx _ IH]; [done|].
  by rewrite filter_cons_False.
Qed.

Lemma ordered_cons lt rest :
  ordered (lt :: rest) →
  ordered rest
  ∧ Forall (λ x, LineTerminator.codeUnit lt ≤ LineTerminator.codeUnit x) rest.
Proof.
  intros Hord. split.
  - intros i j a b Hij Ha Hb. apply (Hord (S i) (S j) a b); [lia|done..].
  - apply Forall_lookup. intros j b Hb.
    apply (Hord 0%nat (S j) lt b); [lia|done..].
Qed.

(** On a table ordered by offset and for a span whose start does not exceed
    its end, no terminator past the scan lies before the start. *)
Lemma windowStart_scanned lineTerminators startCodeUnit endCodeUnit :
  ordered lineTerminators → startCodeUnit ≤ endCodeUnit →
  windowStart (scanned lineTerminators endCodeUnit) startCodeUnit
  = windowStart lineTerminators startCodeUnit.
Proof.
  intros Hord Hse. unfold windowStart. do 2 f_equal.
  induction lineTerminators as [|lt rest IH]; [done|].
  apply ordered_cons in Hord as [Hrest Hall]. simpl.
  destruct (decide (endCodeUnit ≤ LineTerminator.codeUnit lt)) as [Hge|Hge].
  - assert (filter (λ lt, LineTerminator.codeUnit lt < startCodeUnit) rest = [])
      as Hnil.
    { apply filter_none. eapply Forall_impl; [exact Hall|].
      intros x Hx. simpl in *. lia. }
    destruct (decide (LineTerminator.codeUnit lt < startCodeUnit)).
    + rewrite !(filter_cons_True (λ lt, LineTerminator.codeUnit lt < startCodeUnit))
        by done.
      by rewrite Hnil.
    + rewrite !(filter_cons_False (λ lt, LineTerminator.codeUnit lt < startCodeUnit))
        by done.
      by rewrite Hnil.
  - destruct (decide (LineTerminator.codeUnit lt < startCodeUnit)).
    + rewrite !(filter_cons_True (λ lt, LineTerminator.codeUnit lt < startCodeUnit))
        by done.
      f_equal. by apply IH.
    + rewrite !(filter_cons_False (λ lt, LineTerminator.codeUnit lt < startCodeUnit))
        by done.
      by apply IH.
Qed.

(** C6 (amended): the position is computed over the window of the text that
    starts just past the last line terminator strictly before the token's
    start among the terminators scanned (those up to and including the first
    one at or after the token's end; 0 when there is none), and that ends at
    the end of the first line terminator at or after the token's end (the
    length of the text when there is none).  On a table ordered by offset and
    for a token whose start does not exceed its end, the scanned terminators
    can be replaced by the whole table. *)
Theorem graphemePositionStartFrom_window {G} (gpf : jsstring → Z → Z → Z → G)
    (text : jsstring) (lineTerminators : list LineTerminator.t)
    (token : Token.t + FlatLineToken.t) :
  let startCodeUnit := codeUnit (positionStartOf token) in
  let endCodeUnit := codeUnit (positionEndOf token) in
  graphemePositionStartFrom gpf text lineTerminators token
  = gpf (substring text
           (windowStart (scanned lineTerminators endCodeUnit) startCodeUnit)
           (windowEnd text lineTerminators endCodeUnit))
        (lineCodeUnit (positionStartOf token))
        (lineNumber (positionStartOf token))
        endCodeUnit
  ∧ (ordered lineTerminators → startCodeUnit ≤ endCodeUnit →
     graphemePositionStartFrom gpf text lineTerminators token
     = gpf (substring text
              (windowStart lineTerminators startCodeUnit)
              (windowEnd text lineTerminators endCodeUnit))
           (lineCodeUnit (positionStartOf token))
           (lineNumber (positionStartOf token))
           endCodeUnit).
Proof.
  intros startCodeUnit endCodeUnit.
  assert (graphemePositionStartFrom gpf text lineTerminators token
          = gpf (substring text
                   (windowStart (scanned lineTerminators endCodeUnit) startCodeUnit)
                   (windowEnd text lineTerminators endCodeUnit))
                (lineCodeUnit (positionStartOf token))
                (lineNumber (positionStartOf token))
                endCodeUnit) as Hscan.
  { unfold graphemePositionStartFrom. by rewrite substringWindow_scan. }
  split; [done|].
  intros Hord Hse. rewrite Hscan. by rewrite windowStart_scanned.
Qed.

Lemma threeLinesTable_ordered : ordered threeLinesTable.
Proof.
  intros i j a b Hij Ha Hb.
  destruct i as [|[|i]], j as [|[|j]]; simpl in *; simplify_eq; simpl; lia.
Qed.

Lemma graphemePositionStartFrom_window_witness :
  ordered threeLinesTable
  ∧ codeUnit (Token.positionStart fgToken) ≤ codeUnit (Token.positionEnd fgToken)
  ∧ graphemePositionStartFrom graphemeArguments threeLinesText threeLinesTable
      (inl fgToken)
    = (str "fg" ++ str nl, 0, 1, 8).
Proof.
  split; [exact threeLinesTable_ordered|]. split; [simpl; lia|].
  rewrite (proj2 (graphemePositionStartFrom_window graphemeArguments threeLinesText
                    threeLinesTable (inl fgToken)) threeLinesTable_ordered).
  - reflexivity.
  - simpl; lia.
Defined.

(** C6 as stated fails: for the token that starts at offset 10 and ends at
    offset 2, the scan stops at the terminator of offset 5, so the window
    starts at 6 and is empty; the last terminator of the table strictly before
    offset 10 is the one of offset 8, which would start the window at 9. *)
Lemma graphemePositionStartFrom_window_whole_table_fails :
  graphemePositionStartFrom graphemeArguments threeLinesText threeLinesTable
    (inl backwardToken)
  = ([], 1, 2, 2)
  ∧ windowStart threeLinesTable 10 = 9
  ∧ windowEnd threeLinesText threeLinesTable 2 = 6
  ∧ graphemeArguments
      (substring threeLinesText (windowStart threeLinesTable 10)
         (windowEnd threeLinesText threeLinesTable 2)) 1 2 2
    = (str "fg" ++ str nl, 1, 2, 2)
  ∧ graphemePositionStartFrom graphemeArguments threeLinesText threeLinesTable
      (inl backwardToken)
    ≠ graphemeArguments
        (substring threeLinesText (windowStart threeLinesTable 10)
           (windowEnd threeLinesText threeLinesTable 2)) 1 2 2.
Proof. repeat split; try reflexivity. vm_compute. congruence. Qed.

(** ** Substrings *)

(** Within the string, [substring] is the run of code units from the first
    offset to the second. *)
Lemma substring_within (s : jsstring) (a b : Z) :
  0 ≤ a ≤ b → b ≤ strlen s →
  substring s a b = take (Z.to_nat (b - a)) (drop (Z.to_nat a) s).
Proof.
  unfold substring, clamp, strlen. intros Hab Hb.
  rewrite (Nat.min_l (Z.to_nat a)) by lia.
  rewrite (Nat.min_l (Z.to_nat b)) by lia.
  rewrite Nat.min_l, Nat.max_r by lia.
  f_equal. lia.
Qed.

(** ** The flat tokens *)

Lemma Kind_eqb_eq (a b : Kind) : Kind_eqb a b = true ↔ a = b.
Proof.
  destruct a, b; simpl; split; try done.
  - intros H%Nat.eqb_eq. by subst.
  - intros [= ->]. apply Nat.eqb_refl.
Qed.

Lemma Kind_eqb_neq (a b : Kind) : Kind_eqb a b = false ↔ a ≠ b.
Proof.
  rewrite <- Kind_eqb_eq. destruct (Kind_eqb a b); split; congruence.
Qed.

Lemma pushLineToken_fold lineTextOffset lineNumber lineTokens : ∀ flatTokens n,
  n = length flatTokens → indexed flatTokens → Forall singleLine flatTokens →
  ∃ flatTokens',
    fold_left (pushLineToken lineTextOffset lineNumber) lineTokens (flatTokens, n)
    = (flatTokens', length flatTokens')
    ∧ indexed flatTokens' ∧ Forall singleLine flatTokens'.
Proof.
  induction lineTokens as [|tok lineTokens IH]; intros flatTokens n -> Hidx Hone; simpl.
  - eauto.
  - apply IH.
    + rewrite length_app. simpl. lia.
    + intros i t Hi. apply lookup_app_Some in Hi as [Hi|[Hlen Hi]]; [by apply Hidx|].
      apply list_lookup_singleton_Some in Hi as [Hi <-]. simpl. lia.
    + apply Forall_app. split; [done|]. by repeat constructor.
Qed.

Lemma flattenLoop_flatTokens numLines rest : ∀ lineNumber v,
  v_flatIndex v = length (v_flatLineTokens v) →
  indexed (v_flatLineTokens v) → Forall singleLine (v_flatLineTokens v) →
  indexed (v_flatLineTokens (flattenLoop numLines lineNumber rest v))
  ∧ Forall singleLine (v_flatLineTokens (flattenLoop numLines lineNumber rest v)).
Proof.
  induction rest as [|l rest IH]; intros lineNumber v Hn Hidx Hone; simpl; [done|].
  unfold flattenLine.
  destruct (pushLineToken_fold (v_lineTextOffset v) lineNumber (Lexer.TLine.tokens l)
              (v_flatLineTokens v) (v_flatIndex v) Hn Hidx Hone)
    as (fl' & -> & Hidx' & Hone').
  by apply IH.
Qed.

Lemma flattenLineTokens_indexed state :
  indexed (FlattenedLines.flatLineTokens (flattenLineTokens state)).
Proof.
  unfold flattenLineTokens; simpl.
  apply flattenLoop_flatTokens; simpl; [done| |done].
  intros i t Hi. by rewrite lookup_nil in Hi.
Qed.

Lemma flattenLineTokens_singleLine state :
  Forall singleLine (FlattenedLines.flatLineTokens (flattenLineTokens state)).
Proof.
  unfold flattenLineTokens; simpl.
  apply flattenLoop_flatTokens; simpl; [done| |done].
  intros i t Hi. by rewrite lookup_nil in Hi.
Qed.

(** ** Collecting the content of a multiline token *)

Lemma collectLoop_ge contentKind rest : ∀ flatIndex collected,
  (flatIndex ≤ (collectLoop rest contentKind flatIndex collected).2)%nat.
Proof.
  induction rest as [|t rest IH]; intros flatIndex collected; simpl; [done|].
  destruct (negb _); simpl; [done|].
  etrans; [|apply IH]. lia.
Qed.

Lemma collectLoop_stop contentKind n : ∀ rest flatIndex collected tokenEnd,
  (∀ k t, (k < n)%nat → rest !! k = Some t → FlatLineToken.kind t = contentKind) →
  rest !! n = Some tokenEnd →
  FlatLineToken.kind tokenEnd ≠ contentKind →
  (collectLoop rest contentKind flatIndex collected).2 = (flatIndex + n)%nat.
Proof.
  induction n as [|n IH]; intros rest flatIndex collected tokenEnd Hrun Hend Hkind.
  - destruct rest as [|t rest]; [done|]. simpl in Hend. simplify_eq. simpl.
    rewrite (proj2 (Kind_eqb_neq _ _) Hkind). simpl. lia.
  - destruct rest as [|t rest]; [done|]. simpl.
    rewrite (proj2 (Kind_eqb_eq _ _) (Hrun 0%nat t ltac:(lia) eq_refl)). simpl.
    rewrite (IH rest (S flatIndex) _ tokenEnd); [lia| |done..].
    intros k t' Hk Ht'. apply (Hrun (S k) t'); [lia|done].
Qed.

Lemma collectLoop_all contentKind rest : ∀ flatIndex collected,
  Forall (λ t, FlatLineToken.kind t = contentKind) rest →
  (collectLoop rest contentKind flatIndex collected).2 = (flatIndex + length rest)%nat.
Proof.
  induction rest as [|t rest IH]; intros flatIndex collected Hall; simpl; [lia|].
  apply Forall_cons in Hall as [Ht Hall].
  rewrite (proj2 (Kind_eqb_eq _ _) Ht). simpl.
  rewrite IH by done. lia.
Qed.

Lemma contentKind_not_endKind c : endKind c ≠ contentKind c.
Proof. by destruct c. Qed.

(** A terminated run: the collection stops at the end token. *)
Lemma collectWhileContent_terminated c flatTokens i j tokenStart tokenEnd :
  indexed flatTokens →
  terminatedAt c flatTokens i j tokenStart tokenEnd →
  FlatLineCollection.maybeTokenEnd
    (collectWhileContent flatTokens tokenStart (contentKind c)) = Some tokenEnd.
Proof.
  intros Hidx (Hi & Hstart & Hij & Hrun & Hj & Hend).
  unfold collectWhileContent. rewrite (Hidx _ _ Hi).
  pose proof (collectLoop_stop (contentKind c) (j - S i) (drop (S i) flatTokens)
                (S i) [] tokenEnd) as Hstop.
  destruct (collectLoop _ _ _ _) as [collected flatIndex]. simpl in *.
  rewrite Hstop.
  - by replace (S (i + (j - S i))) with j by lia.
  - intros k t Hk Ht. rewrite lookup_drop in Ht.
    apply (Hrun (S i + k)%nat t); [lia|done].
  - rewrite lookup_drop. by replace (S i + (j - S i))%nat with j by lia.
  - rewrite Hend. apply contentKind_not_endKind.
Qed.

(** An unterminated run: the collection runs off the end of the stream. *)
Lemma collectWhileContent_unterminated c flatTokens i tokenStart :
  indexed flatTokens →
  unterminatedAt c flatTokens i tokenStart →
  FlatLineCollection.maybeTokenEnd
    (collectWhileContent flatTokens tokenStart (contentKind c)) = None.
Proof.
  intros Hidx (Hi & Hstart & Hall).
  unfold collectWhileContent. rewrite (Hidx _ _ Hi).
  pose proof (collectLoop_all (contentKind c) (drop (S i) flatTokens) (S i) [] Hall)
    as Hrun.
  destruct (collectLoop _ _ _ _) as [collected flatIndex]. simpl in *.
  apply lookup_ge_None. rewrite Hrun, length_drop.
  apply lookup_lt_Some in Hi. lia.
Qed.

(** Whatever the collection finds lies past the start token. *)
Lemma collectWhileContent_index flatTokens tokenStart contentKind tokenEnd :
  indexed flatTokens →
  FlatLineCollection.maybeTokenEnd
    (collectWhileContent flatTokens tokenStart contentKind) = Some tokenEnd →
  (FlatLineToken.flatIndex tokenStart < FlatLineToken.flatIndex tokenEnd)%nat.
Proof.
  intros Hidx. unfold collectWhileContent.
  pose proof (collectLoop_ge contentKind
                (drop (S (FlatLineToken.flatIndex tokenStart)) flatTokens)
                (S (FlatLineToken.flatIndex tokenStart)) []) as Hge.
  destruct (collectLoop _ _ _ _) as [collected flatIndex]. simpl in *.
  intros Hend. rewrite (Hidx _ _ Hend). lia.
Qed.

(** ** The loop of [factory] *)

Section Factory.

Context {G E : Type} (gpf : jsstring → Z → Z → Z → Completion E G).
Context (fl : FlattenedLines.t).
Context (Hindexed : indexed (FlattenedLines.flatLineTokens fl)).

Lemma factoryLoop_turn fuel v flatToken v' :
  FlattenedLines.flatLineTokens fl !! f_flatIndex v = Some flatToken →
  factoryCase gpf fl flatToken v = Returns v' →
  factoryLoop gpf (S fuel) fl v
  = factoryLoop gpf fuel fl
      {| f_tokens := f_tokens v'; f_comments := f_comments v';
         f_flatIndex := S (f_flatIndex v') |}.
Proof. intros Hlook Hcase. simpl. by rewrite Hlook, Hcase. Qed.

Lemma factoryLoop_throw fuel v flatToken e :
  FlattenedLines.flatLineTokens fl !! f_flatIndex v = Some flatToken →
  factoryCase gpf fl flatToken v = Throws e →
  factoryLoop gpf (S fuel) fl v = Some (Throws e).
Proof. intros Hlook Hcase. simpl. by rewrite Hlook, Hcase. Qed.

(** The switch never moves the index backwards. *)
Lemma factoryCase_index flatToken v v' :
  FlattenedLines.flatLineTokens fl !! f_flatIndex v = Some flatToken →
  factoryCase gpf fl flatToken v = Returns v' →
  (f_flatIndex v ≤ f_flatIndex v')%nat.
Proof using Hindexed.
  intros Hlook. pose proof (Hindexed _ _ Hlook) as Hflat.
  unfold factoryCase, readMultilineComment, readQuotedIdentifier, readTextLiteral.
  destruct (FlatLineToken.kind flatToken);
    try (intros [= <-]; simpl; lia);
    (destruct (FlatLineCollection.maybeTokenEnd _) as [tokenEnd|] eqn:Hend;
       [|by destruct (graphemePositionStartFrom _ _ _ _)];
     destruct (negb _); [done|];
     intros [= <-]; simpl;
     apply collectWhileContent_index in Hend; [lia|done]).
Qed.

(** The loop returns or throws within one test of its condition per flat
    token left, and one more. *)
Lemma factoryLoop_total fuel : ∀ v,
  (length (FlattenedLines.flatLineTokens fl) ≤ fuel + f_flatIndex v)%nat →
  is_Some (factoryLoop gpf (S fuel) fl v).
Proof using Hindexed.
  induction fuel as [|fuel IH]; intros v Hlen.
  - simpl. rewrite (proj2 (lookup_ge_None _ _)) by (simpl in Hlen; lia). eauto.
  - change (factoryLoop gpf (S (S fuel)) fl v)
      with (match FlattenedLines.flatLineTokens fl !! f_flatIndex v with
            | None => Some (Returns v)
            | Some flatToken =>
                match factoryCase gpf fl flatToken v with
                | Throws e => Some (Throws e)
                | Returns v' =>
                    factoryLoop gpf (S fuel) fl
                      {| f_tokens := f_tokens v'; f_comments := f_comments v';
                         f_flatIndex := S (f_flatIndex v') |}
                end
            end).
    destruct (FlattenedLines.flatLineTokens fl !! f_flatIndex v)
      as [flatToken|] eqn:Hlook; [|eauto].
    destruct (factoryCase gpf fl flatToken v) as [v'|e] eqn:Hcase; [|eauto].
    apply IH. simpl.
    pose proof (factoryCase_index _ _ _ Hlook Hcase). lia.
Qed.

(** More fuel does not change a result. *)
Lemma factoryLoop_mono fuel : ∀ fuel' v r,
  factoryLoop gpf fuel fl v = Some r → (fuel ≤ fuel')%nat →
  factoryLoop gpf fuel' fl v = Some r.
Proof.
  induction fuel as [|fuel IH]; intros fuel' v r Hrun Hle; [done|].
  destruct fuel' as [|fuel']; [lia|]. simpl in *.
  destruct (FlattenedLines.flatLineTokens fl !! f_flatIndex v); [|done].
  destruct (factoryCase gpf fl _ v); [|done].
  apply IH; [done|lia].
Qed.

(** A result obtained from variables the loop reaches is the result of the
    loop. *)
Lemma Reaches_result v : Reaches gpf fl v → ∀ fuel r,
  factoryLoop gpf fuel fl v = Some r →
  factoryLoop gpf (S (length (FlattenedLines.flatLineTokens fl))) fl
    {| f_tokens := []; f_comments := []; f_flatIndex := 0 |} = Some r.
Proof using Hindexed.
  induction 1 as [|v flatToken v' Hreach IH Hlook Hcase]; intros fuel r Hrun.
  - destruct (factoryLoop_total (length (FlattenedLines.flatLineTokens fl))
                {| f_tokens := []; f_comments := []; f_flatIndex := 0 |})
      as [r' Hr']; [simpl; lia|].
    rewrite Hr'. f_equal.
    pose proof (factoryLoop_mono _ (fuel + S (length (FlattenedLines.flatLineTokens fl)))
                  _ _ Hrun ltac:(lia)) as H1.
    pose proof (factoryLoop_mono _ (fuel + S (length (FlattenedLines.flatLineTokens fl)))
                  _ _ Hr' ltac:(lia)) as H2.
    congruence.
  - apply (IH (S fuel)). by rewrite (factoryLoop_turn _ _ _ _ Hlook Hcase).
Qed.

(** On the start token of a terminated run, the switch merges the run. *)
Lemma factoryCase_terminated c i j tokenStart tokenEnd v :
  terminatedAt c (FlattenedLines.flatLineTokens fl) i j tokenStart tokenEnd →
  ∃ v', factoryCase gpf fl tokenStart v = Returns v'
      ∧ {| f_tokens := f_tokens v'; f_comments := f_comments v';
           f_flatIndex := S (f_flatIndex v') |}
        = afterMerge c (FlattenedLines.text fl) tokenStart tokenEnd j v.
Proof using Hindexed.
  intros Hrun.
  pose proof (collectWhileContent_terminated _ _ _ _ _ _ Hindexed Hrun) as Hend.
  destruct Hrun as (Hi & Hstart & Hij & Hrun & Hj & Hkind).
  pose proof (Hindexed _ _ Hj) as Hflat.
  unfold factoryCase, readMultilineComment, readQuotedIdentifier, readTextLiteral.
  rewrite Hstart.
  destruct c; simpl in *; rewrite Hend, Hkind; simpl;
    eexists; (split; [reflexivity|]); simpl; rewrite Hflat;
    unfold mergedComment, mergedToken; repeat f_equal.
  destruct (decide (lineNumber (FlatLineToken.positionStart tokenStart)
                    = lineNumber (FlatLineToken.positionEnd tokenEnd))) as [Heq|Hne].
  - rewrite Heq, Z.eqb_refl. simpl. by rewrite bool_decide_eq_false_2 by tauto.
  - rewrite (proj2 (Z.eqb_neq _ _) Hne). simpl. by rewrite bool_decide_eq_true_2.
Qed.

(** On the start token of an unterminated run, the switch throws. *)
Lemma factoryCase_unterminated c i tokenStart v :
  unterminatedAt c (FlattenedLines.flatLineTokens fl) i tokenStart →
  factoryCase gpf fl tokenStart v
  = Throws
      match graphemePositionStartFrom gpf (FlattenedLines.text fl)
              (FlattenedLines.lineTerminators fl) (inr tokenStart) with
      | Returns position =>
          UnterminatedMultilineTokenError position (unterminatedKind c)
      | Throws thrown => GraphemeInvariantError thrown
      end.
Proof using Hindexed.
  intros Hrun.
  pose proof (collectWhileContent_unterminated _ _ _ _ Hindexed Hrun) as Hend.
  destruct Hrun as (Hi & Hstart & Hall).
  unfold factoryCase, readMultilineComment, readQuotedIdentifier, readTextLiteral.
  rewrite Hstart.
  destruct c; simpl in *; rewrite Hend;
    by destruct (graphemePositionStartFrom _ _ _ _).
Qed.

(** On the start token of a terminated run, the function that reads the
    construct returns the merged comment or token, and the index of the end
    token. *)
Lemma read_terminated c i j tokenStart tokenEnd :
  terminatedAt c (FlattenedLines.flatLineTokens fl) i j tokenStart tokenEnd →
  match c with
  | MComment =>
      readMultilineComment gpf fl tokenStart
      = Returns
          {| ConcatenatedCommentRead.comment :=
               mergedComment (FlattenedLines.text fl) tokenStart tokenEnd;
             ConcatenatedCommentRead.flatIndexEnd := j |}
  | MQuotedIdentifier =>
      readQuotedIdentifier gpf fl tokenStart
      = Returns
          {| ConcatenatedTokenRead.token :=
               mergedToken Identifier (FlattenedLines.text fl) tokenStart tokenEnd;
             ConcatenatedTokenRead.flatIndexEnd := j |}
  | MTextLiteral =>
      readTextLiteral gpf fl tokenStart
      = Returns
          {| ConcatenatedTokenRead.token :=
               mergedToken TextLiteral (FlattenedLines.text fl) tokenStart tokenEnd;
             ConcatenatedTokenRead.flatIndexEnd := j |}
  end.
Proof using Hindexed.
  intros Hrun.
  pose proof (collectWhileContent_terminated _ _ _ _ _ _ Hindexed Hrun) as Hend.
  destruct Hrun as (Hi & Hstart & Hij & Hrun & Hj & Hkind).
  pose proof (Hindexed _ _ Hj) as Hflat.
  unfold readMultilineComment, readQuotedIdentifier, readTextLiteral.
  destruct c; simpl in *; rewrite Hend, Hkind; simpl; rewrite Hflat;
    unfold mergedComment, mergedToken; repeat f_equal.
  destruct (decide (lineNumber (FlatLineToken.positionStart tokenStart)
                    = lineNumber (FlatLineToken.positionEnd tokenEnd))) as [Heq|Hne].
  - rewrite Heq, Z.eqb_refl. simpl. by rewrite bool_decide_eq_false_2 by tauto.
  - rewrite (proj2 (Z.eqb_neq _ _) Hne). simpl. by rewrite bool_decide_eq_true_2.
Qed.

(** A turn of the loop only appends to the tokens and to the comments. *)
Lemma factoryCase_extends flatToken v v' :
  factoryCase gpf fl flatToken v = Returns v' →
  f_tokens v `prefix_of` f_tokens v' ∧ f_comments v `prefix_of` f_comments v'.
Proof.
  unfold factoryCase, readMultilineComment, readQuotedIdentifier, readTextLiteral.
  destruct (FlatLineToken.kind flatToken);
    first [ intros [= <-]
          | destruct (FlatLineCollection.maybeTokenEnd _);
              [|by destruct (graphemePositionStartFrom _ _ _ _)];
            destruct (negb _); [done|]; intros [= <-] ];
    simpl; split; done || by apply prefix_app_r.
Qed.

Lemma factoryLoop_extends fuel : ∀ v r,
  factoryLoop gpf fuel fl v = Some (Returns r) →
  f_tokens v `prefix_of` f_tokens r ∧ f_comments v `prefix_of` f_comments r.
Proof.
  induction fuel as [|fuel IH]; intros v r Hloop; [done|].
  simpl in Hloop.
  destruct (FlattenedLines.flatLineTokens fl !! f_flatIndex v) as [flatToken|];
    [|by simplify_eq].
  destruct (factoryCase gpf fl flatToken v) as [v'|e] eqn:Hcase; [|done].
  apply factoryCase_extends in Hcase as [Htokens Hcomments].
  apply IH in Hloop as [Htokens' Hcomments']. simpl in *.
  split; by etrans.
Qed.

(** The snapshot that the loop builds from variables it reaches is the
    snapshot of [factory]. *)
Lemma Reaches_snapshot v fuel r :
  Reaches gpf fl v →
  (length (FlattenedLines.flatLineTokens fl) ≤ fuel + f_flatIndex v)%nat →
  factoryLoop gpf (S (length (FlattenedLines.flatLineTokens fl))) fl
    {| f_tokens := []; f_comments := []; f_flatIndex := 0 |} = Some r →
  factoryLoop gpf (S fuel) fl v = Some r.
Proof using Hindexed.
  intros Hreach Hfuel Hloop.
  destruct (factoryLoop_total fuel v Hfuel) as [r' Hr'].
  rewrite Hr'. f_equal.
  pose proof (Reaches_result v Hreach _ _ Hr') as Hsame. congruence.
Qed.

End Factory.

(** [factory] and [tryFrom] return or fail for every state: the bound on the
    turns of the loop is never reached. *)
Lemma factory_terminates {G E} (gpf : jsstring → Z → Z → Z → Completion E G)
    (state : Lexer.State) :
  is_Some (factory gpf state).
Proof.
  unfold factory.
  destruct (factoryLoop_total gpf (flattenLineTokens state)
              (flattenLineTokens_indexed state)
              (length (FlattenedLines.flatLineTokens (flattenLineTokens state)))
              {| f_tokens := []; f_comments := []; f_flatIndex := 0 |})
    as [r Hr]; [simpl; lia|].
  rewrite Hr. destruct r; eauto.
Qed.

Lemma tryFrom_terminates {G E} (gpf : jsstring → Z → Z → Z → Completion E G)
    (state : Lexer.State) :
  is_Some (tryFrom gpf state).
Proof.
  unfold tryFrom. destruct (factory_terminates gpf state) as [r ->].
  destruct r; eauto.
Qed.

(** ** Line comments *)

(** C9: the comment produced from a flat token of kind [LineComment] has
    [containsNewline] equal to true, although it starts and ends on the same
    line. *)
Theorem lineComment_containsNewline {G E} (gpf : jsstring → Z → Z → Z → Completion E G)
    (state : Lexer.State) (i : nat) (flatToken : FlatLineToken.t) (v : FactoryVars) :
  FlattenedLines.flatLineTokens (flattenLineTokens state) !! i = Some flatToken →
  FlatLineToken.kind flatToken = LineComment →
  factoryCase gpf (flattenLineTokens state) flatToken v
  = Returns {| f_tokens := f_tokens v;
               f_comments := f_comments v ++ [readLineComment flatToken];
               f_flatIndex := f_flatIndex v |}
  ∧ Comment.kind (readLineComment flatToken) = Line
  ∧ Comment.containsNewline (readLineComment flatToken) = true
  ∧ lineNumber (Comment.positionStart (readLineComment flatToken))
    = lineNumber (Comment.positionEnd (readLineComment flatToken)).
Proof.
  intros Hlook Hkind. unfold factoryCase. rewrite Hkind.
  repeat split.
  pose proof (flattenLineTokens_singleLine state) as Hone.
  rewrite Forall_lookup in Hone. exact (Hone _ _ Hlook).
Qed.

Lemma lineComment_containsNewline_witness :
  ∃ flatToken,
    FlattenedLines.flatLineTokens (flattenLineTokens oneLineComment) !! 0%nat
    = Some flatToken
    ∧ FlatLineToken.kind flatToken = LineComment
    ∧ Comment.containsNewline (readLineComment flatToken) = true.
Proof.
  eexists. split; [reflexivity|]. split; [reflexivity|].
  eapply (lineComment_containsNewline graphemeWithin oneLineComment 0 _
            {| f_tokens := []; f_comments := []; f_flatIndex := 0 |});
    reflexivity.
Defined.

(** ** Multiline tokens *)

(** C4: for a multiline-start token whose content run is closed by a token of
    the matching end kind, the function that reads the construct returns the
    single merged comment or token: from the start token's [positionStart] to
    the end token's [positionEnd], its data being the substring of the text
    between the two code units, and for a comment [containsNewline] being true
    exactly when the two line numbers differ.  One turn of the loop of
    [factory] at the start token appends it and goes on with the flat token
    just after the end token, and when the loop reaches the start token the
    snapshot that [tryFrom] returns holds it just after the tokens and
    comments read before. *)
Theorem factory_merges_terminated {G E} (gpf : jsstring → Z → Z → Z → Completion E G)
    (state : Lexer.State) (c : Construct) (j : nat)
    (tokenStart tokenEnd : FlatLineToken.t) (v : FactoryVars) (fuel : nat) :
  terminatedAt c (FlattenedLines.flatLineTokens (flattenLineTokens state))
    (f_flatIndex v) j tokenStart tokenEnd →
  factoryLoop gpf (S fuel) (flattenLineTokens state) v
  = factoryLoop gpf fuel (flattenLineTokens state)
      (afterMerge c (FlattenedLines.text (flattenLineTokens state))
         tokenStart tokenEnd j v)
  ∧ (Comment.containsNewline
       (mergedComment (FlattenedLines.text (flattenLineTokens state))
          tokenStart tokenEnd) = true
     ↔ lineNumber (FlatLineToken.positionStart tokenStart)
       ≠ lineNumber (FlatLineToken.positionEnd tokenEnd))
  ∧ match c with
    | MComment =>
        readMultilineComment gpf (flattenLineTokens state) tokenStart
        = Returns
            {| ConcatenatedCommentRead.comment :=
                 {| Comment.kind := Multiline;
                    Comment.data :=
                      substring (FlattenedLines.text (flattenLineTokens state))
                        (codeUnit (FlatLineToken.positionStart tokenStart))
                        (codeUnit (FlatLineToken.positionEnd tokenEnd));
                    Comment.containsNewline :=
                      bool_decide
                        (lineNumber (FlatLineToken.positionStart tokenStart)
                         ≠ lineNumber (FlatLineToken.positionEnd tokenEnd));
                    Comment.positionStart := FlatLineToken.positionStart tokenStart;
                    Comment.positionEnd := FlatLineToken.positionEnd tokenEnd |};
               ConcatenatedCommentRead.flatIndexEnd := j |}
    | MQuotedIdentifier =>
        readQuotedIdentifier gpf (flattenLineTokens state) tokenStart
        = Returns
            {| ConcatenatedTokenRead.token :=
                 {| Token.kind := Identifier;
                    Token.data :=
                      substring (FlattenedLines.text (flattenLineTokens state))
                        (codeUnit (FlatLineToken.positionStart tokenStart))
                        (codeUnit (FlatLineToken.positionEnd tokenEnd));
                    Token.positionStart := FlatLineToken.positionStart tokenStart;
                    Token.positionEnd := FlatLineToken.positionEnd tokenEnd |};
               ConcatenatedTokenRead.flatIndexEnd := j |}
    | MTextLiteral =>
        readTextLiteral gpf (flattenLineTokens state) tokenStart
        = Returns
            {| ConcatenatedTokenRead.token :=
                 {| Token.kind := TextLiteral;
                    Token.data :=
                      substring (FlattenedLines.text (flattenLineTokens state))
                        (codeUnit (FlatLineToken.positionStart tokenStart))
                        (codeUnit (FlatLineToken.positionEnd tokenEnd));
                    Token.positionStart := FlatLineToken.positionStart tokenStart;
                    Token.positionEnd := FlatLineToken.positionEnd tokenEnd |};
               ConcatenatedTokenRead.flatIndexEnd := j |}
    end
  ∧ (∃ v', factoryCase gpf (flattenLineTokens state) tokenStart v = Returns v'
           ∧ {| f_tokens := f_tokens v'; f_comments := f_comments v';
                f_flatIndex := S (f_flatIndex v') |}
             = afterMerge c (FlattenedLines.text (flattenLineTokens state))
                 tokenStart tokenEnd j v)
  ∧ (Reaches gpf (flattenLineTokens state) v →
     ∀ snapshot, tryFrom gpf state = Some (Ok snapshot) →
       f_tokens (afterMerge c (FlattenedLines.text (flattenLineTokens state))
                   tokenStart tokenEnd j v)
         `prefix_of` LexerSnapshot.tokens snapshot
       ∧ f_comments (afterMerge c (FlattenedLines.text (flattenLineTokens state))
                       tokenStart tokenEnd j v)
           `prefix_of` LexerSnapshot.comments snapshot).
Proof.
  intros Hrun.
  pose proof (flattenLineTokens_indexed state) as Hindexed.
  destruct (factoryCase_terminated gpf _ Hindexed _ _ _ _ _ v Hrun)
    as (v' & Hcase & Hv').
  assert (∀ fuel',
            factoryLoop gpf (S fuel') (flattenLineTokens state) v
            = factoryLoop gpf fuel' (flattenLineTokens state)
                (afterMerge c (FlattenedLines.text (flattenLineTokens state))
                   tokenStart tokenEnd j v)) as Hturn.
  { intros fuel'.
    rewrite (factoryLoop_turn gpf _ fuel' _ _ _ (proj1 Hrun) Hcase).
    by rewrite Hv'. }
  split; [apply Hturn|].
  split; [simpl; apply bool_decide_eq_true|].
  split; [exact (read_terminated gpf _ Hindexed c _ _ _ _ Hrun)|].
  split; [by exists v'|].
  intros Hreach snapshot Htry.
  unfold tryFrom, factory in Htry.
  destruct (factoryLoop gpf _ _ _) as [[r|e]|] eqn:Hloop; [|done..].
  injection Htry as <-. simpl.
  apply (Reaches_snapshot gpf _ Hindexed v
           (length (FlattenedLines.flatLineTokens (flattenLineTokens state))))
    in Hloop; [|done|lia].
  rewrite Hturn in Hloop.
  by apply (factoryLoop_extends gpf) in Hloop.
Qed.

Lemma factory_merges_terminated_witness :
  ∃ tokenStart tokenEnd,
    terminatedAt MComment
      (FlattenedLines.flatLineTokens (flattenLineTokens scenarioA))
      0 1 tokenStart tokenEnd
    ∧ factoryLoop graphemeWithin 3 (flattenLineTokens scenarioA)
        {| f_tokens := []; f_comments := []; f_flatIndex := 0 |}
      = factoryLoop graphemeWithin 2 (flattenLineTokens scenarioA)
          {| f_tokens := [];
             f_comments :=
               [ {| Comment.kind := Multiline;
                    Comment.data := str "/*a" ++ str nl ++ str "b*/";
                    Comment.containsNewline := true;
                    Comment.positionStart :=
                      {| codeUnit := 0; lineCodeUnit := 0; lineNumber := 0 |};
                    Comment.positionEnd :=
                      {| codeUnit := 7; lineCodeUnit := 3; lineNumber := 1 |} |} ];
             f_flatIndex := 2 |}
    ∧ ∃ snapshot,
        tryFrom graphemeWithin scenarioA = Some (Ok snapshot)
        ∧ [ {| Comment.kind := Multiline;
               Comment.data := str "/*a" ++ str nl ++ str "b*/";
               Comment.containsNewline := true;
               Comment.positionStart :=
                 {| codeUnit := 0; lineCodeUnit := 0; lineNumber := 0 |};
               Comment.positionEnd :=
                 {| codeUnit := 7; lineCodeUnit := 3; lineNumber := 1 |} |} ]
          `prefix_of` LexerSnapshot.comments snapshot.
Proof.
  assert (∃ tokenStart tokenEnd,
            terminatedAt MComment
              (FlattenedLines.flatLineTokens (flattenLineTokens scenarioA))
              0 1 tokenStart tokenEnd) as (tokenStart & tokenEnd & Hrun).
  { eexists _, _. repeat split; try reflexivity; [lia|].
    intros k t Hk. lia. }
  assert (∃ snapshot, tryFrom graphemeWithin scenarioA = Some (Ok snapshot))
    as [snapshot Htry] by (eexists; reflexivity).
  exists tokenStart, tokenEnd. split; [exact Hrun|].
  destruct (factory_merges_terminated graphemeWithin scenarioA MComment 1
              tokenStart tokenEnd
              {| f_tokens := []; f_comments := []; f_flatIndex := 0 |} 2 Hrun)
    as (Hmerge & _ & _ & _ & Hsnapshot).
  destruct (Hsnapshot (reaches_start _ _) snapshot Htry) as [_ Hcomments].
  rewrite Hmerge.
  destruct Hrun as (Hs & _ & _ & _ & He & _).
  vm_compute in Hs, He. injection Hs as <-. injection He as <-.
  split; [reflexivity|]. exists snapshot. split; [exact Htry|exact Hcomments].
Defined.

(** C3 (amended): when the loop of [factory] reaches a multiline-start token
    that is followed only by tokens of the matching content kind up to the end
    of the stream, [tryFrom] produces no snapshot.  When
    [graphemePositionFrom] returns the grapheme position of the start token,
    [tryFrom] returns the error result that carries the
    unterminated-multiline-token error of the matching kind at that position;
    when it throws, [tryFrom] returns the error result of the common errors
    around what it threw. *)
Theorem tryFrom_unterminated {G E} (gpf : jsstring → Z → Z → Z → Completion E G)
    (state : Lexer.State) (c : Construct) (tokenStart : FlatLineToken.t)
    (v : FactoryVars) :
  Reaches gpf (flattenLineTokens state) v →
  unterminatedAt c (FlattenedLines.flatLineTokens (flattenLineTokens state))
    (f_flatIndex v) tokenStart →
  tryFrom gpf state
  = Some (Err
      match graphemePositionStartFrom gpf
              (FlattenedLines.text (flattenLineTokens state))
              (FlattenedLines.lineTerminators (flattenLineTokens state))
              (inr tokenStart) with
      | Returns position =>
          LexError (UnterminatedMultilineTokenError position (unterminatedKind c))
      | Throws thrown => CommonError (GraphemeInvariantError thrown)
      end).
Proof.
  intros Hreach Hrun.
  pose proof (factoryCase_unterminated gpf _ (flattenLineTokens_indexed state)
                _ _ _ v Hrun) as Hcase.
  pose proof (factoryLoop_throw gpf _ 0 _ _ _ (proj1 Hrun) Hcase) as Hloop.
  apply (Reaches_result gpf _ (flattenLineTokens_indexed state) _ Hreach) in Hloop.
  unfold tryFrom, factory. rewrite Hloop.
  by destruct (graphemePositionStartFrom _ _ _ _).
Qed.

Lemma tryFrom_unterminated_witness :
  ∃ tokenStart,
    unterminatedAt MTextLiteral
      (FlattenedLines.flatLineTokens (flattenLineTokens scenarioB)) 0 tokenStart
    ∧ tryFrom graphemeWithin scenarioB
      = Some (Err (LexError (UnterminatedMultilineTokenError
           (str (quote ++ "unterminated"), 0, 0, 1) UnterminatedText)))
    ∧ tryFrom graphemeThrows scenarioB
      = Some (Err (CommonError (GraphemeInvariantError
           (str (quote ++ "unterminated"), 0)))).
Proof.
  assert (∃ tokenStart,
            unterminatedAt MTextLiteral
              (FlattenedLines.flatLineTokens (flattenLineTokens scenarioB))
              0 tokenStart) as (tokenStart & Hrun).
  { eexists. split; [reflexivity|]. split; [reflexivity|]. repeat constructor. }
  exists tokenStart. split; [exact Hrun|].
  rewrite (tryFrom_unterminated graphemeWithin scenarioB MTextLiteral tokenStart
             {| f_tokens := []; f_comments := []; f_flatIndex := 0 |}
             (reaches_start _ _) Hrun).
  rewrite (tryFrom_unterminated graphemeThrows scenarioB MTextLiteral tokenStart
             {| f_tokens := []; f_comments := []; f_flatIndex := 0 |}
             (reaches_start _ _) Hrun).
  destruct Hrun as (Hs & _). vm_compute in Hs. simplify_eq. split; reflexivity.
Defined.

(** C3 as stated fails: the text literal opened at index 1 is followed by
    content only, but the comment opened at index 0 meets that start token
    where it expects its end, and [tryFrom] returns the internal fault. *)
Lemma tryFrom_unterminated_behind_fault :
  ∃ tokenStart,
    unterminatedAt MTextLiteral
      (FlattenedLines.flatLineTokens (flattenLineTokens faultBeforeStart)) 1 tokenStart
    ∧ tryFrom graphemeWithin faultBeforeStart
      = Some (Err (CommonError (InvariantError tokenStart)))
    ∧ ∀ position kind,
        tryFrom graphemeWithin faultBeforeStart
        ≠ Some (Err (LexError (UnterminatedMultilineTokenError position kind))).
Proof.
  eexists. split; [|split].
  - split; [reflexivity|]. split; [reflexivity|]. repeat constructor.
  - reflexivity.
  - intros position kind. vm_compute. congruence.
Qed.

(** * Further properties of the snapshot *)

(** ** The flat tokens and the table, line by line *)

Lemma pushLineToken_imap lineTextOffset lineNumber lineTokens : ∀ flatTokens n,
  fold_left (pushLineToken lineTextOffset lineNumber) lineTokens (flatTokens, n)
  = (flatTokens ++ imap (λ k, flatOf lineTextOffset lineNumber (n + k)) lineTokens,
     (n + length lineTokens)%nat).
Proof.
  induction lineTokens as [|tok lineTokens IH]; intros flatTokens n; simpl.
  - by rewrite app_nil_r, Nat.add_0_r.
  - change (pushLineToken lineTextOffset lineNumber (flatTokens, n) tok)
      with (flatTokens ++ [flatOf lineTextOffset lineNumber n tok], S n).
    rewrite IH, <- app_assoc. simpl. rewrite Nat.add_0_r. f_equal; [|lia].
    do 2 f_equal. apply imap_ext. intros k x _. simpl. f_equal. lia.
Qed.

Lemma flattenLoop_flatFrom numLines rest : ∀ lineNumber v,
  v_flatLineTokens (flattenLoop numLines lineNumber rest v)
  = v_flatLineTokens v
    ++ flatFrom (v_lineTextOffset v) lineNumber (v_flatIndex v) rest.
Proof.
  induction rest as [|l rest IH]; intros lineNumber v; simpl.
  - by rewrite app_nil_r.
  - rewrite IH. unfold flattenLine. rewrite pushLineToken_imap. simpl.
    by rewrite <- app_assoc.
Qed.


Lemma flatFrom_length lines : ∀ lineTextOffset lineNumber flatIndex,
  length (flatFrom lineTextOffset lineNumber flatIndex lines)
  = length (concat (map Lexer.TLine.tokens lines)).
Proof.
  induction lines as [|l lines IH]; intros; simpl; [done|].
  by rewrite !length_app, length_imap, IH.
Qed.

Lemma flattenLineTokens_length state :
  length (FlattenedLines.flatLineTokens (flattenLineTokens state))
  = length (concat (map Lexer.TLine.tokens (Lexer.lines state))).
Proof.
  unfold flattenLineTokens. simpl. rewrite flattenLoop_flatFrom. simpl.
  apply flatFrom_length.
Qed.



Lemma terminatorsFrom_lookup lines : ∀ lineTextOffset n line,
  lines !! n = Some line →
  terminatorsFrom lineTextOffset lines !! n
  = Some {| LineTerminator.codeUnit :=
              lineTextOffset + lineOffset lines n + strlen (Lexer.TLine.text line);
            LineTerminator.text := Lexer.TLine.lineTerminator line |}.
Proof.
  induction lines as [|l lines IH]; intros lineTextOffset n line Hline; [done|].
  destruct n as [|n]; simpl in *.
  - injection Hline as ->. by rewrite Z.add_0_r.
  - rewrite (IH _ _ _ Hline). do 2 f_equal. lia.
Qed.

Lemma terminatorsFrom_length lines : ∀ lineTextOffset,
  length (terminatorsFrom lineTextOffset lines) = length lines.
Proof. induction lines as [|l lines IH]; intros; simpl; [done|]. by rewrite IH. Qed.

(** X2: The table of line terminators has one entry per line, the last line
    included: the entry of line [n] holds the terminator of the line, at the
    offset of the line plus the length of its text. *)
Theorem flattenLineTokens_terminator (state : Lexer.State) (n : nat)
    (line : Lexer.TLine.t) :
  Lexer.lines state !! n = Some line →
  FlattenedLines.lineTerminators (flattenLineTokens state) !! n
  = Some {| LineTerminator.codeUnit :=
              lineOffset (Lexer.lines state) n + strlen (Lexer.TLine.text line);
            LineTerminator.text := Lexer.TLine.lineTerminator line |}
  ∧ length (FlattenedLines.lineTerminators (flattenLineTokens state))
    = length (Lexer.lines state).
Proof.
  intros Hline. rewrite flattenLineTokens_lineTerminators. split.
  - by rewrite (terminatorsFrom_lookup _ 0 _ _ Hline).
  - apply terminatorsFrom_length.
Qed.

Lemma flattenLineTokens_terminator_witness :
  ∃ line,
    Lexer.lines scenarioA !! 1%nat = Some line
    ∧ FlattenedLines.lineTerminators (flattenLineTokens scenarioA) !! 1%nat
      = Some {| LineTerminator.codeUnit := 7; LineTerminator.text := [] |}.
Proof.
  eexists. split; [reflexivity|].
  exact (proj1 (flattenLineTokens_terminator scenarioA 1 _ eq_refl)).
Defined.

(** ** The text, line by line *)

Lemma substring_middle (pre mid post : jsstring) :
  substring (pre ++ mid ++ post) (strlen pre) (strlen pre + strlen mid) = mid.
Proof.
  rewrite substring_within.
  - unfold strlen.
    replace (Z.to_nat (Z.of_nat (length pre) + Z.of_nat (length mid)
                       - Z.of_nat (length pre))) with (length mid) by lia.
    rewrite Nat2Z.id, drop_app_length. by rewrite take_app_length.
  - unfold strlen. lia.
  - unfold strlen. rewrite !length_app. lia.
Qed.

Lemma textWithInnerTerminators_split lines : ∀ n line,
  lines !! n = Some line →
  ∃ pre post,
    textWithInnerTerminators lines = pre ++ Lexer.TLine.text line ++ post
    ∧ strlen pre = lineOffset lines n
    ∧ ((S n < length lines)%nat →
       ∃ post', post = Lexer.TLine.lineTerminator line ++ post').
Proof.
  induction lines as [|l lines IH]; intros n line Hline; [done|].
  destruct n as [|n].
  - injection Hline as ->. exists [].
    destruct lines as [|l' lines].
    + exists []. simpl. rewrite app_nil_r. split; [done|]. split; [done|].
      simpl. lia.
    + eexists. split; [reflexivity|]. split; [done|]. intros _. eauto.
  - simpl in Hline. destruct (IH _ _ Hline) as (pre & post & Heq & Hpre & Hpost).
    exists (Lexer.TLine.text l ++ Lexer.TLine.lineTerminator l ++ pre), post.
    destruct lines as [|l' lines]; [done|].
    change (textWithInnerTerminators (l :: l' :: lines))
      with (Lexer.TLine.text l ++ Lexer.TLine.lineTerminator l
            ++ textWithInnerTerminators (l' :: lines)).
    rewrite Heq. split; [by rewrite <- !app_assoc|]. split.
    + change (lineOffset (l :: l' :: lines) (S n))
        with (strlen (Lexer.TLine.text l) + strlen (Lexer.TLine.lineTerminator l)
              + lineOffset (l' :: lines) n).
      rewrite <- Hpre. unfold strlen. rewrite !length_app. lia.
    + intros Hlt. apply Hpost. simpl in *. lia.
Qed.

Lemma lineOffset_succ lines : ∀ n line,
  lines !! n = Some line →
  lineOffset lines (S n)
  = lineOffset lines n + strlen (Lexer.TLine.text line)
    + strlen (Lexer.TLine.lineTerminator line).
Proof.
  induction lines as [|l lines IH]; intros n line Hline; [done|].
  destruct n as [|n].
  - injection Hline as ->. simpl. destruct lines; simpl; lia.
  - simpl in Hline.
    change (lineOffset (l :: lines) (S (S n)))
      with (strlen (Lexer.TLine.text l) + strlen (Lexer.TLine.lineTerminator l)
            + lineOffset lines (S n)).
    rewrite (IH _ _ Hline). simpl. lia.
Qed.

(** X3: The text of the snapshot holds every line where the table says: the text
    of line [n] lies between the offset of the line and the offset of its
    terminator, and the terminator of a line that is not the last lies between
    its offset and the offset of the next line. *)
Theorem flattenLineTokens_text_of_line (state : Lexer.State) (n : nat)
    (line : Lexer.TLine.t) :
  Lexer.lines state !! n = Some line →
  substring (FlattenedLines.text (flattenLineTokens state))
    (lineOffset (Lexer.lines state) n)
    (lineOffset (Lexer.lines state) n + strlen (Lexer.TLine.text line))
  = Lexer.TLine.text line
  ∧ ((S n < length (Lexer.lines state))%nat →
     substring (FlattenedLines.text (flattenLineTokens state))
       (lineOffset (Lexer.lines state) n + strlen (Lexer.TLine.text line))
       (lineOffset (Lexer.lines state) (S n))
     = Lexer.TLine.lineTerminator line).
Proof.
  intros Hline. rewrite flattenLineTokens_text.
  destruct (textWithInnerTerminators_split _ _ _ Hline)
    as (pre & post & -> & Hpre & Hpost).
  rewrite <- Hpre. split; [apply substring_middle|].
  intros Hlt. destruct (Hpost Hlt) as [post' ->].
  rewrite (lineOffset_succ _ _ _ Hline), <- Hpre.
  rewrite (app_assoc pre).
  replace (strlen pre + strlen (Lexer.TLine.text line))
    with (strlen (pre ++ Lexer.TLine.text line))
    by (unfold strlen; rewrite length_app; lia).
  apply substring_middle.
Qed.

Lemma flattenLineTokens_text_of_line_witness :
  ∃ line,
    Lexer.lines scenarioA !! 0%nat = Some line
    ∧ substring (FlattenedLines.text (flattenLineTokens scenarioA)) 0 3 = str "/*a"
    ∧ (S 0 < length (Lexer.lines scenarioA))%nat
    ∧ substring (FlattenedLines.text (flattenLineTokens scenarioA)) 3 4 = str nl.
Proof.
  eexists. split; [reflexivity|].
  destruct (flattenLineTokens_text_of_line scenarioA 0 _ eq_refl) as [Htext Hterm].
  split; [exact Htext|]. split; [simpl; lia|].
  apply Hterm. simpl. lia.
Defined.

(** ** The run that [collectWhileContent] collects *)

Lemma collectLoop_run contentKind rest : ∀ flatIndex collected,
  ∃ run,
    collectLoop rest contentKind flatIndex collected
    = (collected ++ run, (flatIndex + length run)%nat)
    ∧ run = take (length run) rest
    ∧ Forall (λ t, FlatLineToken.kind t = contentKind) run
    ∧ ∀ t, rest !! length run = Some t → FlatLineToken.kind t ≠ contentKind.
Proof.
  induction rest as [|t rest IH]; intros flatIndex collected; simpl.
  - exists []. rewrite app_nil_r, Nat.add_0_r. by repeat split.
  - destruct (Kind_eqb (FlatLineToken.kind t) contentKind) eqn:Hkind; simpl.
    + apply Kind_eqb_eq in Hkind.
      destruct (IH (S flatIndex) (collected ++ [t])) as (run & -> & Hrun & Hall & Hend).
      exists (t :: run). rewrite <- app_assoc. simpl.
      split; [f_equal; lia|]. split; [by f_equal|]. split; [by constructor|done].
    + apply Kind_eqb_neq in Hkind. exists [].
      rewrite app_nil_r, Nat.add_0_r. simpl.
      split; [done|]. split; [done|]. split; [done|]. by intros t' [= <-].
Qed.

(** X4: [collectWhileContent] collects the longest run of tokens of the content
    kind that follows the start token, and hands over the token just after the
    run, if there is one: that token is not of the content kind. *)
Theorem collectWhileContent_run (flatTokens : list FlatLineToken.t)
    (tokenStart : FlatLineToken.t) (contentKind : LineTokenKind) :
  let collection := collectWhileContent flatTokens tokenStart contentKind in
  let first := S (FlatLineToken.flatIndex tokenStart) in
  let run := FlatLineCollection.collectedTokens collection in
  run = take (length run) (drop first flatTokens)
  ∧ Forall (λ t, FlatLineToken.kind t = contentKind) run
  ∧ FlatLineCollection.maybeTokenEnd collection
    = flatTokens !! (first + length run)%nat
  ∧ (∀ t, FlatLineCollection.maybeTokenEnd collection = Some t →
          FlatLineToken.kind t ≠ contentKind)
  ∧ FlatLineCollection.tokenStart collection = tokenStart.
Proof.
  intros collection first run. subst collection run. unfold collectWhileContent.
  fold first.
  destruct (collectLoop_run contentKind (drop first flatTokens) first [])
    as (run & -> & Hrun & Hall & Hend).
  simpl. split; [done|]. split; [done|]. split; [done|]. split; [|done].
  intros t Ht. apply Hend. by rewrite lookup_drop.
Qed.

Lemma collectWhileContent_run_witness :
  ∃ tokenStart,
    FlattenedLines.flatLineTokens (flattenLineTokens scenarioB) !! 0%nat
    = Some tokenStart
    ∧ Forall (λ t, FlatLineToken.kind t = TextLiteralContent)
        (FlatLineCollection.collectedTokens
           (collectWhileContent
              (FlattenedLines.flatLineTokens (flattenLineTokens scenarioB))
              tokenStart TextLiteralContent))
    ∧ FlatLineCollection.tokenStart
        (collectWhileContent
           (FlattenedLines.flatLineTokens (flattenLineTokens scenarioB))
           tokenStart TextLiteralContent)
      = tokenStart.
Proof.
  eexists. split; [reflexivity|].
  match goal with
  | |- Forall _ (FlatLineCollection.collectedTokens (collectWhileContent ?f ?t ?k)) ∧ _ =>
      destruct (collectWhileContent_run f t k) as (_ & Hall & _ & _ & Hstart)
  end.
  split; [exact Hall|exact Hstart].
Defined.

(** ** The results of [tryFrom] *)

Section Results.

Context {G E : Type} (gpf : jsstring → Z → Z → Z → Completion E G).
Context (fl : FlattenedLines.t).

(** Without a multiline-start token, every turn copies one flat token. *)
Lemma factoryLoop_plain fuel : ∀ v,
  Forall (λ t, startsMultiline (FlatLineToken.kind t) = false)
    (FlattenedLines.flatLineTokens fl) →
  (length (FlattenedLines.flatLineTokens fl) ≤ fuel + f_flatIndex v)%nat →
  ∃ flatIndex,
    factoryLoop gpf (S fuel) fl v
    = Some (Returns
        {| f_tokens :=
             f_tokens v
             ++ omap tokenOf (drop (f_flatIndex v) (FlattenedLines.flatLineTokens fl));
           f_comments :=
             f_comments v
             ++ omap commentOf (drop (f_flatIndex v) (FlattenedLines.flatLineTokens fl));
           f_flatIndex := flatIndex |}).
Proof.
  intros v Hplain. revert v.
  induction fuel as [|fuel IH]; intros v Hlen.
  - simpl. rewrite (proj2 (lookup_ge_None _ _)) by (simpl in Hlen; lia).
    rewrite drop_ge by (simpl in Hlen; lia). simpl. rewrite !app_nil_r.
    exists (f_flatIndex v). by destruct v.
  - destruct (FlattenedLines.flatLineTokens fl !! f_flatIndex v)
      as [flatToken|] eqn:Hlook.
    + assert (∃ v', factoryCase gpf fl flatToken v = Returns v'
                ∧ f_tokens v' = f_tokens v ++ omap tokenOf [flatToken]
                ∧ f_comments v' = f_comments v ++ omap commentOf [flatToken]
                ∧ f_flatIndex v' = f_flatIndex v) as (v' & Hcase & Htok & Hcom & Hidx).
      { rewrite Forall_lookup in Hplain. specialize (Hplain _ _ Hlook).
        unfold factoryCase, tokenOf, commentOf. simpl.
        destruct (FlatLineToken.kind flatToken); try discriminate Hplain;
          eexists; (split; [reflexivity|]); simpl; rewrite ?app_nil_r; done. }
      rewrite (factoryLoop_turn gpf fl _ _ _ _ Hlook Hcase).
      destruct (IH {| f_tokens := f_tokens v'; f_comments := f_comments v';
                      f_flatIndex := S (f_flatIndex v') |}) as [i' ->];
        [simpl; lia|].
      exists i'. simpl. rewrite Htok, Hcom, Hidx.
      rewrite (drop_S _ _ _ Hlook). simpl.
      rewrite <- !app_assoc.
      by destruct (tokenOf flatToken), (commentOf flatToken).
    + simpl. rewrite Hlook. apply lookup_ge_None in Hlook.
      rewrite drop_ge by done. simpl. rewrite !app_nil_r.
      exists (f_flatIndex v). by destruct v.
Qed.

Context (Hindexed : indexed (FlattenedLines.flatLineTokens fl)).

(** On the start token of a run that ends in a token of another kind than the
    end kind, the switch throws the invariant error with that token. *)
Lemma factoryCase_mismatched c i j tokenStart found v :
  mismatchedAt c (FlattenedLines.flatLineTokens fl) i j tokenStart found →
  factoryCase gpf fl tokenStart v = Throws (InvariantError found).
Proof using Hindexed.
  intros (Hi & Hstart & Hij & Hrun & Hj & Hcontent & Hend).
  assert (FlatLineCollection.maybeTokenEnd
            (collectWhileContent (FlattenedLines.flatLineTokens fl) tokenStart
               (contentKind c)) = Some found) as Hfound.
  { unfold collectWhileContent. rewrite (Hindexed _ _ Hi).
    pose proof (collectLoop_stop (contentKind c) (j - S i)
                  (drop (S i) (FlattenedLines.flatLineTokens fl)) (S i) [] found)
      as Hstop.
    destruct (collectLoop _ _ _ _) as [collected flatIndex]. simpl in *.
    rewrite Hstop.
    - by replace (S (i + (j - S i))) with j by lia.
    - intros k t Hk Ht. rewrite lookup_drop in Ht.
      apply (Hrun (S i + k)%nat t); [lia|done].
    - rewrite lookup_drop. by replace (S i + (j - S i))%nat with j by lia.
    - done. }
  unfold factoryCase, readMultilineComment, readQuotedIdentifier, readTextLiteral.
  rewrite Hstart.
  destruct c; simpl in *; rewrite Hfound;
    by rewrite (proj2 (Kind_eqb_neq _ _) Hend).
Qed.

(** One turn adds one token or one comment, and no token of a kind of comment
    or of multiline start. *)
Lemma factoryCase_kinds flatToken v v' :
  Forall (λ token, neverToken (Token.kind token) = false) (f_tokens v) →
  factoryCase gpf fl flatToken v = Returns v' →
  Forall (λ token, neverToken (Token.kind token) = false) (f_tokens v')
  ∧ (length (f_tokens v') + length (f_comments v')
     = S (length (f_tokens v) + length (f_comments v)))%nat.
Proof.
  intros Hkinds.
  unfold factoryCase, readMultilineComment, readQuotedIdentifier, readTextLiteral.
  destruct (FlatLineToken.kind flatToken) eqn:Hkind;
    first [ intros [= <-]
          | destruct (FlatLineCollection.maybeTokenEnd _);
              [|by destruct (graphemePositionStartFrom _ _ _ _)];
            destruct (negb _); [done|]; intros [= <-] ];
    simpl; rewrite ?length_app; simpl; (split; [|lia]);
    rewrite ?Forall_app, ?Forall_singleton; simpl; done.
Qed.

(** What every turn keeps: no token has a kind of comment or of multiline
    start, and there are no more tokens and comments than flat tokens read. *)
Lemma factoryLoop_kinds fuel : ∀ v r,
  Forall (λ token, neverToken (Token.kind token) = false) (f_tokens v) →
  (length (f_tokens v) + length (f_comments v) ≤ f_flatIndex v)%nat →
  (length (f_tokens v) + length (f_comments v)
   ≤ length (FlattenedLines.flatLineTokens fl))%nat →
  factoryLoop gpf fuel fl v = Some (Returns r) →
  Forall (λ token, neverToken (Token.kind token) = false) (f_tokens r)
  ∧ (length (f_tokens r) + length (f_comments r)
     ≤ length (FlattenedLines.flatLineTokens fl))%nat.
Proof using Hindexed.
  induction fuel as [|fuel IH]; intros v r Hkinds Hread Hcount Hloop; [done|].
  simpl in Hloop.
  destruct (FlattenedLines.flatLineTokens fl !! f_flatIndex v)
    as [flatToken|] eqn:Hlook; [|by simplify_eq].
  destruct (factoryCase gpf fl flatToken v) as [v'|e] eqn:Hcase; [|done].
  pose proof (factoryCase_index gpf fl Hindexed _ _ _ Hlook Hcase) as Hidx.
  pose proof (lookup_lt_Some _ _ _ Hlook) as Hlt.
  destruct (factoryCase_kinds _ _ _ Hkinds Hcase) as [Hkinds' Hcount'].
  eapply IH; [| | |exact Hloop]; simpl; [done|lia|lia].
Qed.

End Results.

(** X5: A state without multiline-start tokens always gives a snapshot: its
    comments are the line comments and the one-line multiline comments of the
    flat tokens, in order, and its tokens are the other flat tokens, in order,
    with their kind, data and positions. *)
Theorem tryFrom_plain {G E} (gpf : jsstring → Z → Z → Z → Completion E G)
    (state : Lexer.State) :
  Forall (λ t, startsMultiline (FlatLineToken.kind t) = false)
    (FlattenedLines.flatLineTokens (flattenLineTokens state)) →
  tryFrom gpf state
  = Some (Ok
      {| LexerSnapshot.text := FlattenedLines.text (flattenLineTokens state);
         LexerSnapshot.tokens :=
           omap tokenOf (FlattenedLines.flatLineTokens (flattenLineTokens state));
         LexerSnapshot.comments :=
           omap commentOf (FlattenedLines.flatLineTokens (flattenLineTokens state));
         LexerSnapshot.lineTerminators :=
           FlattenedLines.lineTerminators (flattenLineTokens state) |}).
Proof.
  intros Hplain. unfold tryFrom, factory.
  destruct (factoryLoop_plain gpf (flattenLineTokens state)
              (length (FlattenedLines.flatLineTokens (flattenLineTokens state)))
              {| f_tokens := []; f_comments := []; f_flatIndex := 0 |} Hplain)
    as [i ->]; [simpl; lia|].
  simpl. by rewrite drop_0.
Qed.

Lemma tryFrom_plain_witness :
  tryFrom graphemeWithin oneLineComment
  = Some (Ok
      {| LexerSnapshot.text := str "// x";
         LexerSnapshot.tokens := [];
         LexerSnapshot.comments :=
           [ {| Comment.kind := Line; Comment.data := str "// x";
                Comment.containsNewline := true;
                Comment.positionStart :=
                  {| codeUnit := 0; lineCodeUnit := 0; lineNumber := 0 |};
                Comment.positionEnd :=
                  {| codeUnit := 4; lineCodeUnit := 4; lineNumber := 0 |} |} ];
         LexerSnapshot.lineTerminators :=
           [ {| LineTerminator.codeUnit := 4; LineTerminator.text := [] |} ] |}).
Proof.
  rewrite (tryFrom_plain graphemeWithin oneLineComment).
  - reflexivity.
  - repeat constructor.
Defined.

(** X6: When the loop of [factory] reaches a multiline-start token whose content
    run is followed by a token that is not of the matching end kind,
    [tryFrom] returns the error result of the common errors around the
    invariant error that carries that token. *)
Theorem tryFrom_mismatched {G E} (gpf : jsstring → Z → Z → Z → Completion E G)
    (state : Lexer.State) (c : Construct) (j : nat)
    (tokenStart found : FlatLineToken.t) (v : FactoryVars) :
  Reaches gpf (flattenLineTokens state) v →
  mismatchedAt c (FlattenedLines.flatLineTokens (flattenLineTokens state))
    (f_flatIndex v) j tokenStart found →
  tryFrom gpf state = Some (Err (CommonError (InvariantError found))).
Proof.
  intros Hreach Hrun.
  pose proof (factoryCase_mismatched gpf _ (flattenLineTokens_indexed state)
                _ _ _ _ _ v Hrun) as Hcase.
  pose proof (factoryLoop_throw gpf _ 0 _ _ _ (proj1 Hrun) Hcase) as Hloop.
  apply (Reaches_result gpf _ (flattenLineTokens_indexed state) _ Hreach) in Hloop.
  unfold tryFrom, factory. by rewrite Hloop.
Qed.

Lemma tryFrom_mismatched_witness :
  ∃ tokenStart found,
    mismatchedAt MComment
      (FlattenedLines.flatLineTokens (flattenLineTokens faultBeforeStart))
      0 1 tokenStart found
    ∧ tryFrom graphemeWithin faultBeforeStart
      = Some (Err (CommonError (InvariantError found))).
Proof.
  assert (∃ tokenStart found,
            mismatchedAt MComment
              (FlattenedLines.flatLineTokens (flattenLineTokens faultBeforeStart))
              0 1 tokenStart found) as (tokenStart & found & Hrun).
  { eexists _, _. split; [reflexivity|]. split; [reflexivity|]. split; [lia|].
    split; [intros k t Hk; lia|]. split; [reflexivity|]. split; discriminate. }
  exists tokenStart, found. split; [exact Hrun|].
  exact (tryFrom_mismatched graphemeWithin faultBeforeStart MComment 1
           tokenStart found {| f_tokens := []; f_comments := []; f_flatIndex := 0 |}
           (reaches_start _ _) Hrun).
Defined.

(** X7: The tokens of a snapshot never have the kind of a comment or of a
    multiline start, and a snapshot never holds more tokens and comments than
    the state holds line tokens. *)
Theorem tryFrom_snapshot_kinds {G E} (gpf : jsstring → Z → Z → Z → Completion E G)
    (state : Lexer.State) (snapshot : LexerSnapshot.t) :
  tryFrom gpf state = Some (Ok snapshot) →
  Forall (λ token, neverToken (Token.kind token) = false)
    (LexerSnapshot.tokens snapshot)
  ∧ (length (LexerSnapshot.tokens snapshot) + length (LexerSnapshot.comments snapshot)
     ≤ length (concat (map Lexer.TLine.tokens (Lexer.lines state))))%nat.
Proof.
  unfold tryFrom, factory. intros Htry.
  destruct (factoryLoop _ _ _ _) as [[r|e]|] eqn:Hloop; [|done..].
  injection Htry as <-. simpl.
  rewrite <- (flattenLineTokens_length state).
  eapply (factoryLoop_kinds gpf _ (flattenLineTokens_indexed state)); [| | |exact Hloop];
    simpl; [done|lia|lia].
Qed.

Lemma tryFrom_snapshot_kinds_witness :
  ∃ snapshot,
    tryFrom graphemeWithin mixedLines = Some (Ok snapshot)
    ∧ Forall (λ token, neverToken (Token.kind token) = false)
        (LexerSnapshot.tokens snapshot)
    ∧ (length (LexerSnapshot.tokens snapshot)
       + length (LexerSnapshot.comments snapshot)
       ≤ length (concat (map Lexer.TLine.tokens (Lexer.lines mixedLines))))%nat.
Proof.
  eexists. split; [reflexivity|].
  apply (tryFrom_snapshot_kinds graphemeWithin mixedLines). reflexivity.
Defined.

(** ** Every outcome of [factory] *)

(** What the collection hands over: nothing when only content follows the
    start token, and otherwise the first token that is not content. *)
Lemma collectWhileContent_cases flatTokens i tokenStart contentKind :
  indexed flatTokens →
  flatTokens !! i = Some tokenStart →
  match FlatLineCollection.maybeTokenEnd
          (collectWhileContent flatTokens tokenStart contentKind) with
  | None => Forall (λ t, FlatLineToken.kind t = contentKind) (drop (S i) flatTokens)
  | Some found =>
      ∃ j, (i < j)%nat
        ∧ (∀ k t, (i < k < j)%nat → flatTokens !! k = Some t →
                  FlatLineToken.kind t = contentKind)
        ∧ flatTokens !! j = Some found
        ∧ FlatLineToken.kind found ≠ contentKind
  end.
Proof.
  intros Hidx Hi. unfold collectWhileContent. rewrite (Hidx _ _ Hi).
  destruct (collectLoop_run contentKind (drop (S i) flatTokens) (S i) [])
    as (run & -> & Hrun & Hall & Hend).
  cbv beta iota zeta. unfold FlatLineCollection.maybeTokenEnd.
  rewrite <- (lookup_drop flatTokens (S i) (length run)).
  destruct (drop (S i) flatTokens !! length run) as [found|] eqn:Hfound.
  - exists (S i + length run)%nat. split; [lia|]. split; [|split].
    + intros k t Hk Ht. rewrite Forall_lookup in Hall.
      apply (Hall (k - S i)%nat). rewrite Hrun.
      rewrite lookup_take_lt by lia.
      rewrite lookup_drop. by replace (S i + (k - S i))%nat with k by lia.
    + by rewrite <- lookup_drop.
    + by apply Hend.
  - apply lookup_ge_None in Hfound. rewrite Hrun in Hall.
    by rewrite take_ge in Hall.
Qed.

Section Outcomes.

Context {G E : Type} (gpf : jsstring → Z → Z → Z → Completion E G).
Context (fl : FlattenedLines.t).
Context (Hindexed : indexed (FlattenedLines.flatLineTokens fl)).

Lemma factoryCase_thrownFor i flatToken v e :
  FlattenedLines.flatLineTokens fl !! i = Some flatToken →
  factoryCase gpf fl flatToken v = Throws e →
  thrownFor gpf fl e.
Proof using Hindexed.
  intros Hi.
  unfold factoryCase, readMultilineComment, readQuotedIdentifier, readTextLiteral.
  destruct (FlatLineToken.kind flatToken) eqn:Hkind; try done.
  - pose proof (collectWhileContent_cases _ _ _ MultilineCommentContent Hindexed Hi)
      as Hcases.
    destruct (FlatLineCollection.maybeTokenEnd _) as [found|].
    + destruct (Kind_eqb _ _) eqn:Hend; [done|]. intros [= <-].
      apply Kind_eqb_neq in Hend.
      destruct Hcases as (j & Hij & Hrun & Hj & Hcontent).
      by exists MComment, i, j, flatToken.
    + destruct (graphemePositionStartFrom _ _ _ _) eqn:Hposition;
        intros [= <-]; by exists MComment, i, flatToken.
  - pose proof (collectWhileContent_cases _ _ _ QuotedIdentifierContent Hindexed Hi)
      as Hcases.
    destruct (FlatLineCollection.maybeTokenEnd _) as [found|].
    + destruct (Kind_eqb _ _) eqn:Hend; [done|]. intros [= <-].
      apply Kind_eqb_neq in Hend.
      destruct Hcases as (j & Hij & Hrun & Hj & Hcontent).
      by exists MQuotedIdentifier, i, j, flatToken.
    + destruct (graphemePositionStartFrom _ _ _ _) eqn:Hposition;
        intros [= <-]; by exists MQuotedIdentifier, i, flatToken.
  - pose proof (collectWhileContent_cases _ _ _ TextLiteralContent Hindexed Hi)
      as Hcases.
    destruct (FlatLineCollection.maybeTokenEnd _) as [found|].
    + destruct (Kind_eqb _ _) eqn:Hend; [done|]. intros [= <-].
      apply Kind_eqb_neq in Hend.
      destruct Hcases as (j & Hij & Hrun & Hj & Hcontent).
      by exists MTextLiteral, i, j, flatToken.
    + destruct (graphemePositionStartFrom _ _ _ _) eqn:Hposition;
        intros [= <-]; by exists MTextLiteral, i, flatToken.
Qed.

Lemma factoryLoop_thrownFor fuel : ∀ v e,
  factoryLoop gpf fuel fl v = Some (Throws e) → thrownFor gpf fl e.
Proof using Hindexed.
  induction fuel as [|fuel IH]; intros v e Hloop; [done|].
  simpl in Hloop.
  destruct (FlattenedLines.flatLineTokens fl !! f_flatIndex v)
    as [flatToken|] eqn:Hlook; [|done].
  destruct (factoryCase gpf fl flatToken v) as [v'|e'] eqn:Hcase.
  - by eapply IH.
  - injection Hloop as ->. by eapply factoryCase_thrownFor.
Qed.

End Outcomes.

(** X8: [factory] always completes, and in one of four ways. It returns a
    snapshot with the text and the table of line terminators of the flattened
    lines; or it throws the unterminated-token error for a start token that is
    followed by content only, with the kind of its construct and the grapheme
    position that [graphemePositionFrom] returns for the start token; or it
    throws what [graphemePositionFrom] throws for such a start token; or it
    throws the invariant error with a token that ends the content run of a
    start token and is not of the end kind. *)
Theorem factory_outcomes {G E} (gpf : jsstring → Z → Z → Z → Completion E G)
    (state : Lexer.State) :
  ∃ completion,
    factory gpf state = Some completion
    ∧ match completion with
      | Returns snapshot =>
          LexerSnapshot.text snapshot = FlattenedLines.text (flattenLineTokens state)
          ∧ LexerSnapshot.lineTerminators snapshot
            = FlattenedLines.lineTerminators (flattenLineTokens state)
      | Throws e => thrownFor gpf (flattenLineTokens state) e
      end.
Proof.
  unfold factory.
  destruct (factoryLoop_total gpf (flattenLineTokens state)
              (flattenLineTokens_indexed state)
              (length (FlattenedLines.flatLineTokens (flattenLineTokens state)))
              {| f_tokens := []; f_comments := []; f_flatIndex := 0 |})
    as [r Hr]; [simpl; lia|].
  rewrite Hr. destruct r as [v|e]; eexists; (split; [reflexivity|]).
  - done.
  - by eapply factoryLoop_thrownFor; [apply flattenLineTokens_indexed|].
Qed.

Lemma factory_outcomes_witness :
  ∃ completion,
    factory graphemeWithin faultBeforeStart = Some completion
    ∧ match completion with
      | Returns snapshot =>
          LexerSnapshot.text snapshot
          = FlattenedLines.text (flattenLineTokens faultBeforeStart)
          ∧ LexerSnapshot.lineTerminators snapshot
            = FlattenedLines.lineTerminators (flattenLineTokens faultBeforeStart)
      | Throws e => thrownFor graphemeWithin (flattenLineTokens faultBeforeStart) e
      end.
Proof. exact (factory_outcomes graphemeWithin faultBeforeStart). Defined.

(** ** The window of a token that lies in one line *)

Lemma lineOffset_nonneg lines : ∀ n, 0 ≤ lineOffset lines n.
Proof.
  induction lines as [|l lines IH]; intros [|n]; simpl; try lia.
  specialize (IH n). pose proof (strlen_nonneg (Lexer.TLine.text l)).
  pose proof (strlen_nonneg (Lexer.TLine.lineTerminator l)). lia.
Qed.

Lemma substringWindow_line lines : ∀ n line lineTextOffset startCodeUnit endCodeUnit end0,
  lines !! n = Some line →
  (∀ m l, (m < n)%nat → lines !! m = Some l → Lexer.TLine.lineTerminator l ≠ []) →
  lineTextOffset + lineOffset lines n ≤ startCodeUnit
    ≤ lineTextOffset + lineOffset lines n + strlen (Lexer.TLine.text line) →
  lineTextOffset + lineOffset lines n ≤ endCodeUnit
    ≤ lineTextOffset + lineOffset lines n + strlen (Lexer.TLine.text line) →
  substringWindow (terminatorsFrom lineTextOffset lines) startCodeUnit endCodeUnit
    lineTextOffset end0
  = (lineTextOffset + lineOffset lines n,
     lineTextOffset + lineOffset lines n + strlen (Lexer.TLine.text line)
     + strlen (Lexer.TLine.lineTerminator line)).
Proof.
  induction lines as [|l lines IH];
    intros n line lineTextOffset startCodeUnit endCodeUnit end0 Hline Hterm Hs He;
    [done|].
  destruct n as [|n].
  - injection Hline as <-. simpl in *.
    destruct (Z.ltb_spec (lineTextOffset + strlen (Lexer.TLine.text l)) startCodeUnit);
      [lia|].
    destruct (Z.geb_spec (lineTextOffset + strlen (Lexer.TLine.text l)) endCodeUnit);
      [|lia].
    f_equal; lia.
  - simpl in Hline.
    assert (0 < strlen (Lexer.TLine.lineTerminator l)) as Hpos.
    { specialize (Hterm 0%nat l ltac:(lia) eq_refl).
      unfold strlen. destruct (Lexer.TLine.lineTerminator l); [done|]. simpl. lia. }
    change (lineOffset (l :: lines) (S n))
      with (strlen (Lexer.TLine.text l) + strlen (Lexer.TLine.lineTerminator l)
            + lineOffset lines n) in *.
    pose proof (lineOffset_nonneg lines n) as Hoff.
    pose proof (strlen_nonneg (Lexer.TLine.text l)) as Htext.
    simpl.
    destruct (Z.ltb_spec (lineTextOffset + strlen (Lexer.TLine.text l)) startCodeUnit);
      [|lia].
    destruct (Z.geb_spec (lineTextOffset + strlen (Lexer.TLine.text l)) endCodeUnit);
      [lia|].
    rewrite (IH n line); [f_equal; lia|done| |lia|lia].
    intros m l' Hm Hl'. apply (Hterm (S m) l'); [lia|done].
Qed.

Lemma substring_clamped (pre mid : jsstring) (b : Z) :
  strlen pre + strlen mid ≤ b →
  substring (pre ++ mid) (strlen pre) b = mid.
Proof.
  unfold substring, clamp, strlen. rewrite length_app. intros Hb.
  rewrite Nat2Z.id.
  rewrite (Nat.min_l (length pre)) by lia.
  rewrite (Nat.min_r (Z.to_nat b)) by lia.
  rewrite Nat.min_l, Nat.max_r by lia.
  rewrite drop_app_length. apply take_ge. lia.
Qed.

Lemma textWithInnerTerminators_last lines : ∀ n line,
  lines !! n = Some line → S n = length lines →
  ∃ pre, textWithInnerTerminators lines = pre ++ Lexer.TLine.text line
         ∧ strlen pre = lineOffset lines n.
Proof.
  intros n line Hline Hlast.
  destruct (textWithInnerTerminators_split _ _ _ Hline) as (pre & post & Heq & Hpre & _).
  exists pre. split; [|done].
  assert (post = []) as ->; [|by rewrite Heq, app_nil_r].
  revert n line pre post Hline Hlast Heq Hpre.
  induction lines as [|l lines IH]; intros n line pre post Hline Hlast Heq Hpre; [done|].
  destruct n as [|n].
  - injection Hline as ->. destruct lines; [|done]. simpl in *.
    destruct pre; [|done]. simpl in Heq.
    apply (f_equal length) in Heq. rewrite length_app in Heq.
    destruct post; [done|]. simpl in Heq. lia.
  - destruct lines as [|l' lines]; [done|].
    change (textWithInnerTerminators (l :: l' :: lines))
      with (Lexer.TLine.text l ++ Lexer.TLine.lineTerminator l
            ++ textWithInnerTerminators (l' :: lines)) in Heq.
    change (lineOffset (l :: l' :: lines) (S n))
      with (strlen (Lexer.TLine.text l) + strlen (Lexer.TLine.lineTerminator l)
            + lineOffset (l' :: lines) n) in Hpre.
    simpl in Hline.
    assert (∃ pre', pre = Lexer.TLine.text l ++ Lexer.TLine.lineTerminator l ++ pre')
      as [pre' ->].
    { exists (drop (length (Lexer.TLine.text l ++ Lexer.TLine.lineTerminator l)) pre).
      rewrite app_assoc.
      pose proof (lineOffset_nonneg (l' :: lines) n) as Hoff.
      rewrite app_assoc in Heq.
      apply (f_equal (take (length (Lexer.TLine.text l ++ Lexer.TLine.lineTerminator l))))
        in Heq.
      rewrite take_app_length in Heq.
      rewrite take_app_le in Heq
        by (unfold strlen in *; rewrite length_app; lia).
      rewrite Heq at 1. by rewrite take_drop. }
    rewrite <- !app_assoc in Heq. apply app_inv_head in Heq. apply app_inv_head in Heq.
    apply (IH n line pre' post Hline); [simpl in *; lia|done|].
    unfold strlen in *. rewrite !length_app in Hpre. lia.
Qed.

(** X9: For a token that lies within the text of line [n], all lines before which
    end in a non-empty terminator, [graphemePositionStartFrom] calls
    [graphemePositionFrom] on the text of the line followed by its terminator
    (without the terminator for the last line, which the text leaves out),
    with the start of the token within the line, the number of the line, and
    the end of the token within the whole text. *)
Theorem graphemePositionStartFrom_line {G} (gpf : jsstring → Z → Z → Z → G)
    (state : Lexer.State) (n flatIndex : nat) (line : Lexer.TLine.t)
    (lineToken : Lexer.LineToken.t) :
  Lexer.lines state !! n = Some line →
  (∀ m l, (m < n)%nat → Lexer.lines state !! m = Some l →
          Lexer.TLine.lineTerminator l ≠ []) →
  0 ≤ Lexer.LineToken.positionStart lineToken ≤ strlen (Lexer.TLine.text line) →
  0 ≤ Lexer.LineToken.positionEnd lineToken ≤ strlen (Lexer.TLine.text line) →
  graphemePositionStartFrom gpf
    (FlattenedLines.text (flattenLineTokens state))
    (FlattenedLines.lineTerminators (flattenLineTokens state))
    (inr (flatOf (lineOffset (Lexer.lines state) n) n flatIndex lineToken))
  = gpf (Lexer.TLine.text line
         ++ (if decide (S n < length (Lexer.lines state))%nat
             then Lexer.TLine.lineTerminator line else []))
      (Lexer.LineToken.positionStart lineToken)
      (Z.of_nat n)
      (lineOffset (Lexer.lines state) n + Lexer.LineToken.positionEnd lineToken).
Proof.
  intros Hline Hterm Hs He.
  rewrite flattenLineTokens_lineTerminators, flattenLineTokens_text.
  unfold graphemePositionStartFrom, positionStartOf, positionEndOf, flatOf.
  cbn [FlatLineToken.positionStart FlatLineToken.positionEnd codeUnit lineCodeUnit
       lineNumber].
  rewrite (substringWindow_line _ n line 0) by (simpl; done || lia).
  f_equal. rewrite !Z.add_0_l.
  destruct (decide (S n < length (Lexer.lines state))%nat) as [Hlt|Hge].
  - destruct (textWithInnerTerminators_split _ _ _ Hline)
      as (pre & post & -> & Hpre & Hpost).
    destruct (Hpost Hlt) as [post' ->]. rewrite <- Hpre.
    rewrite (app_assoc (Lexer.TLine.text line)).
    rewrite <- Z.add_assoc.
    replace (strlen (Lexer.TLine.text line) + strlen (Lexer.TLine.lineTerminator line))
      with (strlen (Lexer.TLine.text line ++ Lexer.TLine.lineTerminator line))
      by (unfold strlen; rewrite length_app; lia).
    apply substring_middle.
  - pose proof (lookup_lt_Some _ _ _ Hline) as Hn.
    destruct (textWithInnerTerminators_last _ _ _ Hline ltac:(lia)) as (pre & -> & Hpre).
    rewrite <- Hpre, app_nil_r. apply substring_clamped.
    pose proof (strlen_nonneg (Lexer.TLine.lineTerminator line)). lia.
Qed.

Lemma graphemePositionStartFrom_line_witness :
  graphemePositionStartFrom graphemeArguments
    (FlattenedLines.text (flattenLineTokens mixedLines))
    (FlattenedLines.lineTerminators (flattenLineTokens mixedLines))
    (inr (flatOf 7 1 3 (lineToken Identifier "y" 8 9)))
  = (str "/* d */ y", 8, 1, 16).
Proof.
  exact (graphemePositionStartFrom_line graphemeArguments mixedLines 1 3
           (line "/* d */ y" "" _) (lineToken Identifier "y" 8 9) eq_refl
           ltac:(intros [|[|m]] l Hm Hl; [by injection Hl as <-|lia|lia])
           ltac:(by vm_compute) ltac:(by vm_compute)).
Defined.

(** ** One-line multiline comments *)

(** X19: for a flat token of kind [MultilineComment], one turn of the loop of
    [factory] appends one comment of kind [Multiline] that carries the data
    and the positions of the token, and whose [containsNewline] is false: the
    token starts and ends on the same line. *)
Theorem multilineComment_containsNewline {G E} (gpf : jsstring → Z → Z → Z → Completion E G)
    (state : Lexer.State) (i : nat) (flatToken : FlatLineToken.t) (v : FactoryVars) :
  FlattenedLines.flatLineTokens (flattenLineTokens state) !! i = Some flatToken →
  FlatLineToken.kind flatToken = MultilineComment →
  factoryCase gpf (flattenLineTokens state) flatToken v
  = Returns {| f_tokens := f_tokens v;
               f_comments :=
                 f_comments v
                 ++ [ {| Comment.kind := Multiline;
                         Comment.data := FlatLineToken.data flatToken;
                         Comment.containsNewline := false;
                         Comment.positionStart := FlatLineToken.positionStart flatToken;
                         Comment.positionEnd := FlatLineToken.positionEnd flatToken |} ];
               f_flatIndex := f_flatIndex v |}.
Proof.
  intros Hlook Hkind. unfold factoryCase. rewrite Hkind.
  pose proof (flattenLineTokens_singleLine state) as Hone.
  rewrite Forall_lookup in Hone. specialize (Hone _ _ Hlook).
  unfold readSingleLineMultilineComment. unfold singleLine in Hone.
  by rewrite Hone, Z.eqb_refl.
Qed.

Lemma multilineComment_containsNewline_witness :
  ∃ flatToken,
    FlattenedLines.flatLineTokens (flattenLineTokens mixedLines) !! 2%nat
    = Some flatToken
    ∧ factoryCase graphemeWithin (flattenLineTokens mixedLines) flatToken
        {| f_tokens := []; f_comments := []; f_flatIndex := 2 |}
      = Returns
          {| f_tokens := [];
             f_comments :=
               [ {| Comment.kind := Multiline; Comment.data := str "/* d */";
                    Comment.containsNewline := false;
                    Comment.positionStart :=
                      {| codeUnit := 7; lineCodeUnit := 0; lineNumber := 1 |};
                    Comment.positionEnd :=
                      {| codeUnit := 14; lineCodeUnit := 7; lineNumber := 1 |} |} ];
             f_flatIndex := 2 |}.
Proof.
  eexists. split; [reflexivity|].
  exact (multilineComment_containsNewline graphemeWithin mixedLines 2 _
           {| f_tokens := []; f_comments := []; f_flatIndex := 2 |} eq_refl eq_refl).
Defined.

(** * Properties of the arena *)

Import ParserContext.
Local Open Scope arena_scope.

(** ** The increment of the counter *)

(** Up to [2 ^ 53], adding one is exact. *)
Lemma numberAdd_exact n : - (2 ^ 53) ≤ n < 2 ^ 53 → numberAdd n 1 = n + 1.
Proof.
  intros Hn. unfold numberAdd, toDouble.
  destruct (Z.leb_spec (Z.abs (n + 1)) (2 ^ 53)) as [_|Habs]; [done|].
  change (2 ^ 53) with 9007199254740992 in *. lia.
Qed.

Lemma toDouble_pos z : 0 < z → 0 < toDouble z.
Proof.
  intros Hz. unfold toDouble.
  destruct (Z.leb_spec (Z.abs z) (2 ^ 53)) as [_|Habs]; [done|].
  rewrite Z.abs_eq in * by lia.
  assert (53 ≤ Z.log2 z) as Hlog.
  { change 53 with (Z.log2 (2 ^ 53)). apply Z.log2_le_mono. lia. }
  pose proof (Z.log2_spec z Hz) as [Hlow _].
  set (k := Z.log2 z) in *.
  assert (0 < 2 ^ (k - 52)) as Hulp by (apply Z.pow_pos_nonneg; lia).
  assert (2 ^ (k - 52) ≤ z) as Hle.
  { etransitivity; [|exact Hlow]. apply Z.pow_le_mono_r; lia. }
  assert (1 ≤ z / 2 ^ (k - 52)) as Hq.
  { apply Z.div_le_lower_bound; lia. }
  cbv zeta.
  repeat match goal with |- context [if ?b then _ else _] => destruct b end; nia.
Qed.

(** From a counter that is not negative, adding one gives an id above 0. *)
Lemma numberAdd_pos n : 0 ≤ n → 0 < numberAdd n 1.
Proof. intros Hn. apply toDouble_pos. lia. Qed.

(** ** Running a computation backwards *)

Lemma bind_inv {A B} (m : M A) (k : A → M B) σ σ' out :
  bind m k σ = Some (σ', out) →
  (∃ σ1 a, m σ = Some (σ1, Return a) ∧ k a σ1 = Some (σ', out))
  ∨ (∃ e, m σ = Some (σ', Throw e) ∧ out = Throw e).
Proof.
  unfold bind. destruct (m σ) as [[σ1 [a|e]]|]; [eauto| |done].
  intros [= <- <-]. eauto.
Qed.

Lemma ret_inv {A} (a : A) σ σ' out :
  ret a σ = Some (σ', out) → σ' = σ ∧ out = Return a.
Proof. by intros [= <- <-]. Qed.

Lemma throw_inv {A} e σ σ' (out : Outcome A) :
  throw e σ = Some (σ', out) → σ' = σ ∧ out = Throw e.
Proof. by intros [= <- <-]. Qed.

Lemma read_inv {A} (c : Cell A) l σ σ' out :
  read c l σ = Some (σ', out) →
  σ' = σ ∧ ∃ a, get c σ !! l = Some a ∧ out = Return a.
Proof.
  unfold read. destruct (get c σ !! l); [|done]. intros [= <- <-]. eauto.
Qed.

Lemma write_inv {A} (c : Cell A) l a σ σ' out :
  write c l a σ = Some (σ', out) →
  is_Some (get c σ !! l) ∧ σ' = put c (<[l:=a]> (get c σ)) σ ∧ out = Return tt.
Proof.
  unfold write. destruct (get c σ !! l); [|done]. intros [= <- <-]. eauto.
Qed.

Lemma alloc_inv {A} (c : Cell A) a σ σ' out :
  alloc c a σ = Some (σ', out) →
  σ' = put c (get c σ ++ [a]) σ ∧ out = Return (length (get c σ)).
Proof. by intros [= <- <-]. Qed.

(** Further computations that [run_inv] knows how to run backwards. *)
Ltac run_inv_known H := fail.

(** Backwards through the computation of hypothesis [H]. *)
Ltac run_inv H :=
  first [ run_inv_known H | lazymatch type of H with
  | bind _ _ _ = Some _ =>
      let H1 := fresh "Hrun" in
      let H2 := fresh "Hrun" in
      apply bind_inv in H as [(? & ? & H1 & H2)|(? & H1 & ?)];
      [run_inv H1; try run_inv H2|simplify_eq; run_inv H1]
  | ret _ _ = Some _ => apply ret_inv in H as [-> ?]; simplify_eq
  | throw _ _ = Some _ => apply throw_inv in H as [-> ?]; simplify_eq
  | read _ _ _ = Some _ =>
      let Hl := fresh "Hread" in
      apply read_inv in H as [-> (? & Hl & ?)]; simplify_eq
  | write _ _ _ _ = Some _ =>
      let Hl := fresh "Hwrite" in
      apply write_inv in H as (Hl & -> & ?); simplify_eq
  | alloc _ _ _ = Some _ => apply alloc_inv in H as [-> ?]; simplify_eq
  | (if ?b then _ else _) _ = Some _ => destruct b eqn:?; run_inv H
  | (match ?o with Some _ => _ | None => _ end) _ = Some _ =>
      destruct o eqn:?; run_inv H
  | _ => idtac
  end ].

Lemma expectNode_inv nodesById nodeId σ σ' out :
  expectNode nodesById nodeId σ = Some (σ', out) →
  σ' = σ ∧ ∃ m, maps σ !! nodesById = Some m
    ∧ out = match m !! nodeId with
            | Some node => Return node
            | None => Throw (NodeIdNotInState nodeId)
            end.
Proof.
  unfold expectNode, maybeGetNode. intros H. run_inv H.
  - split; [done|]. eexists. split; [done|]. by rewrite Heqo.
  - split; [done|]. eexists. split; [done|]. by rewrite Heqo.
Qed.

Ltac run_inv_known H ::=
  lazymatch type of H with
  | expectNode _ _ _ = Some _ =>
      let Hl := fresh "Hread" in
      apply expectNode_inv in H as [-> (? & Hl & ?)]; simplify_eq
  end.

(** ** What the operations do to the states *)

Lemma addChild_states state maybeParent nodeKind tokenStart σ σ' out :
  addChild state maybeParent nodeKind tokenStart σ = Some (σ', out) →
  ∃ st child nd,
    states σ !! state = Some st
    ∧ out = Return child
    ∧ states σ'
      = <[state := setNodeIdCounter (numberAdd (nodeIdCounter st) 1) st]> (states σ)
    ∧ nodes σ' !! child = Some nd
    ∧ nodeId nd = numberAdd (nodeIdCounter st) 1.
Proof.
  unfold addChild. intros H. run_inv H; simpl in *.
  all: repeat match goal with
         | H : <[_:=_]> _ !! _ = Some _ |- _ =>
             rewrite list_lookup_insert_eq in H by (by eapply lookup_lt_Some); simplify_eq
         end.
  all: eexists _, _, _; split; [done|]; split; [done|]; split; [done|].
  all: split; [apply list_lookup_middle; done|done].
Qed.

Lemma endContext_states state oldNode astNode σ σ' out :
  endContext state oldNode astNode σ = Some (σ', out) →
  states σ' = states σ.
Proof.
  unfold endContext. intros H. run_inv H; simpl in *; done.
Qed.

Lemma deleteContext_states state node σ σ' out :
  deleteContext state node σ = Some (σ', out) →
  ∃ st, states σ !! state = Some st
    ∧ (states σ' = states σ
       ∨ ∃ a, states σ' = <[state := setTerminalNodeIds a st]> (states σ)).
Proof.
  unfold deleteContext. intros H. run_inv H; simpl in *.
  all: eexists; (split; [done|]); eauto.
Qed.

(** ** What [deepCopy] does to the store *)

Lemma deepCopyNode_frame node σ σ' out :
  deepCopyNode node σ = Some (σ', out) →
  ∃ nd ast,
    nodes σ !! node = Some nd
    ∧ out = Return (length (nodes σ))
    ∧ nodes σ' = nodes σ ++ [setMaybeAstNode ast nd]
    ∧ asts σ `prefix_of` asts σ'
    ∧ arrays σ' = arrays σ ∧ maps σ' = maps σ
    ∧ roots σ' = roots σ ∧ states σ' = states σ.
Proof.
  unfold deepCopyNode. intros H. run_inv H; simpl in *.
  all: eexists _, _; split; [done|]; split; [done|]; split; [done|].
  all: split; [|done].
  - by apply prefix_app_r.
  - done.
Qed.

Ltac run_inv_known H ::=
  lazymatch type of H with
  | expectNode _ _ _ = Some _ =>
      let Hl := fresh "Hread" in
      apply expectNode_inv in H as [-> (? & Hl & ?)]; simplify_eq
  | deepCopyNode _ _ = Some _ =>
      let Hl := fresh "Hread" in
      let Hn := fresh "Hnodes" in
      let Ha := fresh "Hasts" in
      let H1 := fresh "Harrays" in
      let H2 := fresh "Hmaps" in
      let H3 := fresh "Hroots" in
      let H4 := fresh "Hstates" in
      apply deepCopyNode_frame in H as (? & ? & Hl & ? & Hn & Ha & H1 & H2 & H3 & H4);
      simplify_eq
  end.

Lemma copyEntries_frame nodesById entries : ∀ σ σ' out,
  copyEntries nodesById entries σ = Some (σ', out) →
  out = Return tt
  ∧ nodes σ `prefix_of` nodes σ'
  ∧ asts σ `prefix_of` asts σ'
  ∧ arrays σ' = arrays σ ∧ roots σ' = roots σ ∧ states σ' = states σ
  ∧ length (maps σ') = length (maps σ)
  ∧ ∀ l, l ≠ nodesById → maps σ' !! l = maps σ !! l.
Proof.
  induction entries as [|[key value] entries IH]; intros σ σ' out H; simpl in H.
  - run_inv H. by repeat split.
  - run_inv H. simpl in *.
    match goal with
    | H : copyEntries _ _ _ = Some _ |- _ =>
        apply IH in H as (Hout & Hn & Ha & Harr & Hro & Hst & Hlen & Hother)
    end. simpl in *.
    split; [done|].
    split; [etrans; [|exact Hn]; rewrite Hnodes; by apply prefix_app_r|].
    split; [by etrans|].
    rewrite Harr, Hro, Hst, Harrays, Hroots, Hstates.
    repeat split; try done.
    + by rewrite Hlen, length_insert, Hmaps.
    + intros l Hl. rewrite Hother by done.
      rewrite list_lookup_insert_ne by done. by rewrite Hmaps.
Qed.

(** [deepCopy] returns a new state that carries the counter of the state
    copied, a new array with the terminal ids, and a root that holds whatever
    the new map files under id 0; no object of the store is changed. *)
Lemma deepCopy_frame state σ σ' out :
  deepCopy state σ = Some (σ', out) →
  ∃ st copy,
    states σ !! state = Some st
    ∧ out = Return (length (states σ))
    ∧ states σ' = states σ ++ [copy]
    ∧ nodeIdCounter copy = nodeIdCounter st
    ∧ terminalsOf σ' (length (states σ)) = terminalsOf σ state
    ∧ rootOf σ' (length (states σ)) = Some (nodeOf σ' (length (states σ)) 0)
    ∧ nodes σ `prefix_of` nodes σ'
    ∧ asts σ `prefix_of` asts σ'
    ∧ arrays σ `prefix_of` arrays σ'
    ∧ maps σ `prefix_of` maps σ'
    ∧ roots σ `prefix_of` roots σ'.
Proof.
  unfold deepCopy, maybeGetNode. intros H. run_inv H; simpl in *.
  all: match goal with
       | H : copyEntries _ _ _ = Some _ |- _ =>
           apply copyEntries_frame
             in H as (Hout & Hn & Ha & Harr & Hroots & Hstates & Hlen & Hmaps)
       end; try discriminate.
  simpl in *.
  match goal with
  | H : maps ?s !! length (maps σ) = Some ?m |- _ =>
      assert (maps s = maps σ ++ [m]) as Hnew
  end.
  { apply list_eq. intros l.
    destruct (decide (l = length (maps σ))) as [->|Hl].
    - by rewrite list_lookup_middle.
    - rewrite Hmaps by done.
      destruct (decide (l < length (maps σ))%nat).
      + by rewrite !lookup_app_l by done.
      + rewrite !lookup_ge_None_2; [done|rewrite length_app; simpl; lia..]. }
  rewrite Harr, Hroots, Hstates, Hnew in *.
  eexists _, _. split; [done|]. split; [done|]. split; [done|]. split; [done|].
  unfold terminalsOf, rootOf, nodeOf, nodeMapOf. simpl.
  rewrite !list_lookup_middle by done. simpl.
  rewrite !list_lookup_middle by done. simpl.
  rewrite Hread.  simpl.
  repeat split; try done; try by apply prefix_app_r.
Qed.

(** ** Running a computation forwards *)

Lemma bind_ret {A B} (a : A) (k : A → M B) σ : bind (ret a) k σ = k a σ.
Proof. done. Qed.

Lemma bind_bind {A B C} (m : M A) (k1 : A → M B) (k2 : B → M C) σ :
  bind (bind m k1) k2 σ = bind m (λ a, bind (k1 a) k2) σ.
Proof. unfold bind. by destruct (m σ) as [[σ1 [a|e]]|]. Qed.

Lemma bind_read {A B} (c : Cell A) l (k : A → M B) σ a :
  get c σ !! l = Some a → bind (read c l) k σ = k a σ.
Proof. intros H. unfold bind, read. by rewrite H. Qed.

Lemma bind_write {A B} (c : Cell A) l a (k : unit → M B) σ :
  is_Some (get c σ !! l) →
  bind (write c l a) k σ = k tt (put c (<[l:=a]> (get c σ)) σ).
Proof. intros [old H]. unfold bind, write. by rewrite H. Qed.

Lemma bind_alloc {A B} (c : Cell A) a (k : loc → M B) σ :
  bind (alloc c a) k σ = k (length (get c σ)) (put c (get c σ ++ [a]) σ).
Proof. done. Qed.

(** [addChild] always returns: on a state whose node map is in the store, and
    under a parent, if any, whose array of child ids is in the store, it
    neither throws nor fails. *)
Lemma addChild_returns state maybeParent nodeKind tokenStart σ st :
  states σ !! state = Some st →
  is_Some (maps σ !! nodesById st) →
  (∀ parent, maybeParent = Some parent →
     ∃ p, nodes σ !! parent = Some p ∧ is_Some (arrays σ !! childNodeIds p)) →
  ∃ σ' child, addChild state maybeParent nodeKind tokenStart σ = Some (σ', Return child).
Proof.
  intros Hst [m Hm] Hparent.
  assert (state < length (states σ))%nat as Hlt by (by eapply lookup_lt_Some).
  unfold addChild.
  erewrite (bind_read stateC) by exact Hst.
  rewrite (bind_write stateC) by (simpl; eauto).
  erewrite (bind_read stateC) by (simpl; by apply list_lookup_insert_eq).
  destruct maybeParent as [parent|].
  - destruct (Hparent parent eq_refl) as (p & Hp & children & Hchildren).
    rewrite bind_bind.
    erewrite (bind_read nodeC) by exact Hp.
    rewrite bind_bind.
    erewrite (bind_read arrayC) by exact Hchildren.
    rewrite bind_bind.
    rewrite (bind_write arrayC) by (simpl; eauto).
    rewrite bind_ret.
    erewrite (bind_read stateC) by (simpl; by apply list_lookup_insert_eq).
    rewrite !bind_alloc.
    erewrite (bind_read mapC) by (simpl; exact Hm).
    rewrite (bind_write mapC) by (simpl; eauto).
    unfold ret. eauto.
  - rewrite bind_ret.
    erewrite (bind_read stateC) by (simpl; by apply list_lookup_insert_eq).
    rewrite !bind_alloc.
    erewrite (bind_read mapC) by (simpl; exact Hm).
    rewrite (bind_write mapC) by (simpl; eauto).
    unfold ret. eauto.
Qed.

(** ** Stores without dangling references *)

Lemma runs_bind {A B} (m : M A) (k : A → M B) Q σ :
  runs m (λ σ1 out, match out with
                    | Return a => runs (k a) Q σ1
                    | Throw e => Q σ1 (Throw e)
                    end) σ →
  runs (bind m k) Q σ.
Proof.
  intros (σ1 & [a|e] & Hm & HQ); unfold runs, bind; rewrite Hm; [done|eauto].
Qed.

Lemma runs_ret {A} (a : A) (Q : Store → Outcome A → Prop) σ :
  Q σ (Return a) → runs (ret a) Q σ.
Proof. intros HQ. by exists σ, (Return a). Qed.

Lemma runs_throw {A} e (Q : Store → Outcome A → Prop) σ :
  Q σ (Throw e) → runs (throw e) Q σ.
Proof. intros HQ. by exists σ, (Throw e). Qed.

Lemma runs_read {A} (c : Cell A) l (Q : Store → Outcome A → Prop) σ :
  (l < length (get c σ))%nat →
  (∀ a, get c σ !! l = Some a → Q σ (Return a)) →
  runs (read c l) Q σ.
Proof.
  intros Hlt HQ. unfold runs, read.
  destruct (get c σ !! l) as [a|] eqn:Ha.
  - eexists _, _. split; [reflexivity|]. by apply HQ.
  - apply lookup_ge_None in Ha. lia.
Qed.

Lemma runs_write {A} (c : Cell A) l a (Q : Store → Outcome unit → Prop) σ :
  (l < length (get c σ))%nat →
  Q (put c (<[l:=a]> (get c σ)) σ) (Return tt) →
  runs (write c l a) Q σ.
Proof.
  intros Hlt HQ. unfold runs, write.
  destruct (get c σ !! l) as [old|] eqn:Hold.
  - eexists _, _. split; [reflexivity|]. done.
  - apply lookup_ge_None in Hold. lia.
Qed.

Lemma runs_alloc {A} (c : Cell A) a (Q : Store → Outcome loc → Prop) σ :
  Q (put c (get c σ ++ [a]) σ) (Return (length (get c σ))) →
  runs (alloc c a) Q σ.
Proof. intros HQ. eexists _, _. eauto. Qed.

Lemma runs_impl {A} (m : M A) (Q Q' : Store → Outcome A → Prop) σ :
  runs m Q σ → (∀ σ' out, Q σ' out → Q' σ' out) → runs m Q' σ.
Proof. intros (σ' & out & Hm & HQ) Himpl. exists σ', out. auto. Qed.

Lemma grows_refl σ : grows σ σ.
Proof. by repeat split. Qed.

Lemma grows_trans σ1 σ2 σ3 : grows σ1 σ2 → grows σ2 σ3 → grows σ1 σ3.
Proof. unfold grows. intros. intuition lia. Qed.

Lemma wfState_grows σ σ' st : grows σ σ' → wfState σ st → wfState σ' st.
Proof. unfold grows, wfState. intros. intuition lia. Qed.

Lemma wfNode_grows σ σ' nd : grows σ σ' → wfNode σ nd → wfNode σ' nd.
Proof.
  unfold grows, wfNode. intros Hg [Hc Ha]. split; [lia|].
  intros a Hnd. specialize (Ha a Hnd). lia.
Qed.

Lemma wfMap_grows σ σ' m : grows σ σ' → wfMap σ m → wfMap σ' m.
Proof.
  unfold grows, wfMap. intros Hg Hm k n Hk. specialize (Hm k n Hk). lia.
Qed.

(** A store that grows, and whose new states, nodes and maps are well formed,
    stays without dangling references. *)
Lemma wf_grows σ σ' :
  wf σ → grows σ σ' →
  (∀ l st, states σ' !! l = Some st → states σ !! l = Some st ∨ wfState σ' st) →
  (∀ l nd, nodes σ' !! l = Some nd → nodes σ !! l = Some nd ∨ wfNode σ' nd) →
  (∀ l m, maps σ' !! l = Some m → maps σ !! l = Some m ∨ wfMap σ' m) →
  wf σ'.
Proof.
  intros (Hs & Hn & Hm) Hg Hs' Hn' Hm'. unfold wf. rewrite !Forall_lookup in *.
  split; [|split]; intros l x Hx.
  - destruct (Hs' _ _ Hx) as [Hold|Hnew]; [|done].
    eapply wfState_grows; eauto.
  - destruct (Hn' _ _ Hx) as [Hold|Hnew]; [|done].
    eapply wfNode_grows; eauto.
  - destruct (Hm' _ _ Hx) as [Hold|Hnew]; [|done].
    eapply wfMap_grows; eauto.
Qed.

Lemma wf_grows_after σ σ1 σ' :
  wf σ1 → grows σ σ1 → grows σ1 σ' →
  (∀ l st, states σ' !! l = Some st → states σ1 !! l = Some st ∨ wfState σ' st) →
  (∀ l nd, nodes σ' !! l = Some nd → nodes σ1 !! l = Some nd ∨ wfNode σ' nd) →
  (∀ l m, maps σ' !! l = Some m → maps σ1 !! l = Some m ∨ wfMap σ' m) →
  wf σ' ∧ grows σ σ'.
Proof.
  intros Hwf Hg Hg1 Hs Hn Hm. split.
  - by apply (wf_grows σ1).
  - by apply (grows_trans σ σ1).
Qed.

Lemma wf_state σ l st : wf σ → states σ !! l = Some st → wfState σ st.
Proof. intros (Hs & _ & _) Hl. rewrite Forall_lookup in Hs. eauto. Qed.

Lemma wf_node σ l nd : wf σ → nodes σ !! l = Some nd → wfNode σ nd.
Proof. intros (_ & Hn & _) Hl. rewrite Forall_lookup in Hn. eauto. Qed.

Lemma wf_map σ l m : wf σ → maps σ !! l = Some m → wfMap σ m.
Proof. intros (_ & _ & Hm) Hl. rewrite Forall_lookup in Hm. eauto. Qed.

(** Lengths of the lists of a store after its primitive changes. *)
Ltac lengths :=
  unfold grows, wfState, wfNode in *; simpl in *;
  rewrite ?length_app, ?length_insert in *; simpl in *;
  repeat match goal with
         | H : _ !! _ = Some _ |- _ => apply lookup_lt_Some in H
         end;
  rewrite ?length_app, ?length_insert in *; simpl in *;
  intuition (try lia).

(** A map that is well formed stays so when a node of the store is filed in
    it or an id is removed from it. *)
Lemma wfMap_insert σ σ' (m : NodeMap) k n :
  wfMap σ m → grows σ σ' → (n < length (nodes σ'))%nat → wfMap σ' (<[k:=n]> m).
Proof.
  intros Hm Hg Hn k' n' [[-> ->]|[_ Hk]]%lookup_insert_Some; [done|].
  eapply wfMap_grows; eauto.
Qed.

Lemma wfMap_delete σ σ' (m : NodeMap) k :
  wfMap σ m → grows σ σ' → wfMap σ' (delete k m).
Proof.
  intros Hm Hg k' n' [_ Hk]%lookup_delete_Some. eapply wfMap_grows; eauto.
Qed.

Lemma wfMap_empty σ : wfMap σ ∅.
Proof. intros k n Hk. by rewrite lookup_empty in Hk. Qed.

(** Where the objects of a changed list come from. *)
Ltac origin H :=
  simpl in H;
  repeat first
    [ apply list_lookup_insert_Some in H as [(? & <- & ?)|[? H]]
    | apply lookup_app_Some in H as [H|[? H]]
    | apply list_lookup_singleton_Some in H as [? <-] ].

Lemma addChild_runs state maybeParent nodeKind tokenStart σ :
  wf σ → validCall σ (CallAddChild state maybeParent nodeKind tokenStart) →
  runs (addChild state maybeParent nodeKind tokenStart)
    (λ σ' out, wf σ' ∧ grows σ σ' ∧ ∃ child, out = Return child) σ.
Proof.
  intros Hwf [Hstate Hparent]. unfold addChild.
  apply runs_bind, runs_read; [done|]. intros st Hst. simpl in Hst.
  pose proof (wf_state _ _ _ Hwf Hst) as (Hroot & Hmap & Hterm).
  apply runs_bind, runs_write; [done|].
  apply runs_bind, runs_read; [lengths|]. intros st' Hst'. simpl in Hst'.
  rewrite list_lookup_insert_eq in Hst' by done. injection Hst' as <-.
  apply runs_bind.
  destruct maybeParent as [parent|].
  - apply runs_bind, runs_read; [by apply Hparent|]. intros p Hp. simpl in Hp.
    pose proof (wf_node _ _ _ Hwf Hp) as (Hchildren & Hast).
    apply runs_bind, runs_read; [done|]. intros children _.
    apply runs_bind, runs_write; [done|].
    apply runs_ret.
    apply runs_bind, runs_read; [lengths|]. intros st' Hst'. simpl in Hst'.
    rewrite list_lookup_insert_eq in Hst' by done. injection Hst' as <-.
    apply runs_bind, runs_alloc. apply runs_bind, runs_alloc.
    apply runs_bind, runs_read; [lengths|]. intros m Hm. simpl in Hm.
    pose proof (wf_map _ _ _ Hwf Hm) as Hwfm.
    apply runs_bind, runs_write; [lengths|]. apply runs_ret.
    split; [|split; [lengths|eauto]].
    apply (wf_grows σ); [done|lengths|..].
    + intros l x Hx. origin Hx; first [by left|right; by lengths].
    + intros l x Hx. origin Hx; first [by left|right; by lengths].
    + intros l x Hx. origin Hx; first [by left|right].
      eapply wfMap_insert; [done|lengths|lengths].
  - apply runs_ret.
    apply runs_bind, runs_read; [lengths|]. intros st' Hst'. simpl in Hst'.
    rewrite list_lookup_insert_eq in Hst' by done. injection Hst' as <-.
    apply runs_bind, runs_alloc. apply runs_bind, runs_alloc.
    apply runs_bind, runs_read; [lengths|]. intros m Hm. simpl in Hm.
    pose proof (wf_map _ _ _ Hwf Hm) as Hwfm.
    apply runs_bind, runs_write; [lengths|]. apply runs_ret.
    split; [|split; [lengths|eauto]].
    apply (wf_grows σ); [done|lengths|..].
    + intros l x Hx. origin Hx; first [by left|right; by lengths].
    + intros l x Hx. origin Hx; first [by left|right; by lengths].
    + intros l x Hx. origin Hx; first [by left|right].
      eapply wfMap_insert; [done|lengths|lengths].
Qed.

Lemma expectNode_runs nodesById nodeId (Q : Store → Outcome loc → Prop) σ :
  (nodesById < length (maps σ))%nat →
  (∀ out, Q σ out) →
  runs (expectNode nodesById nodeId) Q σ.
Proof.
  intros Hlt HQ. unfold expectNode, maybeGetNode.
  apply runs_bind, runs_bind, runs_read; [done|]. intros m _.
  apply runs_ret. destruct (m !! nodeId); [apply runs_ret|apply runs_throw]; done.
Qed.

Lemma endContext_runs state oldNode astNode σ :
  wf σ → validCall σ (CallEndContext state oldNode astNode) →
  runs (endContext state oldNode astNode) (λ σ' out, wf σ' ∧ grows σ σ') σ.
Proof.
  intros Hwf (Hstate & Hnode & Hast). unfold endContext.
  apply runs_bind, runs_read; [done|]. intros ast _.
  destruct (lookup_lt_is_Some_2 (states σ) state Hstate) as [st Hst].
  pose proof (wf_state _ _ _ Hwf Hst) as (Hroot & Hmap & Hterm).
  assert (∀ σ1, wf σ1 → grows σ σ1 →
            nodes σ1 !! oldNode = nodes σ !! oldNode → states σ1 = states σ →
            runs
              (let* old := read nodeC oldNode in
               let* _ := write nodeC oldNode (setMaybeAstNode (Some astNode) old) in
               match maybeParentId old with
               | Some parentId =>
                   let* st := read stateC state in
                   let* parent := expectNode (nodesById st) parentId in
                   ret (Some parent)
               | None => ret None
               end)
              (λ σ' _, wf σ' ∧ grows σ σ') σ1) as Hrest.
  { intros σ1 Hwf1 Hg Hnodes Hstates.
    apply runs_bind, runs_read; [lengths|]. intros old Hold. simpl in Hold.
    rewrite Hnodes in Hold.
    pose proof (wf_node _ _ _ Hwf Hold) as (Hchildren & Hasts).
    apply runs_bind, runs_write; [lengths|].
    assert (wf (put nodeC (<[oldNode:=setMaybeAstNode (Some astNode) old]> (get nodeC σ1)) σ1)
            ∧ grows σ (put nodeC (<[oldNode:=setMaybeAstNode (Some astNode) old]>
                                    (get nodeC σ1)) σ1)) as Hfinal.
    { split; [|lengths].
      apply (wf_grows σ1); [done|lengths|..].
      - intros l x Hx. by left.
      - intros l x Hx. origin Hx; first [by left|right].
        split; simpl; [lengths|]. intros a [= <-]. lengths.
      - intros l x Hx. by left. }
    destruct (maybeParentId old) as [parentId|]; [|by apply runs_ret].
    apply runs_bind, runs_read; [lengths|]. intros st' Hst'. simpl in Hst'.
    rewrite Hstates, Hst in Hst'. injection Hst' as <-.
    apply runs_bind, expectNode_runs; [lengths|].
    intros [parent|e]; [by apply runs_ret|done]. }
  apply runs_bind. destruct (terminalNode ast).
  - apply runs_bind, runs_read; [done|]. intros st' Hst'. simpl in Hst'.
    rewrite Hst in Hst'. injection Hst' as <-.
    apply runs_bind, runs_read; [done|]. intros old Hold.
    apply runs_bind, runs_read; [done|]. intros terminals _.
    apply runs_write; [done|].
    apply Hrest; [|lengths|done..].
    apply (wf_grows σ); [done|lengths|by left..].
  - apply runs_ret. apply Hrest; [done|apply grows_refl|done..].
Qed.

Lemma deleteContext_runs state node σ :
  wf σ → validCall σ (CallDeleteContext state node) →
  runs (deleteContext state node) (λ σ' out, wf σ' ∧ grows σ σ') σ.
Proof.
  intros Hwf (Hstate & Hnode). unfold deleteContext.
  apply runs_bind, runs_read; [done|]. intros st Hst. simpl in Hst.
  pose proof (wf_state _ _ _ Hwf Hst) as (Hroot & Hmap & Hterm).
  apply runs_bind, runs_read; [done|]. intros nd Hnd.
  apply runs_bind, runs_read; [done|]. intros m Hm. simpl in Hm.
  pose proof (wf_map _ _ _ Hwf Hm) as Hwfm.
  destruct (m !! nodeId nd); [|by apply runs_throw; split; [|apply grows_refl]].
  apply runs_bind, runs_write; [done|].
  apply runs_bind, runs_read; [done|]. intros terminals _.
  assert (∀ σ1 st1, wf σ1 → grows σ σ1 →
            states σ1 !! state = Some st1 → nodesById st1 = nodesById st →
            runs
              (match maybeParentId nd with
               | Some parentId =>
                   let* st := read stateC state in
                   let* parent := expectNode (nodesById st) parentId in
                   let* p := read nodeC parent in
                   let* children := read arrayC (childNodeIds p) in
                   match indexOf children (nodeId nd) with
                   | Some childNodeIndex =>
                       let* fresh := alloc arrayC (removeAt children childNodeIndex) in
                       let* p := read nodeC parent in
                       let* _ := write nodeC parent (setChildNodeIds fresh p) in
                       ret (Some parent)
                   | None => throw (NotListedAsChild (nodeId nd) parentId)
                   end
               | None => ret None
               end)
              (λ σ' _, wf σ' ∧ grows σ σ') σ1) as Hrest.
  { intros σ1 st1 Hwf1 Hg Hst1 Hsame.
    destruct (maybeParentId nd) as [parentId|]; [|by apply runs_ret].
    apply runs_bind, runs_read; [lengths|]. intros st' Hst'. simpl in Hst'.
    rewrite Hst1 in Hst'. injection Hst' as <-.
    unfold expectNode, maybeGetNode.
    apply runs_bind, runs_bind, runs_bind, runs_read; [rewrite Hsame; lengths|].
    intros m1 Hm1. simpl in Hm1. pose proof (wf_map _ _ _ Hwf1 Hm1) as Hwfm1.
    apply runs_ret.
    destruct (m1 !! parentId) as [parent|] eqn:Hparent; [|by apply runs_throw].
    apply runs_ret.
    apply runs_bind, runs_read; [by eapply Hwfm1|]. intros p Hp. simpl in Hp.
    pose proof (wf_node _ _ _ Hwf1 Hp) as (Hchildren & Hasts).
    apply runs_bind, runs_read; [done|]. intros children _.
    destruct (indexOf children (nodeId nd)); [|by apply runs_throw].
    apply runs_bind, runs_alloc.
    apply runs_bind, runs_read; [simpl; by eapply lookup_lt_Some|].
    intros p' Hp'. simpl in Hp'. rewrite Hp in Hp'. injection Hp' as <-.
    apply runs_bind, runs_write; [simpl; by eapply lookup_lt_Some|].
    apply runs_ret.
    apply (wf_grows_after σ σ1); [done|done|lengths|..].
    - intros l x Hx. by left.
    - intros l x Hx. origin Hx; first [by left|right].
      split; simpl; [lengths|]. intros a Ha. specialize (Hasts a Ha). lengths.
    - intros l x Hx. by left. }
  assert (wf (put mapC (<[nodesById st:=delete (nodeId nd) m]> (get mapC σ)) σ))
    as Hwf1.
  { apply (wf_grows σ); [done|lengths|..].
    - intros l x Hx. by left.
    - intros l x Hx. by left.
    - intros l x Hx. origin Hx; first [by left|right].
      eapply wfMap_delete; [done|lengths]. }
  apply runs_bind.
  destruct (indexOf terminals (nodeId nd)) as [terminalIndex|].
  - apply runs_bind, runs_alloc.
    apply runs_bind, runs_read; [lengths|]. intros st' Hst'. simpl in Hst'.
    rewrite Hst in Hst'. injection Hst' as <-.
    apply runs_write; [lengths|].
    eapply Hrest; [|lengths| |].
    + eapply (wf_grows _); [exact Hwf1|lengths|..].
      * intros l x Hx. origin Hx; first [by left|right; by lengths].
      * intros l x Hx. by left.
      * intros l x Hx. by left.
    + simpl. by apply list_lookup_insert_eq.
    + done.
  - apply runs_ret. eapply Hrest; [exact Hwf1|lengths|exact Hst|done].
Qed.

Lemma deepCopyNode_runs node σ :
  wf σ → (node < length (nodes σ))%nat →
  runs (deepCopyNode node)
    (λ σ' out, wf σ' ∧ grows σ σ' ∧ length (maps σ') = length (maps σ)
               ∧ ∃ copy, out = Return copy ∧ (copy < length (nodes σ'))%nat) σ.
Proof.
  intros Hwf Hnode. unfold deepCopyNode.
  apply runs_bind, runs_read; [done|]. intros nd Hnd. simpl in Hnd.
  pose proof (wf_node _ _ _ Hwf Hnd) as (Hchildren & Hasts).
  apply runs_bind. destruct (maybeAstNode nd) as [a|].
  - apply runs_bind, runs_read; [by apply Hasts|]. intros t _.
    apply runs_bind, runs_alloc. apply runs_ret. apply runs_alloc.
    split; [|split; [lengths|split; [done|]]].
    + apply (wf_grows σ); [done|lengths|..].
      * intros l x Hx. by left.
      * intros l x Hx. origin Hx; first [by left|right].
        split; simpl; [lengths|]. intros a' [= <-]. lengths.
      * intros l x Hx. by left.
    + eexists. split; [done|]. lengths.
  - apply runs_ret. apply runs_alloc.
    split; [|split; [lengths|split; [done|]]].
    + apply (wf_grows σ); [done|lengths|..].
      * intros l x Hx. by left.
      * intros l x Hx. origin Hx; first [by left|right].
        split; simpl; [lengths|]. intros a' [=].
      * intros l x Hx. by left.
    + eexists. split; [done|]. lengths.
Qed.

Lemma copyEntries_runs nodesById entries : ∀ σ0 σ,
  wf σ → grows σ0 σ → (nodesById < length (maps σ))%nat →
  Forall (λ e, (e.2 < length (nodes σ))%nat) entries →
  runs (copyEntries nodesById entries)
    (λ σ' out, wf σ' ∧ grows σ0 σ' ∧ out = Return tt) σ.
Proof.
  induction entries as [|[key value] entries IH]; intros σ0 σ Hwf Hg Hmap Hall; simpl.
  - by apply runs_ret.
  - apply Forall_cons in Hall as [Hvalue Hall]. simpl in Hvalue.
    apply runs_bind.
    eapply runs_impl; [by apply deepCopyNode_runs|]. simpl.
    intros σ1 out (Hwf1 & Hg1 & Hlen & copy & -> & Hcopy).
    apply runs_bind, runs_read; [simpl; lia|]. intros m Hm. simpl in Hm.
    pose proof (wf_map _ _ _ Hwf1 Hm) as Hwfm.
    apply runs_bind, runs_write; [simpl; lia|].
    apply IH.
    + apply (wf_grows σ1); [done|lengths|..].
      * intros l x Hx. by left.
      * intros l x Hx. by left.
      * intros l x Hx. origin Hx; first [by left|right].
        eapply wfMap_insert; [done|lengths|lengths].
    + eapply grows_trans; [exact Hg|]. eapply grows_trans; [exact Hg1|]. lengths.
    + simpl. rewrite length_insert. lia.
    + eapply Forall_impl; [exact Hall|]. intros e He. lengths.
Qed.

Lemma deepCopy_runs state σ :
  wf σ → validCall σ (CallDeepCopy state) →
  runs (deepCopy state) (λ σ' out, wf σ' ∧ grows σ σ') σ.
Proof.
  intros Hwf Hstate. simpl in Hstate. unfold deepCopy.
  apply runs_bind, runs_read; [done|]. intros st Hst. simpl in Hst.
  pose proof (wf_state _ _ _ Hwf Hst) as (Hroot & Hmap & Hterm).
  apply runs_bind, runs_alloc.
  apply runs_bind, runs_read; [lengths|]. intros old Hold. simpl in Hold.
  rewrite lookup_app_l in Hold by done. pose proof (wf_map _ _ _ Hwf Hold) as Hwfold.
  apply runs_bind.
  eapply runs_impl.
  { apply (copyEntries_runs _ _ (put mapC (get mapC σ ++ [∅]) σ)).
    - apply (wf_grows σ); [done|lengths|..].
      + intros l x Hx. by left.
      + intros l x Hx. by left.
      + intros l x Hx. origin Hx; first [by left|right]. apply wfMap_empty.
    - apply grows_refl.
    - lengths.
    - apply Forall_forall. intros [k v] Hkv. apply elem_of_map_to_list in Hkv.
      simpl. by eapply Hwfold. }
  simpl. intros σ1 out (Hwf1 & Hg1 & ->).
  assert (grows σ σ1) as Hg by lengths.
  unfold maybeGetNode.
  apply runs_bind, runs_bind, runs_read; [lengths|]. intros m _.
  apply runs_ret. apply runs_bind, runs_alloc.
  apply runs_bind, runs_read; [lengths|]. intros terminals _.
  apply runs_bind, runs_alloc. apply runs_alloc.
  apply (wf_grows_after σ σ1); [done|done|lengths|..].
  - intros l x Hx. origin Hx; first [by left|right]. lengths.
  - intros l x Hx. by left.
  - intros l x Hx. by left.
Qed.

(** On a store without dangling references, every call whose arguments name
    objects of the store runs: it returns or throws, and leaves a store
    without dangling references that holds at least the objects it held. *)
Lemma exec_runs c σ :
  wf σ → validCall σ c → runs (exec c) (λ σ' out, wf σ' ∧ grows σ σ') σ.
Proof.
  intros Hwf Hvalid. destruct c; simpl; apply runs_bind.
  - eapply runs_impl; [by apply addChild_runs|]. simpl.
    intros σ' out (? & ? & child & ->). by apply runs_ret.
  - eapply runs_impl; [by apply endContext_runs|]. simpl.
    intros σ' [n|e] (? & ?); [by apply runs_ret|done].
  - eapply runs_impl; [by apply deleteContext_runs|]. simpl.
    intros σ' [n|e] (? & ?); [by apply runs_ret|done].
  - eapply runs_impl; [by apply deepCopy_runs|]. simpl.
    intros σ' [n|e] (? & ?); [by apply runs_ret|done].
Qed.

Lemma empty_runs σ : wf σ → runs empty (λ σ' out, wf σ' ∧ grows σ σ') σ.
Proof.
  intros Hwf. unfold empty.
  apply runs_bind, runs_alloc. apply runs_bind, runs_alloc.
  apply runs_bind, runs_alloc. apply runs_alloc.
  apply (wf_grows_after σ σ); [done|apply grows_refl|lengths|..].
  - intros l x Hx. origin Hx; first [by left|right]. lengths.
  - intros l x Hx. by left.
  - intros l x Hx. origin Hx; first [by left|right]. apply wfMap_empty.
Qed.

Lemma emptyStore_wf : wf emptyStore.
Proof. by repeat split. Qed.

(** ** The id counter *)

Lemma bind_ret_inv {A B} (m : M A) (f : A → B) σ σ' out :
  bind m (λ a, ret (f a)) σ = Some (σ', out) →
  ∃ out0, m σ = Some (σ', out0)
    ∧ out = match out0 with Return a => Return (f a) | Throw e => Throw e end.
Proof.
  intros H. apply bind_inv in H as [(σ1 & a & Hm & Hret)|(e & Hm & ->)].
  - apply ret_inv in Hret as [-> ->]. eauto.
  - eauto.
Qed.

(** One call: the counter of a state has one added when the call is an
    [addChild] on that state, which then returns the new value of the counter
    as the id, and stays as it is otherwise. *)
Lemma exec_counter c σ σ' out state st :
  exec c σ = Some (σ', out) →
  states σ !! state = Some st →
  ∃ st', states σ' !! state = Some st'
    ∧ if decide (addsChildTo state c)
      then nodeIdCounter st' = numberAdd (nodeIdCounter st) 1
           ∧ allocatedIn state (allocation c out σ')
             = [numberAdd (nodeIdCounter st) 1]
      else nodeIdCounter st' = nodeIdCounter st
           ∧ allocatedIn state (allocation c out σ') = [].
Proof.
  intros Hexec Hst. destruct c as [s p k t|s n a|s n|s]; simpl in Hexec;
    apply bind_ret_inv in Hexec as (out0 & Hop & ->).
  - apply addChild_states in Hop as (st0 & child & nd & Hst0 & -> & Hstates & Hnd & Hid).
    simpl. rewrite Hnd, Hstates. unfold allocatedIn.
    destruct (decide (s = state)) as [->|Hne].
    + simplify_eq. eexists. split.
      * apply list_lookup_insert_eq. by eapply lookup_lt_Some.
      * rewrite filter_cons_True by done. simpl. by rewrite Hid.
    + exists st. split.
      * by rewrite list_lookup_insert_ne.
      * by rewrite filter_cons_False.
  - apply endContext_states in Hop. rewrite Hop. exists st. split; [done|].
    by destruct out0.
  - apply deleteContext_states in Hop as (st0 & Hst0 & [Hstates|(arr & Hstates)]);
      rewrite Hstates.
    + exists st. split; [done|]. by destruct out0.
    + destruct (decide (s = state)) as [->|Hne].
      * simplify_eq. eexists. split.
        -- apply list_lookup_insert_eq. by eapply lookup_lt_Some.
        -- by destruct out0.
      * exists st. split; [by rewrite list_lookup_insert_ne|]. by destruct out0.
  - apply deepCopy_frame in Hop as (st0 & copy & _ & -> & Hstates & _).
    rewrite Hstates. exists st. split.
    + rewrite lookup_app_l; [done|]. by eapply lookup_lt_Some.
    + done.
Qed.

Lemma allocatedIn_app state log1 log2 :
  allocatedIn state (log1 ++ log2) = allocatedIn state log1 ++ allocatedIn state log2.
Proof. unfold allocatedIn. by rewrite filter_app, fmap_app. Qed.

(** A run: as long as the counter stays within [2 ^ 53], the counter of a
    state grows by the number of [addChild] calls on it, and the ids allocated
    in it are the successive values of the counter. *)
Lemma run_counter (cs : list Call) : ∀ (σ σ' : Store) (log : list (loc * Z))
    (state : loc) (st : State),
  run cs σ = Some (σ', log) →
  states σ !! state = Some st →
  - (2 ^ 53) ≤ nodeIdCounter st →
  nodeIdCounter st + Z.of_nat (addChildCount state cs) ≤ 2 ^ 53 →
  ∃ st', states σ' !! state = Some st'
    ∧ nodeIdCounter st' = nodeIdCounter st + Z.of_nat (addChildCount state cs)
    ∧ allocatedIn state log
      = seqZ (nodeIdCounter st + 1) (Z.of_nat (addChildCount state cs)).
Proof.
  induction cs as [|c cs IH]; intros σ σ' log state st Hrun Hst Hlow Hhigh;
    simpl in Hrun.
  - simplify_eq. exists st. split; [done|]. split; [|done].
    change (addChildCount state []) with 0%nat. lia.
  - destruct (exec c σ) as [[σ1 out]|] eqn:Hexec; [|done].
    destruct (run cs σ1) as [[σ2 log']|] eqn:Hrun'; [|done]. simplify_eq.
    destruct (exec_counter _ _ _ _ _ _ Hexec Hst) as (st1 & Hst1 & Hstep).
    unfold addChildCount in Hhigh |- *.
    destruct (decide (addsChildTo state c)) as [Hadd|Hadd].
    + rewrite filter_cons_True in Hhigh |- * by done. simpl length in Hhigh |- *.
      rewrite Nat2Z.inj_succ in Hhigh |- *.
      pose proof (Nat2Z.is_nonneg (length (filter (addsChildTo state) cs))) as Hn.
      destruct Hstep as [Hcounter Hid].
      rewrite numberAdd_exact in Hcounter, Hid by lia.
      destruct (IH _ _ _ _ _ Hrun' Hst1) as (st' & Hst' & Hcount & Hlog).
      { lia. }
      { unfold addChildCount. lia. }
      exists st'. split; [done|].
      rewrite allocatedIn_app, Hlog, Hcount, Hid, Hcounter. unfold addChildCount.
      revert Hn.
      generalize (Z.of_nat (length (filter (addsChildTo state) cs))). intros n Hn.
      split; [lia|].
      rewrite (seqZ_cons _ (Z.succ n)) by lia.
      simpl. f_equal. f_equal; lia.
    + rewrite filter_cons_False in Hhigh |- * by done.
      destruct Hstep as [Hcounter Hid].
      destruct (IH _ _ _ _ _ Hrun' Hst1) as (st' & Hst' & Hcount & Hlog).
      { lia. }
      { unfold addChildCount. lia. }
      exists st'. split; [done|].
      rewrite allocatedIn_app, Hlog, Hcount, Hid, Hcounter. by unfold addChildCount.
Qed.

(** C7 (amended): along every sequence of calls during which the counter of a
    state stays within [2 ^ 53], the counter grows by exactly one at each
    [addChild] on that state and is left as it is by every other call; the
    ids that [addChild] returns for that state are the successive values of
    the counter, so they are pairwise distinct and exceed every value the
    counter had before. *)
Theorem nodeIdCounter_strictly_increases (cs : list Call) (σ σ' : Store)
    (log : list (loc * Z)) (state : loc) (st : State) :
  run cs σ = Some (σ', log) →
  states σ !! state = Some st →
  - (2 ^ 53) ≤ nodeIdCounter st →
  nodeIdCounter st + Z.of_nat (addChildCount state cs) ≤ 2 ^ 53 →
  ∃ st', states σ' !! state = Some st'
    ∧ nodeIdCounter st' = nodeIdCounter st + Z.of_nat (addChildCount state cs)
    ∧ allocatedIn state log
      = seqZ (nodeIdCounter st + 1) (Z.of_nat (addChildCount state cs))
    ∧ NoDup (allocatedIn state log)
    ∧ Forall (λ id, nodeIdCounter st < id ≤ nodeIdCounter st') (allocatedIn state log).
Proof.
  intros Hrun Hst Hlow Hhigh.
  destruct (run_counter _ _ _ _ _ _ Hrun Hst Hlow Hhigh)
    as (st' & Hst' & Hcount & Hlog).
  exists st'. split; [done|]. split; [done|]. split; [done|]. rewrite Hlog. split.
  - apply NoDup_seqZ.
  - apply Forall_forall. intros id Hid. apply elem_of_seqZ in Hid.
    revert Hid Hcount.
    generalize (Z.of_nat (addChildCount state cs)). intros n. lia.
Qed.

(** ** The fault of [deleteContext] *)

Lemma indexOf_None arr x : indexOf arr x = None → x ∉ arr.
Proof.
  induction arr as [|y arr IH]; simpl; [intros _; apply not_elem_of_nil|].
  destruct (Z.eqb_spec y x) as [->|Hne]; [done|].
  destruct (indexOf arr x); [done|]. intros _.
  apply not_elem_of_cons. split; [congruence|]. by apply IH.
Qed.

Lemma removeFirst_NoDup x arr : NoDup arr → x ∉ removeFirst x arr.
Proof.
  unfold removeFirst. induction 1 as [|y arr Hy Hnd IH]; simpl.
  - apply not_elem_of_nil.
  - destruct (Z.eqb_spec y x) as [->|Hne].
    + by unfold removeAt; simpl; rewrite drop_0.
    + destruct (indexOf arr x) as [i|] eqn:Hi; simpl.
      * unfold removeAt in *. simpl.
        apply not_elem_of_cons. split; [congruence|done].
      * apply not_elem_of_cons. split; [congruence|]. by apply indexOf_None.
Qed.

(** C10 (amended): when [deleteContext] raises the fault of a node whose
    recorded parent is in the arena but does not list the node's id among its
    children, it has already changed the state: the node map no longer files
    the node's id, which it did before the call, and the terminal-id list is
    the old one without the first occurrence of the id (so without the id,
    when the list had no duplicates). *)
Theorem deleteContext_fault_not_atomic (state node : loc) (σ σ' : Store)
    (nodeId parentId : Z) :
  deleteContext state node σ = Some (σ', Throw (NotListedAsChild nodeId parentId)) →
  ∃ nd m terminals parent children,
    nodes σ !! node = Some nd
    ∧ ParserContext.nodeId nd = nodeId
    ∧ maybeParentId nd = Some parentId
    ∧ nodeMapOf σ state = Some m
    ∧ is_Some (m !! nodeId)
    ∧ terminalsOf σ state = Some terminals
    ∧ nodeMapOf σ' state = Some (delete nodeId m)
    ∧ nodeOf σ' state nodeId = None
    ∧ terminalsOf σ' state = Some (removeFirst nodeId terminals)
    ∧ (NoDup terminals → nodeId ∉ removeFirst nodeId terminals)
    ∧ nodeOf σ' state parentId = Some parent
    ∧ childrenOf σ' parent = Some children
    ∧ (nodeId ∉ children)
    ∧ σ' ≠ σ.
Proof.
  unfold deleteContext. intros H. run_inv H; simpl in *.
  all: repeat (match goal with
               | H : _ = match ?o with Some _ => _ | None => _ end |- _ =>
                   destruct o eqn:?; simplify_eq
               | H : <[?i:=_]> ?l !! ?i = Some _ |- _ =>
                   rewrite list_lookup_insert_eq in H by (by eapply lookup_lt_Some);
                   simplify_eq
               end; simpl in *).
  all: match goal with
       | Hm : maps _ !! _ = Some ?m,
         Ht : arrays _ !! terminalNodeIds _ = Some ?t,
         Hp : delete _ ?m !! _ = Some ?parent,
         Hc : indexOf ?children (ParserContext.nodeId ?nd) = None |- _ =>
           exists nd, m, t, parent, children
       end.
  all: unfold nodeMapOf, nodeOf, nodeMapOf, terminalsOf, childrenOf; simpl.
  all: repeat match goal with
         | H : ?x = Some _ |- context [?x] => rewrite H; simpl
         end.
  all: repeat (rewrite list_lookup_insert_eq by (by eapply lookup_lt_Some); simpl).
  all: try rewrite list_lookup_middle by done.
  all: rewrite ?lookup_delete_eq.
  all: repeat match goal with
         | H : ?x = Some _ |- context [?x] => rewrite H; simpl
         end.
  all: repeat match goal with |- _ ∧ _ => split end.
  all: try done.
  all: try (by eauto).
  all: try (by apply removeFirst_NoDup).
  all: try (by apply indexOf_None).
  all: try (unfold removeFirst;
            match goal with
            | H : indexOf _ _ = _ |- context [indexOf _ _] => (by rewrite H)
            end).
  all: intros Heq; apply (f_equal maps) in Heq; simpl in Heq.
  all: match goal with
       | Hm : maps ?s !! ?l = Some ?m, Hk : ?m !! ?k = Some _ |- _ =>
           apply (f_equal (λ ms, ms !! l ≫= (.!! k))) in Heq; simpl in Heq;
           rewrite list_lookup_insert_eq, Hm in Heq by (by eapply lookup_lt_Some);
           simpl in Heq; rewrite lookup_delete_eq, Hk in Heq; done
       end.
Qed.

Lemma nodeIdCounter_strictly_increases_witness :
  ∃ σ' log st,
    run sampleCalls freshArena = Some (σ', log)
    ∧ states freshArena !! 0%nat = Some st
    ∧ allocatedIn 0%nat log = [1; 2; 3]
    ∧ allocatedIn 1%nat log = [3].
Proof.
  assert (∃ σ' log, run sampleCalls freshArena = Some (σ', log)
                    ∧ allocatedIn 1%nat log = [3])
    as (σ' & log & Hrun & Hcopy)
    by (eexists _, _; split; vm_compute; reflexivity).
  assert (∃ st, states freshArena !! 0%nat = Some st
                ∧ - (2 ^ 53) ≤ nodeIdCounter st
                ∧ nodeIdCounter st + Z.of_nat (addChildCount 0%nat sampleCalls)
                  ≤ 2 ^ 53) as (st & Hst & Hlow & Hhigh)
    by (eexists; split; [reflexivity|]; split; by vm_compute).
  exists σ', log, st. split; [exact Hrun|]. split; [exact Hst|]. split; [|exact Hcopy].
  destruct (nodeIdCounter_strictly_increases sampleCalls freshArena σ' log 0%nat st
              Hrun Hst Hlow Hhigh) as (st' & _ & _ & Hlog & _).
  rewrite Hlog. clear Hrun Hlog Hcopy Hlow Hhigh.
  vm_compute in Hst. injection Hst as <-. reflexivity.
Defined.

Lemma deleteContext_fault_not_atomic_witness :
  ∃ σ',
    deleteContext 0%nat 1%nat corruptedArena = Some (σ', Throw (NotListedAsChild 2 1))
    ∧ nodeOf corruptedArena 0%nat 2 = Some 1%nat
    ∧ nodeOf σ' 0%nat 2 = None
    ∧ terminalsOf σ' 0%nat = Some [].
Proof.
  assert (∃ σ', deleteContext 0%nat 1%nat corruptedArena
                = Some (σ', Throw (NotListedAsChild 2 1))) as (σ' & Hrun)
    by (eexists; vm_compute; reflexivity).
  exists σ'. split; [exact Hrun|]. split; [vm_compute; reflexivity|].
  destruct (deleteContext_fault_not_atomic 0%nat 1%nat corruptedArena σ' 2 1 Hrun)
    as (nd & m & terminals & parent & children
        & _ & _ & _ & _ & _ & Hterminals & _ & Hnode & Hafter & _).
  split; [exact Hnode|]. rewrite Hafter. clear Hrun Hnode Hafter.
  vm_compute in Hterminals. injection Hterminals as <-. reflexivity.
Defined.

(** C10 as stated fails: when the terminal ids list the id twice, the fault
    leaves a list that still holds it. *)
Lemma deleteContext_fault_keeps_duplicate :
  ∃ σ',
    deleteContext 0%nat 1%nat duplicatedArena
    = Some (σ', Throw (NotListedAsChild 2 1))
    ∧ terminalsOf duplicatedArena 0%nat = Some [2; 2]
    ∧ nodeOf σ' 0%nat 2 = None
    ∧ terminalsOf σ' 0%nat = Some [2]
    ∧ 2 ∈ [2].
Proof.
  eexists. split; [vm_compute; reflexivity|].
  split; [vm_compute; reflexivity|]. split; [vm_compute; reflexivity|].
  split; [vm_compute; reflexivity|]. apply elem_of_cons. by left.
Qed.

(** C7 as stated fails: from the counter [2 ^ 53], adding one gives
    [2 ^ 53] again, so two calls of [addChild] hand out the same id and the
    counter stays where it was. *)
Lemma nodeIdCounter_repeats_at_limit :
  ∃ σ' log,
    run saturatedCalls saturatedArena = Some (σ', log)
    ∧ counterOf saturatedArena 0%nat = Some (2 ^ 53)
    ∧ allocatedIn 0%nat log = [2 ^ 53; 2 ^ 53]
    ∧ counterOf σ' 0%nat = Some (2 ^ 53)
    ∧ ¬ NoDup (allocatedIn 0%nat log).
Proof.
  eexists _, _. split; [vm_compute; reflexivity|].
  split; [vm_compute; reflexivity|]. split; [vm_compute; reflexivity|].
  split; [vm_compute; reflexivity|].
  intros Hnodup. vm_compute in Hnodup.
  apply NoDup_cons in Hnodup as [Hin _]. apply Hin. apply elem_of_cons. by left.
Qed.

(** ** [deepCopy] and the original *)

(** C1 fails on the code: the copy of a node shares the array of child ids of
    the node, so [addChild] on the copy of the arena, under the copy of the
    root, appends the new id 2 to the child ids of the root of the original
    arena, which holds no node of id 2. *)
Lemma deepCopy_shares_childNodeIds :
  ∃ σ original node,
    oneNodeArena emptyStore = Some (σ, Return (original, node))
    ∧ ∃ σ1 copy copied,
        deepCopy original σ = Some (σ1, Return copy)
        ∧ nodeOf σ1 original 1 = Some node
        ∧ nodeOf σ1 copy 1 = Some copied
        ∧ copied ≠ node
        ∧ childrenOf σ1 node = Some []
        ∧ ∃ σ2 child,
            addChild copy (Some copied) 0%nat None σ1 = Some (σ2, Return child)
            ∧ childrenOf σ2 node = Some [2]
            ∧ nodeOf σ2 original 2 = None.
Proof.
  eexists _, _, _. split; [vm_compute; reflexivity|].
  eexists _, _, _. split; [vm_compute; reflexivity|].
  split; [vm_compute; reflexivity|]. split; [vm_compute; reflexivity|].
  split; [discriminate|].
  split; [vm_compute; reflexivity|].
  eexists _, _. split; [vm_compute; reflexivity|].
  split; vm_compute; reflexivity.
Qed.

(** C2 fails on the code: the root of the copy is looked up under the id 0,
    and the ids start at 1; the root of the original arena holds the node of
    id 1, the copy files its copy of that node under id 1, and the root of the
    copy holds nothing. *)
Lemma deepCopy_loses_root :
  ∃ σ original node,
    rootedArena emptyStore = Some (σ, Return (original, node))
    ∧ rootOf σ original = Some (Some node)
    ∧ nodeOf σ original 1 = Some node
    ∧ ∃ σ1 copy copied,
        deepCopy original σ = Some (σ1, Return copy)
        ∧ nodeOf σ1 copy 1 = Some copied
        ∧ nodeOf σ1 copy 0 = None
        ∧ rootOf σ1 copy = Some None
        ∧ terminalsOf σ1 copy = terminalsOf σ original
        ∧ counterOf σ1 copy = counterOf σ original.
Proof.
  eexists _, _, _. split; [vm_compute; reflexivity|].
  split; [vm_compute; reflexivity|]. split; [vm_compute; reflexivity|].
  eexists _, _, _. split; [vm_compute; reflexivity|].
  repeat split; vm_compute; reflexivity.
Qed.
(** * Further properties of the arena *)

(** ** Sequences of calls *)

Lemma validCall_grows σ σ' c : grows σ σ' → validCall σ c → validCall σ' c.
Proof.
  intros (Harr & Hast & Hnode & Hmap & Hroot & Hstate).
  destruct c as [s p k t|s n a|s n|s]; simpl.
  - intros [Hs Hp]. split; [lia|]. intros parent Hparent.
    specialize (Hp parent Hparent). lia.
  - intros (? & ? & ?). repeat split; lia.
  - intros (? & ?). split; lia.
  - lia.
Qed.

Lemma familyArena_wf : wf familyArena.
Proof.
  split; [|split].
  - apply Forall_singleton. repeat split; simpl; lia.
  - apply Forall_cons. split; [|apply Forall_singleton].
    + split; [simpl; lia|]. intros a. discriminate.
    + split; [simpl; lia|]. intros a [= <-]. simpl. lia.
  - apply Forall_singleton. intros k n Hk. simpl.
    apply lookup_insert_Some in Hk as [[_ <-]|[_ Hk]]; [lia|].
    apply lookup_singleton_Some in Hk as [_ <-]. lia.
Qed.

(** X10: On a store without dangling references, a sequence of calls whose
    arguments name objects of the store runs to its end, also past the calls
    that throw: no call meets a reference that names no object, and the store
    left has no dangling reference and holds at least the objects it held. *)
Theorem run_total (cs : list Call) (σ : Store) :
  wf σ → Forall (validCall σ) cs →
  ∃ σ' log, run cs σ = Some (σ', log) ∧ wf σ' ∧ grows σ σ'.
Proof.
  revert σ. induction cs as [|c cs IH]; intros σ Hwf Hvalid.
  - exists σ, []. split; [done|]. split; [done|apply grows_refl].
  - apply Forall_cons in Hvalid as [Hc Hcs].
    destruct (exec_runs c σ Hwf Hc) as (σ1 & out & Hexec & Hwf1 & Hg1).
    destruct (IH σ1 Hwf1) as (σ2 & log & Hrun & Hwf2 & Hg2).
    { eapply Forall_impl; [exact Hcs|]. intros c'. by apply validCall_grows. }
    exists σ2, (allocation c out σ1 ++ log). simpl. rewrite Hexec, Hrun.
    split; [done|]. split; [done|]. by eapply grows_trans.
Qed.

Lemma run_total_witness :
  ∃ σ' log, run familyCalls familyArena = Some (σ', log)
            ∧ wf σ' ∧ grows familyArena σ'.
Proof.
  apply (run_total familyCalls familyArena familyArena_wf).
  unfold familyCalls. repeat (apply Forall_cons; split); [| | | |apply Forall_nil];
    simpl; repeat split; try lia.
  intros parent [= <-]. lia.
Defined.

(** ** What [addChild] leaves *)

(** What [addChild] leaves, with the id as the addition of numbers gives it. *)
Lemma addChild_leaves (state : loc) (maybeParent : option loc)
    (nodeKind : NodeKind) (tokenStart : option Token.t) (σ σ' : Store)
    (out : Outcome loc) :
  addChild state maybeParent nodeKind tokenStart σ = Some (σ', out) →
  ∃ st m,
    states σ !! state = Some st
    ∧ maps σ !! nodesById st = Some m
    ∧ out = Return (length (nodes σ))
    ∧ counterOf σ' state = Some (numberAdd (nodeIdCounter st) 1)
    ∧ nodeMapOf σ' state
      = Some (<[numberAdd (nodeIdCounter st) 1 := length (nodes σ)]> m)
    ∧ nodes σ'
      = nodes σ
        ++ [ {| nodeId := numberAdd (nodeIdCounter st) 1; nodeKind := nodeKind;
                maybeTokenStart := tokenStart;
                maybeParentId := nodeId <$> (maybeParent ≫= (nodes σ !!.));
                childNodeIds := length (arrays σ); maybeAstNode := None |} ]
    ∧ childrenOf σ' (length (nodes σ)) = Some []
    ∧ (∀ parent, maybeParent = Some parent →
         childrenOf σ' parent
         = (λ children, children ++ [numberAdd (nodeIdCounter st) 1]) <$> childrenOf σ parent)
    ∧ (∀ a, (a < length (arrays σ))%nat →
            (∀ parent p, maybeParent = Some parent → nodes σ !! parent = Some p →
                         a ≠ childNodeIds p) →
            arrays σ' !! a = arrays σ !! a)
    ∧ roots σ' = roots σ
    ∧ asts σ' = asts σ.
Proof.
  unfold addChild. intros H. run_inv H; simpl in *.
  all: repeat match goal with
         | H : <[_:=_]> _ !! _ = Some _ |- _ =>
             rewrite list_lookup_insert_eq in H by (by eapply lookup_lt_Some); simplify_eq
         end.
  all: match goal with
       | Hs : states _ !! _ = Some ?x, Hm : maps _ !! _ = Some ?m |- _ =>
           pose proof (lookup_lt_Some _ _ _ Hs) as Hstate;
           pose proof (lookup_lt_Some _ _ _ Hm) as Hmap;
           exists x, m
       end.
  all: split; [done|]; split; [done|]; split; [done|].
  all: split; [unfold counterOf; simpl; by rewrite list_lookup_insert_eq|].
  all: split; [unfold nodeMapOf; simpl; rewrite list_lookup_insert_eq by done; simpl;
               by rewrite list_lookup_insert_eq|].
  - pose proof (lookup_lt_Some _ _ _ Hread1) as Hparent.
    pose proof (lookup_lt_Some _ _ _ Hread2) as Harray.
    split; [by rewrite Hread1, length_insert|].
    split.
    { unfold childrenOf; simpl. rewrite list_lookup_middle by done. simpl.
      by rewrite list_lookup_middle. }
    split.
    { intros parent [= <-]. unfold childrenOf; simpl.
      rewrite lookup_app_l, Hread1 by done. simpl.
      rewrite lookup_app_l by (by rewrite length_insert).
      by rewrite list_lookup_insert_eq, Hread2. }
    split; [|done].
    intros a Ha Hne. rewrite lookup_app_l by (by rewrite length_insert).
    rewrite list_lookup_insert_ne; [done|]. intros Heq.
    by apply (Hne _ _ eq_refl Hread1).
  - split; [done|].
    split.
    { unfold childrenOf; simpl. rewrite list_lookup_middle by done. simpl.
      by rewrite list_lookup_middle. }
    split; [done|]. split; [|done].
    intros a Ha _. by rewrite lookup_app_l.
Qed.


(** X11: [addChild] never throws. On a state whose counter lies between
    [- 2 ^ 53] and [2 ^ 53 - 1], it returns a new node object, which carries
    the counter of the state plus one as its id, the kind and the token given,
    the id of the parent given (none without a parent), a new empty list of
    child ids and no AST node. The counter of the state becomes that id, the
    node map of the state files the new node under it, and the id is appended
    to the list of child ids of the parent. No node object, no root, no AST
    object and no other array is changed. *)
Theorem addChild_files_child (state : loc) (maybeParent : option loc)
    (nodeKind : NodeKind) (tokenStart : option Token.t) (σ σ' : Store)
    (out : Outcome loc) (st : State) :
  addChild state maybeParent nodeKind tokenStart σ = Some (σ', out) →
  states σ !! state = Some st →
  - (2 ^ 53) ≤ nodeIdCounter st < 2 ^ 53 →
  ∃ m,
    maps σ !! nodesById st = Some m
    ∧ out = Return (length (nodes σ))
    ∧ counterOf σ' state = Some (nodeIdCounter st + 1)
    ∧ nodeMapOf σ' state
      = Some (<[nodeIdCounter st + 1 := length (nodes σ)]> m)
    ∧ nodes σ'
      = nodes σ
        ++ [ {| nodeId := nodeIdCounter st + 1; nodeKind := nodeKind;
                maybeTokenStart := tokenStart;
                maybeParentId := nodeId <$> (maybeParent ≫= (nodes σ !!.));
                childNodeIds := length (arrays σ); maybeAstNode := None |} ]
    ∧ childrenOf σ' (length (nodes σ)) = Some []
    ∧ (∀ parent, maybeParent = Some parent →
         childrenOf σ' parent
         = (λ children, children ++ [nodeIdCounter st + 1]) <$> childrenOf σ parent)
    ∧ (∀ a, (a < length (arrays σ))%nat →
            (∀ parent p, maybeParent = Some parent → nodes σ !! parent = Some p →
                         a ≠ childNodeIds p) →
            arrays σ' !! a = arrays σ !! a)
    ∧ roots σ' = roots σ
    ∧ asts σ' = asts σ.
Proof.
  intros Hrun Hst Hbound.
  destruct (addChild_leaves _ _ _ _ _ _ _ Hrun)
    as (st' & m & Hst' & Hm & Hout & Hcounter & Hmap & Hnodes & Hnew & Hparent
        & Harrays & Hroots & Hasts).
  rewrite Hst in Hst'. injection Hst' as <-.
  rewrite numberAdd_exact in * by done.
  exists m. by repeat (split; [done|]).
Qed.

Lemma addChild_files_child_witness :
  ∃ σ',
    addChild 0%nat (Some 0%nat) 5%nat None familyArena = Some (σ', Return 2%nat)
    ∧ counterOf σ' 0%nat = Some 3
    ∧ nodeOf σ' 0%nat 3 = Some 2%nat
    ∧ childrenOf σ' 2%nat = Some []
    ∧ childrenOf σ' 0%nat = Some [2; 3].
Proof.
  assert (∃ σ' out, addChild 0%nat (Some 0%nat) 5%nat None familyArena = Some (σ', out))
    as (σ' & out & Hrun) by (eexists _, _; vm_compute; reflexivity).
  destruct (addChild_files_child _ _ _ _ _ _ _ _ Hrun eq_refl)
    as (m & Hm & Hout & Hcounter & Hmap & _ & Hnew & Hparent & _);
    [by vm_compute|].
  exists σ'. rewrite Hrun, Hout. split; [reflexivity|].
  split; [exact Hcounter|]. split; [|split; [exact Hnew|]].
  - unfold nodeOf. rewrite Hmap. simpl. apply lookup_insert_eq.
  - rewrite (Hparent _ eq_refl). reflexivity.
Defined.

(** ** What [endContext] leaves *)

(** X12: [endContext] assigns the AST node to the node, and appends the id of the
    node to the terminal ids of the state when the AST node is terminal, also
    when the id is listed already; the array is changed in place. It returns
    nothing for a node without parent, the node that the state files under the
    parent id otherwise, and throws when there is none: the assignment and the
    terminal id stay when it throws. *)
Theorem endContext_assigns (state oldNode astNode : loc) (σ σ' : Store)
    (out : Outcome (option loc)) :
  endContext state oldNode astNode σ = Some (σ', out) →
  ∃ ast old,
    asts σ !! astNode = Some ast
    ∧ nodes σ !! oldNode = Some old
    ∧ nodes σ' = <[oldNode := setMaybeAstNode (Some astNode) old]> (nodes σ)
    ∧ (if terminalNode ast
       then ∃ st terminals,
              states σ !! state = Some st
              ∧ arrays σ !! terminalNodeIds st = Some terminals
              ∧ arrays σ'
                = <[terminalNodeIds st := terminals ++ [nodeId old]]> (arrays σ)
       else arrays σ' = arrays σ)
    ∧ out = match maybeParentId old with
            | None => Return None
            | Some parentId =>
                match nodeOf σ state parentId with
                | Some parent => Return (Some parent)
                | None => Throw (NodeIdNotInState parentId)
                end
            end
    ∧ maps σ' = maps σ ∧ states σ' = states σ
    ∧ roots σ' = roots σ ∧ asts σ' = asts σ.
Proof.
  unfold endContext. intros H. run_inv H; simpl in *.
  all: simplify_eq.
  all: eexists _, _; split; [eassumption|]; split; [eassumption|]; split; [done|].
  all: split;
    [match goal with Hb : terminalNode _ = _ |- _ => rewrite Hb end; by eauto|].
  all: split; [|done].
  all: match goal with Hp : maybeParentId _ = _ |- _ => rewrite Hp end; try done.
  all: unfold nodeOf, nodeMapOf;
    match goal with Hs : states _ !! _ = Some _ |- _ => rewrite Hs end; simpl;
    match goal with Hm : maps _ !! _ = Some _ |- _ => rewrite Hm end; simpl.
  all: match goal with
       | |- _ = match ?m !! ?k with _ => _ end => destruct (m !! k); by simplify_eq
       end.
Qed.

Lemma endContext_assigns_witness :
  ∃ σ',
    endContext 0%nat 1%nat 0%nat familyArena = Some (σ', Return (Some 0%nat))
    ∧ terminalsOf σ' 0%nat = Some [2; 2]
    ∧ (maybeAstNode <$> nodes σ' !! 1%nat) = Some (Some 0%nat).
Proof.
  assert (∃ σ' out, endContext 0%nat 1%nat 0%nat familyArena = Some (σ', out))
    as (σ' & out & Hrun) by (eexists _, _; vm_compute; reflexivity).
  destruct (endContext_assigns _ _ _ _ _ _ Hrun)
    as (ast & old & Hast & Hold & Hnodes & Harrays & Hout & _ & Hstates & _).
  vm_compute in Hast. injection Hast as <-.
  vm_compute in Hold. injection Hold as <-.
  simpl in Harrays. destruct Harrays as (st & terminals & Hst & Hterminals & Harrays).
  vm_compute in Hst. injection Hst as <-.
  vm_compute in Hterminals. injection Hterminals as <-.
  exists σ'. rewrite Hrun, Hout. split; [reflexivity|].
  unfold terminalsOf. rewrite Hstates, Harrays, Hnodes. split; reflexivity.
Defined.

(** ** What [deleteContext] leaves *)

Lemma indexOf_Some arr x i : indexOf arr x = Some i → x ∈ arr.
Proof.
  revert i. induction arr as [|y arr IH]; intros i; simpl; [done|].
  destruct (Z.eqb_spec y x) as [->|Hne]; [intros _; apply elem_of_cons; by left|].
  destruct (indexOf arr x) as [j|]; [|done]. intros _.
  apply elem_of_cons. right. by eapply IH.
Qed.

(** X13: When [deleteContext] returns, the node map of the state has lost the id
    of the node, and the terminal ids of the state are the old ones without
    the first occurrence of the id. For a node without parent it returns
    nothing and changes no node; otherwise it returns the node filed under the
    parent id, whose list of child ids is a new array that holds the old ids
    without the first occurrence of the id. No array is changed in place: the
    arrays of the store before the call are still there, as they were. *)
Theorem deleteContext_removes (state node : loc) (σ σ' : Store) (r : option loc) :
  deleteContext state node σ = Some (σ', Return r) →
  ∃ nd m terminals,
    nodes σ !! node = Some nd
    ∧ nodeMapOf σ state = Some m
    ∧ is_Some (m !! nodeId nd)
    ∧ terminalsOf σ state = Some terminals
    ∧ nodeMapOf σ' state = Some (delete (nodeId nd) m)
    ∧ terminalsOf σ' state = Some (removeFirst (nodeId nd) terminals)
    ∧ arrays σ `prefix_of` arrays σ'
    ∧ match maybeParentId nd with
      | None => r = None ∧ nodes σ' = nodes σ
      | Some parentId =>
          ∃ parent,
            r = Some parent
            ∧ delete (nodeId nd) m !! parentId = Some parent
            ∧ ∀ children, childrenOf σ parent = Some children →
                nodeId nd ∈ children
                ∧ childrenOf σ' parent = Some (removeFirst (nodeId nd) children)
      end.
Proof.
  unfold deleteContext. intros H. run_inv H; simpl in *.
  all: repeat (match goal with
               | H : _ = match ?o with Some _ => _ | None => _ end |- _ =>
                   destruct o eqn:?; simplify_eq
               | H : <[?i:=_]> ?l !! ?i = Some _ |- _ =>
                   rewrite list_lookup_insert_eq in H by (by eapply lookup_lt_Some);
                   simplify_eq
               end; simpl in *).
  all: simplify_eq.
  all: match goal with
       | Hk : ?m !! nodeId ?nd = Some _,
         Ht : arrays _ !! terminalNodeIds _ = Some ?t,
         Hs : states _ !! _ = Some ?st,
         Hm : maps _ !! _ = Some ?m |- _ =>
           exists nd, m, t;
           pose proof (lookup_lt_Some _ _ _ Hs) as Hstate;
           pose proof (lookup_lt_Some _ _ _ Hm) as Hmap;
           pose proof (lookup_lt_Some _ _ _ Ht) as Hterminals;
           assert (nodeMapOf σ state = Some m) as HmapOf
             by (by unfold nodeMapOf; rewrite Hs);
           assert (terminalsOf σ state = Some t) as HterminalsOf
             by (by unfold terminalsOf; rewrite Hs)
       end.
  all: split; [done|].
  all: split; [done|].
  all: split; [by eauto|].
  all: split; [done|].
  all: split;
    [unfold nodeMapOf; simpl;
     rewrite ?list_lookup_insert_eq by done;
     try match goal with Hs : states _ !! _ = Some _ |- _ => rewrite Hs end; simpl;
     by rewrite list_lookup_insert_eq|].
  all: split;
    [unfold terminalsOf, removeFirst; simpl;
     rewrite ?list_lookup_insert_eq by done;
     try match goal with Hs : states _ !! _ = Some _ |- _ => rewrite Hs end; simpl;
     match goal with H : indexOf ?t _ = _, Ht : arrays _ !! _ = Some ?t |- _ =>
       rewrite H
     end;
     rewrite ?(lookup_app_l (arrays σ ++ _)) by (rewrite length_app; simpl; lia);
     rewrite ?list_lookup_middle by done;
     rewrite ?lookup_app_l by done; done|].
  all: split; [repeat apply prefix_app_r; done|].
  all: match goal with H : maybeParentId _ = _ |- _ => rewrite H end; try done.
  all: eexists; split; [done|]; split; [done|].
  all: intros children Hchildren; unfold childrenOf in *.
  all: match goal with
       | H : nodes _ !! _ = Some ?p, Hc : context [childNodeIds ?p] |- _ =>
           rewrite H in Hchildren; simpl in Hchildren;
           pose proof (lookup_lt_Some _ _ _ H) as Hparent;
           pose proof (lookup_lt_Some _ _ _ Hchildren) as Harray
       end.
  all: rewrite ?lookup_app_l in * by done; simplify_eq.
  all: split; [by eapply indexOf_Some|].
  all: simpl; rewrite list_lookup_insert_eq by done; simpl.
  all: unfold removeFirst;
    match goal with
    | H : indexOf ?c ?x = _ |- context [indexOf ?c ?x] => rewrite H
    end.
  all: by rewrite list_lookup_middle.
Qed.

Lemma deleteContext_removes_witness :
  ∃ σ',
    deleteContext 0%nat 1%nat familyArena = Some (σ', Return (Some 0%nat))
    ∧ nodeOf σ' 0%nat 2 = None
    ∧ terminalsOf σ' 0%nat = Some []
    ∧ childrenOf σ' 0%nat = Some [].
Proof.
  assert (∃ σ', deleteContext 0%nat 1%nat familyArena = Some (σ', Return (Some 0%nat)))
    as (σ' & Hrun) by (eexists; vm_compute; reflexivity).
  destruct (deleteContext_removes _ _ _ _ _ Hrun)
    as (nd & m & terminals & Hnd & Hm & _ & Hterminals & Hmap & Hafter & _ & Hparent).
  vm_compute in Hnd. injection Hnd as <-.
  vm_compute in Hterminals. injection Hterminals as <-.
  simpl in Hparent. destruct Hparent as (parent & [= <-] & _ & Hchildren).
  exists σ'. split; [exact Hrun|].
  split; [unfold nodeOf; rewrite Hmap; simpl; apply lookup_delete_eq|].
  split; [exact Hafter|].
  exact (proj2 (Hchildren [2] eq_refl)).
Defined.

(** The first check of [deleteContext]: for a node whose id the node map of
    the state does not file, it throws and leaves the store as it is. *)
Lemma deleteContext_first_check state node σ st nd m :
  states σ !! state = Some st →
  nodes σ !! node = Some nd →
  maps σ !! nodesById st = Some m →
  m !! nodeId nd = None →
  ∀ id, id = nodeId nd →
  deleteContext state node σ = Some (σ, Throw (NodeNotInState id)).
Proof.
  intros Hst Hnd Hm Hid id ->. unfold deleteContext.
  erewrite (bind_read stateC) by exact Hst.
  erewrite (bind_read nodeC) by exact Hnd.
  erewrite (bind_read mapC) by exact Hm.
  by rewrite Hid.
Qed.

(** X14: [deleteContext] cannot be repeated: once it has returned, the same call
    throws the error of a node that is not in the state, and changes nothing
    in the store. *)
Theorem deleteContext_twice (state node : loc) (σ σ' : Store) (r : option loc) :
  deleteContext state node σ = Some (σ', Return r) →
  ∃ nd,
    nodes σ !! node = Some nd
    ∧ deleteContext state node σ' = Some (σ', Throw (NodeNotInState (nodeId nd))).
Proof.
  unfold deleteContext at 1. intros H. run_inv H; simpl in *.
  all: repeat (match goal with
               | H : _ = match ?o with Some _ => _ | None => _ end |- _ =>
                   destruct o eqn:?; simplify_eq
               | H : <[?i:=_]> ?l !! ?i = Some _ |- _ =>
                   rewrite list_lookup_insert_eq in H by (by eapply lookup_lt_Some);
                   simplify_eq
               end; simpl in *).
  all: simplify_eq.
  all: match goal with
       | Hk : ?m !! nodeId ?nd = Some _,
         Hn : nodes _ !! _ = Some ?nd,
         Hs : states _ !! _ = Some ?st,
         Hm : maps _ !! _ = Some ?m |- _ =>
           exists nd;
           pose proof (lookup_lt_Some _ _ _ Hs) as Hstate;
           pose proof (lookup_lt_Some _ _ _ Hm) as Hmap;
           pose proof (lookup_lt_Some _ _ _ Hn) as Hnode;
           split; [exact Hn|]
       end.
  all: match goal with
       | Hn : nodes _ !! ?node = Some ?nd
         |- deleteContext _ ?node
              {| arrays := _; asts := _; nodes := <[?parent:=?p]> _; maps := _;
                 roots := _; states := _ |} = _ =>
           destruct (decide (parent = node)) as [->|Hne]; [simplify_eq|]
       | _ => idtac
       end.
  all: eapply deleteContext_first_check; simpl;
    [ first [by apply list_lookup_insert_eq | eassumption]
    | first [ by apply list_lookup_insert_eq
            | rewrite list_lookup_insert_ne by done; eassumption
            | eassumption ]
    | simpl; by apply list_lookup_insert_eq
    | simpl; apply lookup_delete_eq
    | done ].
Qed.

Lemma deleteContext_twice_witness :
  ∃ σ',
    deleteContext 0%nat 1%nat familyArena = Some (σ', Return (Some 0%nat))
    ∧ deleteContext 0%nat 1%nat σ' = Some (σ', Throw (NodeNotInState 2)).
Proof.
  assert (∃ σ', deleteContext 0%nat 1%nat familyArena = Some (σ', Return (Some 0%nat)))
    as (σ' & Hrun) by (eexists; vm_compute; reflexivity).
  destruct (deleteContext_twice _ _ _ _ _ Hrun) as (nd & Hnd & Hagain).
  vm_compute in Hnd. injection Hnd as <-.
  exists σ'. split; [exact Hrun|exact Hagain].
Defined.

(** ** A child added and deleted *)

Lemma indexOf_app_new arr x : x ∉ arr → indexOf (arr ++ [x]) x = Some (length arr).
Proof.
  induction arr as [|y arr IH]; simpl; intros Hx.
  - by rewrite Z.eqb_refl.
  - apply not_elem_of_cons in Hx as [Hne Hx].
    destruct (Z.eqb_spec y x) as [->|_]; [done|]. by rewrite IH.
Qed.

Lemma removeAt_app_new arr x : removeAt (arr ++ [x]) (length arr) = arr.
Proof.
  unfold removeAt. rewrite take_app_length.
  rewrite drop_ge by (rewrite length_app; simpl; lia). apply app_nil_r.
Qed.

(** X15: A child added under a parent that the state files under its id, and then
    deleted, on a state whose counter lies between [- 2 ^ 53] and
    [2 ^ 53 - 1]: both calls return, the deletion returns the parent, and the
    node map of the state and the child ids of the parent are what they were;
    the counter is not: the id is not handed out again. The id must be new to
    the node map and to the child ids of the parent. *)
Theorem addChild_deleteContext (state parent : loc) (nodeKind : NodeKind)
    (tokenStart : option Token.t) (σ : Store) (st : State) (m : NodeMap)
    (p : Node) (children terminals : list Z) :
  states σ !! state = Some st →
  - (2 ^ 53) ≤ nodeIdCounter st < 2 ^ 53 →
  maps σ !! nodesById st = Some m →
  arrays σ !! terminalNodeIds st = Some terminals →
  nodes σ !! parent = Some p →
  arrays σ !! childNodeIds p = Some children →
  m !! nodeId p = Some parent →
  m !! (nodeIdCounter st + 1) = None →
  nodeIdCounter st + 1 ∉ children →
  ∃ σ1 child σ2,
    addChild state (Some parent) nodeKind tokenStart σ = Some (σ1, Return child)
    ∧ deleteContext state child σ1 = Some (σ2, Return (Some parent))
    ∧ nodeMapOf σ2 state = Some m
    ∧ childrenOf σ2 parent = Some children
    ∧ counterOf σ2 state = Some (nodeIdCounter st + 1).
Proof.
  intros Hst Hbound Hm Ht Hp Hc Hfiled Hfresh Hnew.
  pose proof (lookup_lt_Some _ _ _ Hst) as Hstate.
  pose proof (lookup_lt_Some _ _ _ Hm) as Hmap.
  pose proof (lookup_lt_Some _ _ _ Ht) as Hterminals.
  pose proof (lookup_lt_Some _ _ _ Hp) as Hparent.
  pose proof (lookup_lt_Some _ _ _ Hc) as Hchildren.
  assert (nodeId p ≠ nodeIdCounter st + 1) as Hid by congruence.
  set (newId := nodeIdCounter st + 1) in *.
  set (nd := {| nodeId := newId; nodeKind := nodeKind; maybeTokenStart := tokenStart;
                maybeParentId := Some (nodeId p);
                childNodeIds := length (arrays σ); maybeAstNode := None |}).
  set (σ1 := {| arrays := <[childNodeIds p := children ++ [newId]]> (arrays σ) ++ [[]];
                asts := asts σ;
                nodes := nodes σ ++ [nd];
                maps := <[nodesById st := <[newId := length (nodes σ)]> m]> (maps σ);
                roots := roots σ;
                states := <[state := setNodeIdCounter newId st]> (states σ) |}).
  assert (addChild state (Some parent) nodeKind tokenStart σ
          = Some (σ1, Return (length (nodes σ)))) as Hadd.
  { unfold addChild.
    erewrite (bind_read stateC) by exact Hst.
    rewrite numberAdd_exact by done. fold newId.
    rewrite (bind_write stateC) by (simpl; eauto).
    erewrite (bind_read stateC) by (simpl; by apply list_lookup_insert_eq).
    rewrite bind_bind.
    erewrite (bind_read nodeC) by exact Hp.
    rewrite bind_bind.
    erewrite (bind_read arrayC) by exact Hc.
    rewrite bind_bind.
    rewrite (bind_write arrayC) by (simpl; eauto).
    rewrite bind_ret.
    erewrite (bind_read stateC) by (simpl; by apply list_lookup_insert_eq).
    rewrite !bind_alloc.
    erewrite (bind_read mapC) by (simpl; exact Hm).
    rewrite (bind_write mapC) by (simpl; eauto).
    unfold ret, σ1, nd. simpl. by rewrite length_insert. }
  assert (∃ terminals1, arrays σ1 !! terminalNodeIds st = Some terminals1)
    as [terminals1 Ht1].
  { apply lookup_lt_is_Some_2. simpl. rewrite length_app, length_insert. lia. }
  assert (∀ extra, (arrays σ1 ++ extra) !! childNodeIds p = Some (children ++ [newId]))
    as Hc1.
  { intros extra. simpl.
    rewrite !lookup_app_l by (rewrite ?length_app, length_insert; lia).
    by apply list_lookup_insert_eq. }
  assert (states σ1 !! state = Some (setNodeIdCounter newId st)) as Hst1
    by (simpl; by apply list_lookup_insert_eq).
  assert (nodes σ1 !! length (nodes σ) = Some nd) as Hnd1
    by (simpl; by apply list_lookup_middle).
  assert (maps σ1 !! nodesById st = Some (<[newId := length (nodes σ)]> m)) as Hm1
    by (simpl; by apply list_lookup_insert_eq).
  assert (nodes σ1 !! parent = Some p) as Hp1
    by (simpl; by rewrite lookup_app_l).
  clearbody σ1.
  assert (∀ σ2,
            nodes σ2 = <[parent := setChildNodeIds (length (arrays σ2) - 1) p]> (nodes σ1) →
            (∃ a, states σ2 !! state
                  = Some (setTerminalNodeIds a (setNodeIdCounter newId st))) →
            maps σ2
            = <[nodesById st := delete newId (<[newId := length (nodes σ)]> m)]>
                (maps σ1) →
            arrays σ2 !! (length (arrays σ2) - 1)%nat = Some children →
            nodeMapOf σ2 state = Some m
            ∧ childrenOf σ2 parent = Some children
            ∧ counterOf σ2 state = Some newId) as Hafter.
  { intros σ2 Hnodes [a Hstates] Hmaps Harrays.
    unfold nodeMapOf, childrenOf, counterOf. rewrite Hstates, Hnodes, Hmaps. simpl.
    rewrite list_lookup_insert_eq by (by eapply lookup_lt_Some).
    rewrite list_lookup_insert_eq by (by eapply lookup_lt_Some). simpl.
    by rewrite delete_insert_id. }
  exists σ1, (length (nodes σ)).
  unfold deleteContext.
  erewrite (bind_read stateC) by exact Hst1.
  erewrite (bind_read nodeC) by exact Hnd1.
  erewrite (bind_read mapC) by exact Hm1.
  cbn [nodeId nd nodesById terminalNodeIds setNodeIdCounter maybeParentId].
  rewrite lookup_insert_eq.
  rewrite (bind_write mapC) by (simpl; rewrite Hm1; eauto).
  erewrite (bind_read arrayC) by (simpl; exact Ht1).
  unfold expectNode, maybeGetNode.
  destruct (indexOf terminals1 newId) as [terminalIndex|] eqn:Hidx.
  - rewrite !bind_bind. rewrite bind_alloc.
    rewrite ?bind_bind.
    erewrite (bind_read stateC) by (simpl; exact Hst1).
    rewrite ?bind_bind.
    rewrite (bind_write stateC) by (simpl; rewrite Hst1; eauto).
    rewrite ?bind_bind.
    erewrite (bind_read stateC) by (simpl; by apply list_lookup_insert_eq; eapply lookup_lt_Some).
    rewrite !bind_bind.
    rewrite ?bind_bind.
    erewrite (bind_read mapC)
      by (simpl; by apply list_lookup_insert_eq; eapply lookup_lt_Some).
    rewrite ?bind_bind, bind_ret.
    rewrite lookup_delete_ne, lookup_insert_ne, Hfiled by done.
    rewrite bind_ret.
    rewrite ?bind_bind.
    erewrite (bind_read nodeC) by (simpl; exact Hp1).
    rewrite ?bind_bind.
    erewrite (bind_read arrayC) by (simpl; apply (Hc1 [_])).
    rewrite indexOf_app_new by done.
    rewrite ?bind_bind.
    rewrite bind_alloc.
    rewrite ?bind_bind.
    erewrite (bind_read nodeC) by (simpl; exact Hp1).
    rewrite ?bind_bind.
    rewrite (bind_write nodeC) by (simpl; rewrite Hp1; eauto).
    unfold ret. eexists. split; [exact Hadd|]. split; [reflexivity|].
    apply Hafter; simpl.
    + rewrite !length_app. simpl. do 2 f_equal. lia.
    + eexists. by apply list_lookup_insert_eq; eapply lookup_lt_Some.
    + done.
    + rewrite !length_app. simpl.
      replace (length (arrays σ1) + 1 + 1 - 1)%nat
        with (length (arrays σ1 ++ [removeAt terminals1 terminalIndex]))
        by (rewrite length_app; simpl; lia).
      rewrite list_lookup_middle by done. by rewrite removeAt_app_new.
  - rewrite bind_ret.
    rewrite ?bind_bind.
    erewrite (bind_read stateC) by (simpl; exact Hst1).
    rewrite !bind_bind.
    rewrite ?bind_bind.
    erewrite (bind_read mapC)
      by (simpl; by apply list_lookup_insert_eq; eapply lookup_lt_Some).
    rewrite ?bind_bind, bind_ret.
    rewrite lookup_delete_ne, lookup_insert_ne, Hfiled by done.
    rewrite bind_ret.
    rewrite ?bind_bind.
    erewrite (bind_read nodeC) by (simpl; exact Hp1).
    rewrite ?bind_bind.
    erewrite (bind_read arrayC) by (simpl; rewrite <- (app_nil_r (arrays σ1)); apply Hc1).
    rewrite indexOf_app_new by done.
    rewrite ?bind_bind.
    rewrite bind_alloc.
    rewrite ?bind_bind.
    erewrite (bind_read nodeC) by (simpl; exact Hp1).
    rewrite ?bind_bind.
    rewrite (bind_write nodeC) by (simpl; rewrite Hp1; eauto).
    unfold ret. eexists. split; [exact Hadd|]. split; [reflexivity|].
    apply Hafter; simpl.
    + rewrite !length_app. simpl. do 2 f_equal. lia.
    + exists (terminalNodeIds st). rewrite Hst1. by destruct st.
    + done.
    + rewrite !length_app. simpl.
      replace (length (arrays σ1) + 1 - 1)%nat with (length (arrays σ1)) by lia.
      rewrite list_lookup_middle by done. by rewrite removeAt_app_new.
Qed.

Lemma addChild_deleteContext_witness :
  ∃ σ1 child σ2,
    addChild 0%nat (Some 0%nat) 0%nat None familyArena = Some (σ1, Return child)
    ∧ deleteContext 0%nat child σ1 = Some (σ2, Return (Some 0%nat))
    ∧ nodeMapOf σ2 0%nat = Some {[ 1 := 0%nat; 2 := 1%nat ]}
    ∧ childrenOf σ2 0%nat = Some [2]
    ∧ counterOf σ2 0%nat = Some 3.
Proof.
  apply (addChild_deleteContext 0%nat 0%nat 0%nat None familyArena _ _ _ [2] [2]
           eq_refl ltac:(by vm_compute) eq_refl eq_refl eq_refl eq_refl).
  - vm_compute. reflexivity.
  - vm_compute. reflexivity.
  - intros Hin. apply elem_of_cons in Hin as [Hin|Hin]; [discriminate Hin|].
    by apply not_elem_of_nil in Hin.
Defined.

(** ** What [deepCopy] copies *)

Lemma deepCopyNode_copies node σ σ' out :
  deepCopyNode node σ = Some (σ', out) →
  out = Return (length (nodes σ))
  ∧ copiedNode σ σ' node (length (nodes σ))
  ∧ length (nodes σ') = S (length (nodes σ))
  ∧ nodes σ `prefix_of` nodes σ'
  ∧ asts σ `prefix_of` asts σ'
  ∧ arrays σ' = arrays σ ∧ maps σ' = maps σ
  ∧ roots σ' = roots σ ∧ states σ' = states σ.
Proof.
  unfold deepCopyNode. intros H. run_inv H; simpl in *.
  - pose proof (lookup_lt_Some _ _ _ Hread) as Hnode.
    pose proof (lookup_lt_Some _ _ _ Hread0) as Hast.
    split; [done|]. split.
    { unfold copiedNode. simpl. eexists _, _. split; [by rewrite lookup_app_l|].
      split; [by apply list_lookup_middle|]. split; [done|].
      repeat (split; [done|]). simpl. rewrite Heqo.
      split; [done|]. rewrite list_lookup_middle by done.
      split; [by eauto|]. by rewrite lookup_app_l. }
    split; [rewrite length_app; simpl; lia|].
    split; [by apply prefix_app_r|]. split; [by apply prefix_app_r|done].
  - pose proof (lookup_lt_Some _ _ _ Hread) as Hnode.
    split; [done|]. split.
    { unfold copiedNode. simpl. eexists _, _. split; [by rewrite lookup_app_l|].
      split; [by apply list_lookup_middle|]. split; [done|].
      repeat (split; [done|]). simpl. by rewrite Heqo. }
    split; [rewrite length_app; simpl; lia|].
    split; [by apply prefix_app_r|done].
Qed.

(** A copy stays a copy when the store grows. *)
Lemma copiedNode_grows σ0 σ σ1 σ' n n' :
  (length (nodes σ0) ≤ length (nodes σ))%nat →
  (length (asts σ0) ≤ length (asts σ))%nat →
  nodes σ1 `prefix_of` nodes σ' →
  asts σ1 `prefix_of` asts σ' →
  copiedNode σ σ1 n n' → copiedNode σ0 σ' n n'.
Proof.
  intros Hn Ha [nodes' Hnodes] [asts' Hasts]
    (nd & nd' & Hnd & Hnd' & Hfresh & Hid & Hkind & Htoken & Hparent & Hchildren & Hast).
  exists nd, nd'. rewrite Hnodes, Hasts.
  split; [by apply lookup_app_l_Some|]. split; [by apply lookup_app_l_Some|].
  split; [lia|]. repeat (split; [done|]).
  destruct (maybeAstNode nd) as [a|], (maybeAstNode nd') as [a'|]; try done.
  destruct Hast as (Hfresh' & [t Ht] & Heq). split; [lia|].
  rewrite (lookup_app_l_Some _ _ _ _ Ht). split; [by eauto|].
  symmetry. apply lookup_app_l_Some. by rewrite <- Heq.
Qed.

Lemma copyEntries_copies nodesById entries : ∀ σ σ' out m0,
  copyEntries nodesById entries σ = Some (σ', out) →
  maps σ !! nodesById = Some m0 →
  NoDup entries.*1 →
  ∃ m', maps σ' !! nodesById = Some m'
    ∧ (∀ k, k ∉ entries.*1 → m' !! k = m0 !! k)
    ∧ (∀ k n, (k, n) ∈ entries →
              ∃ n', m' !! k = Some n' ∧ copiedNode σ σ' n n').
Proof.
  induction entries as [|[key value] entries IH]; intros σ σ' out m0 H Hm Hkeys;
    simpl in H.
  - apply ret_inv in H as [-> _]. exists m0. split; [done|]. split; [done|].
    intros k n Hin. by apply not_elem_of_nil in Hin.
  - apply bind_inv in H as [(σ1 & copy & Hcopy & H)|(e & Hcopy & _)];
      [|by apply deepCopyNode_copies in Hcopy as [? _]].
    apply deepCopyNode_copies in Hcopy
      as (Hout & Hcopied & Hlen & Hnodes & Hasts & Harrays & Hmaps & Hroots & Hstates).
    injection Hout as ->.
    apply bind_inv in H as [(σ2 & m & Hread & H)|(e & Hread & _)];
      [|by apply read_inv in Hread as [_ (? & _ & ?)]].
    apply read_inv in Hread as [-> (? & Hm1 & [= <-])]. simpl in Hm1.
    rewrite Hmaps, Hm in Hm1. injection Hm1 as <-.
    apply bind_inv in H as [(σ2 & [] & Hwrite & H)|(e & Hwrite & _)];
      [|by apply write_inv in Hwrite as (_ & _ & ?)].
    apply write_inv in Hwrite as (_ & -> & _).
    apply NoDup_cons in Hkeys as [Hkey Hkeys]. simpl in Hkey.
    pose proof (copyEntries_frame _ _ _ _ _ H)
      as (_ & Hnodes2 & Hasts2 & _).
    destruct (IH _ _ _ (<[key := length (nodes σ)]> m0) H) as (m' & Hm' & Hother & Hin).
    { simpl. rewrite Hmaps. apply list_lookup_insert_eq. by eapply lookup_lt_Some. }
    { done. }
    exists m'. split; [done|]. split.
    + intros k Hk. simpl in Hk. apply not_elem_of_cons in Hk as [Hne Hk].
      rewrite (Hother k Hk). by apply lookup_insert_ne.
    + intros k n Hkn. apply elem_of_cons in Hkn as [[= -> ->]|Hkn].
      * exists (length (nodes σ)). split.
        { rewrite (Hother key Hkey). apply lookup_insert_eq. }
        simpl in *. by eapply copiedNode_grows; [| | | |exact Hcopied].
      * destruct (Hin k n Hkn) as (n' & Hk & Hc). exists n'. split; [done|].
        simpl in *.
        apply prefix_length in Hnodes, Hasts.
        eapply copiedNode_grows; [| | | |exact Hc]; simpl; done || lia.
Qed.

(** X16: The node map of a copy made by [deepCopy] files exactly the ids that the
    node map of the state files, each under a copy of its node: a new node
    object with the same id, kind, token and parent id, a new AST object with
    the fields of the old one, and the same array of child ids as the node
    copied. The node map and the node objects of the state stay as they were. *)
Theorem deepCopy_copies_nodes (state : loc) (σ σ' : Store) (out : Outcome loc)
    (m : NodeMap) :
  deepCopy state σ = Some (σ', out) →
  nodeMapOf σ state = Some m →
  ∃ copy m',
    out = Return copy
    ∧ nodeMapOf σ' copy = Some m'
    ∧ (∀ k, m !! k = None → m' !! k = None)
    ∧ (∀ k n, m !! k = Some n → ∃ n', m' !! k = Some n' ∧ copiedNode σ σ' n n')
    ∧ nodeMapOf σ' state = Some m
    ∧ nodes σ `prefix_of` nodes σ'.
Proof.
  unfold deepCopy, maybeGetNode. intros H Hmap.
  apply bind_inv in H as [(σ0 & st & Hread & H)|(e & Hread & _)];
    [|by apply read_inv in Hread as [_ (? & _ & ?)]].
  apply read_inv in Hread as [-> (? & Hst & [= <-])]. simpl in Hst.
  apply bind_inv in H as [(σ0 & nodesById & Halloc & H)|(e & Halloc & _)];
    [|by apply alloc_inv in Halloc as [_ ?]].
  apply alloc_inv in Halloc as [-> [= ->]]. simpl in H.
  apply bind_inv in H as [(σ0 & old & Hread & H)|(e & Hread & _)];
    [|by apply read_inv in Hread as [_ (? & _ & ?)]].
  apply read_inv in Hread as [-> (? & Hold & [= <-])]. simpl in Hold.
  unfold nodeMapOf in Hmap. rewrite Hst in Hmap. simpl in Hmap.
  rewrite (lookup_app_l_Some _ _ _ _ Hmap) in Hold. injection Hold as <-.
  apply bind_inv in H as [(σ1 & [] & Hentries & H)|(e & Hentries & _)];
    [|by apply copyEntries_frame in Hentries as [? _]].
  pose proof (copyEntries_frame _ _ _ _ _ Hentries)
    as (_ & Hnodes & Hasts & Harrays & Hroots & Hstates & Hlen & Hmaps).
  destruct (copyEntries_copies _ _ _ _ _ ∅ Hentries) as (m' & Hm' & Hother & Hin).
  { simpl. by apply list_lookup_middle. }
  { apply NoDup_fst_map_to_list. }
  simpl in *.
  run_inv H. simpl in *.
  pose proof (lookup_lt_Some _ _ _ Hst) as Hstate.
  pose proof (lookup_lt_Some _ _ _ Hmap) as Hold.
  eexists _, m'. split; [done|].
  split.
  { unfold nodeMapOf. simpl. rewrite Hstates. by rewrite list_lookup_middle. }
  split.
  { intros k Hk. rewrite Hother; [done|].
    intros ((k' & n) & Heq & Hkn%elem_of_map_to_list)%list_elem_of_fmap.
    simpl in Heq. subst k'. congruence. }
  split.
  { intros k n Hk. apply elem_of_map_to_list in Hk.
    destruct (Hin k n Hk) as (n' & Hn' & Hc). exists n'. split; [done|].
    destruct Hc as (nd & nd' & Hc). by exists nd, nd'. }
  split; [|done].
  unfold nodeMapOf. simpl. rewrite Hstates, lookup_app_l, Hst by done. simpl.
  rewrite Hmaps by lia. by apply lookup_app_l_Some.
Qed.

Lemma deepCopy_copies_nodes_witness :
  ∃ σ' copy m',
    deepCopy 0%nat familyArena = Some (σ', Return copy)
    ∧ nodeMapOf σ' copy = Some m'
    ∧ m' !! 3 = None
    ∧ ∃ n', m' !! 2 = Some n' ∧ copiedNode familyArena σ' 1%nat n'.
Proof.
  assert (∃ σ' out, deepCopy 0%nat familyArena = Some (σ', out))
    as (σ' & out & Hrun) by (eexists _, _; vm_compute; reflexivity).
  destruct (deepCopy_copies_nodes 0%nat familyArena σ' out
              {[ 1 := 0%nat; 2 := 1%nat ]} Hrun eq_refl)
    as (copy & m' & Hout & Hmap & Hnone & Hsome & _).
  exists σ', copy, m'. rewrite Hrun, Hout. split; [reflexivity|].
  split; [exact Hmap|]. split.
  - apply Hnone. vm_compute. reflexivity.
  - apply (Hsome 2 1%nat). vm_compute. reflexivity.
Defined.

(** ** The roots *)

Lemma copyEntries_keys nodesById entries : ∀ σ σ' out,
  copyEntries nodesById entries σ = Some (σ', out) →
  Forall (λ m : NodeMap, ∀ k n, m !! k = Some n → 0 < k) (maps σ) →
  Forall (λ e : Z * loc, 0 < e.1) entries →
  Forall (λ m : NodeMap, ∀ k n, m !! k = Some n → 0 < k) (maps σ').
Proof.
  induction entries as [|[key value] entries IH]; intros σ σ' out H Hmaps Hkeys;
    simpl in H.
  - by apply ret_inv in H as [-> _].
  - apply Forall_cons in Hkeys as [Hkey Hkeys]. simpl in Hkey.
    apply bind_inv in H as [(σ1 & copy & Hcopy & H)|(e & Hcopy & _)];
      [|by apply deepCopyNode_frame in Hcopy as (? & ? & _ & ? & _)].
    apply deepCopyNode_frame in Hcopy as (nd & ast & _ & _ & _ & _ & _ & Hmaps1 & _).
    run_inv H. simpl in *.
    match goal with
    | H : copyEntries _ _ _ = Some _ |- _ => apply IH in H; [done| |done]
    end.
    simpl. rewrite Hmaps1 in *. apply Forall_insert; [done|].
    intros k n Hk. apply lookup_insert_Some in Hk as [[<- _]|[_ Hk]]; [done|].
    rewrite Forall_lookup in Hmaps. by eapply Hmaps.
Qed.

Lemma exec_rootless c σ σ' out :
  rootless σ → exec c σ = Some (σ', out) → rootless σ'.
Proof.
  intros (Hroots & Hstates & Hmaps) Hexec.
  destruct c as [s p k t|s n a|s n|s]; simpl in Hexec;
    apply bind_ret_inv in Hexec as (out0 & Hop & _).
  - unfold addChild in Hop. run_inv Hop; simpl in *.
    all: repeat match goal with
           | H : <[_:=_]> _ !! _ = Some _ |- _ =>
               rewrite list_lookup_insert_eq in H by (by eapply lookup_lt_Some);
               simplify_eq
           end.
    all: split; [done|].
    all: rewrite Forall_lookup in Hstates; rewrite Forall_lookup in Hmaps.
    all: split; apply Forall_insert; try (by apply Forall_lookup); simpl.
    all: try match goal with
             | Hs : states _ !! _ = Some ?st
               |- 0 ≤ numberAdd (nodeIdCounter ?st) 1 =>
                 specialize (Hstates _ _ Hs); simpl in Hstates;
                 pose proof (numberAdd_pos _ Hstates); lia
             end.
    all: intros k' n' Hk'; apply lookup_insert_Some in Hk' as [[<- _]|[_ Hk']];
      [ match goal with
        | Hs : states _ !! _ = Some ?st
          |- 0 < numberAdd (nodeIdCounter ?st) 1 =>
            specialize (Hstates _ _ Hs); simpl in Hstates;
            by apply numberAdd_pos
        end
      | match goal with
        | Hm : maps _ !! _ = Some ?m, Hk : ?m !! _ = Some _ |- _ =>
            exact (Hmaps _ _ Hm _ _ Hk)
        end ].
  - unfold endContext in Hop. run_inv Hop; simpl in *; done.
  - unfold deleteContext in Hop. run_inv Hop; simpl in *.
    all: split; [done|].
    all: rewrite Forall_lookup in Hstates; rewrite Forall_lookup in Hmaps.
    all: split;
      [ first [ by apply Forall_lookup
              | apply Forall_insert; [by apply Forall_lookup|]; simpl;
                match goal with
                | Hs : states _ !! _ = Some ?st |- 0 ≤ nodeIdCounter ?st =>
                    exact (Hstates _ _ Hs)
                end ]
      | first [ by apply Forall_lookup
              | apply Forall_insert; [by apply Forall_lookup|];
                intros k' n' Hk'; apply lookup_delete_Some in Hk' as [_ Hk'];
                match goal with
                | Hm : maps _ !! _ = Some ?m, Hk : ?m !! _ = Some _ |- _ =>
                    exact (Hmaps _ _ Hm _ _ Hk)
                end ] ].
  - unfold deepCopy, maybeGetNode in Hop. run_inv Hop; simpl in *.
    all: match goal with
         | H : copyEntries _ _ _ = Some _ |- _ =>
             pose proof (copyEntries_frame _ _ _ _ _ H)
               as (Hout & _ & _ & _ & Hroots1 & Hstates1 & _ & _);
             try discriminate Hout;
             apply copyEntries_keys in H as Hmaps1
         end; simpl in *.
    + rewrite Hroots1, Hstates1. split; [|split; [|done]].
      * apply Forall_app. split; [done|]. apply Forall_singleton.
        match goal with
        | Hm : maps _ !! _ = Some ?m |- ?m !! 0 = None =>
            destruct (m !! 0) as [n|] eqn:Hzero; [|done];
            rewrite Forall_lookup in Hmaps1;
            pose proof (Hmaps1 _ _ Hm _ _ Hzero); lia
        end.
      * apply Forall_app. split; [done|]. apply Forall_singleton. simpl.
        rewrite Forall_lookup in Hstates. by eapply Hstates.
    + apply Forall_app. split; [done|]. by apply Forall_singleton.
    + apply Forall_forall. intros [k' n'] Hin. simpl.
      apply elem_of_map_to_list in Hin.
      match goal with
      | Hm : (maps _ ++ [∅]) !! _ = Some ?m |- _ =>
          apply lookup_app_Some in Hm as [Hm|[_ Hm]];
          [ rewrite Forall_lookup in Hmaps; exact (Hmaps _ _ Hm _ _ Hin)
          | apply list_lookup_singleton_Some in Hm as [_ <-]; done ]
      end.
Qed.

(** X17: The functions of the arena never give a root its node. In a store where
    every root holds nothing, every counter is at least 0 and every node map
    files ids above 0 only, as [empty] makes them, every sequence of calls
    leaves such a store: [addChild] hands out ids above 0, so that [deepCopy]
    finds no node under the id 0 for the root of the copy. *)
Theorem run_rootless (cs : list Call) (σ σ' : Store) (log : list (loc * Z)) :
  rootless σ → run cs σ = Some (σ', log) → rootless σ'.
Proof.
  revert σ log. induction cs as [|c cs IH]; intros σ log Hσ Hrun; simpl in Hrun.
  - by injection Hrun as <- _.
  - destruct (exec c σ) as [[σ1 out]|] eqn:Hexec; [|done].
    destruct (run cs σ1) as [[σ2 log']|] eqn:Hrest; [|done].
    injection Hrun as <- _.
    eapply IH; [|exact Hrest]. by eapply exec_rootless.
Qed.

Lemma run_rootless_witness :
  ∃ σ' log, run sampleCalls freshArena = Some (σ', log) ∧ rootless σ'.
Proof.
  assert (∃ σ' log, run sampleCalls freshArena = Some (σ', log))
    as (σ' & log & Hrun) by (eexists _, _; vm_compute; reflexivity).
  exists σ', log. split; [exact Hrun|].
  apply (run_rootless sampleCalls freshArena σ' log); [|exact Hrun].
  clear Hrun. split; [|split]; apply Forall_singleton; simpl; [done|lia|].
  intros k n Hk. by rewrite lookup_empty in Hk.
Defined.

(** X18: [empty] makes a state that shares no object with the store it is made in:
    a new root that holds nothing, a new empty node map, a new empty array of
    terminal ids, and the counter 0; no object of the store is changed. *)
Theorem empty_fresh (σ : Store) :
  ∃ σ',
    empty σ = Some (σ', Return (length (states σ)))
    ∧ rootOf σ' (length (states σ)) = Some None
    ∧ nodeMapOf σ' (length (states σ)) = Some ∅
    ∧ terminalsOf σ' (length (states σ)) = Some []
    ∧ counterOf σ' (length (states σ)) = Some 0
    ∧ (∀ st, states σ' !! length (states σ) = Some st →
             root st = length (roots σ) ∧ nodesById st = length (maps σ)
             ∧ terminalNodeIds st = length (arrays σ))
    ∧ states σ `prefix_of` states σ'
    ∧ roots σ `prefix_of` roots σ'
    ∧ maps σ `prefix_of` maps σ'
    ∧ arrays σ `prefix_of` arrays σ'
    ∧ nodes σ' = nodes σ ∧ asts σ' = asts σ
    ∧ (rootless σ → rootless σ').
Proof.
  eexists. split; [reflexivity|].
  unfold rootOf, nodeMapOf, terminalsOf, counterOf. simpl.
  rewrite !list_lookup_middle by done. simpl.
  rewrite !list_lookup_middle by done.
  do 4 (split; [done|]).
  split; [by intros st' [= <-]|].
  do 4 (split; [by apply prefix_app_r|]).
  do 2 (split; [done|]).
  intros (Hroots & Hstates & Hmaps).
  split; [|split]; simpl; (apply Forall_app; split; [done|]); apply Forall_singleton;
    [done|done|].
  intros k n Hk. by rewrite lookup_empty in Hk.
Qed.

Lemma empty_fresh_witness :
  ∃ σ',
    empty emptyStore = Some (σ', Return 0%nat)
    ∧ rootOf σ' 0%nat = Some None
    ∧ nodeMapOf σ' 0%nat = Some ∅
    ∧ terminalsOf σ' 0%nat = Some []
    ∧ counterOf σ' 0%nat = Some 0
    ∧ rootless σ'.
Proof.
  destruct (empty_fresh emptyStore)
    as (σ' & Hrun & Hroot & Hmap & Hterminals & Hcounter & _ & _ & _ & _ & _ & _ & _
        & Hrootless).
  exists σ'. split; [exact Hrun|]. split; [exact Hroot|]. split; [exact Hmap|].
  split; [exact Hterminals|]. split; [exact Hcounter|].
  apply Hrootless. by repeat split.
Defined.
